(** * pig.js: the progressive image grid, embedded in Rocq

    A shallow embedding of [src/pig.js] and proofs about it:
    - the row layout, [Pig._computeLayout], against a row-by-row description;
    - the visibility pass, [Pig._doLayout];
    - the scroll handler of [Pig._getOnScroll] and its frame callback;
    - [OptimizedResize], [Pig.enable] and [Pig.disable] with the listeners
      they register;
    - the life cycle of one [ProgressiveImage] on the page ([load], [hide],
      the deferred callback, the [onload] handlers).

    Conventions.
    - A JavaScript number is a rational ([Q]): the finite values of a double
      are rationals, and a rational that is no double stands for the double
      nearest to it, as a numeric literal does.  The arithmetic of the row
      layout rounds every result to the nearest double, as the code does
      ([fadd], [fsub], [fmul], [fdiv]); NaN, the infinities and overflow are
      not modelled, and a quotient by 0 is 0.  The visibility pass and the
      scroll handler compare and add exactly.  Equality of numbers is [==]
      ([Qeq]).
    - [parseInt(x, 10)] applied to a number reads the decimal rendering of
      the number: truncation toward zero while the rendering has no exponent,
      the leading digit otherwise.
    - Mutable object fields become record fields and every method becomes a
      function from the old state to the new one; a method that can throw
      returns a [result] (or an [option]).
    - A function object (a closure, the result of [bind]) is its identity, a
      number; a DOM node is referred to by a number as well. *)

From Stdlib Require Import String ZArith QArith Qround Qabs Qminmax Qpower Lqa Lia Bool List.
Import ListNotations.
Local Open Scope Q_scope.

(** ** JavaScript numbers *)

(** [floorLog2 x], for [0 < x]: the [k] with [2^k <= x < 2^(k+1)]. *)
Definition floorLog2 (x : Q) : Z :=
  let k := (Z.log2 (Qnum x) - Z.log2 (Z.pos (Qden x)))%Z in
  if Qle_bool (2 ^ k) x then k else (k - 1)%Z.

(** The integer nearest to [q]; of two nearest ones the even one. *)
Definition roundHalfEven (q : Q) : Z :=
  let f := Qfloor q in
  match Qcompare (q - inject_Z f) (1 # 2) with
  | Lt => f
  | Gt => (f + 1)%Z
  | Eq => if Z.even f then f else (f + 1)%Z
  end.

(** The exponent of the last bit of the doubles around [a], for [0 < a]: a
    double has 53 significant bits, and no bit below [2^-1074]. *)
Definition ulpExponent (a : Q) : Z := Z.max (floorLog2 a - 52) (-1074).

(** The double nearest to [a], for [0 < a] (round to nearest, ties to
    even). *)
Definition nearestDouble (a : Q) : Q :=
  inject_Z (roundHalfEven (a / 2 ^ ulpExponent a)) * 2 ^ ulpExponent a.

(** The number a rational stands for: the double nearest to it, in lowest
    terms. *)
Definition double (x : Q) : Q :=
  Qred (match Qcompare x 0 with
        | Eq => 0
        | Gt => nearestDouble x
        | Lt => - nearestDouble (- x)
        end).

(** [x + y], [x - y], [x * y] and [x / y] on numbers: the exact result of the
    operation on the two doubles, rounded to the nearest double. *)
Definition fadd (x y : Q) : Q := double (double x + double y).
Definition fsub (x y : Q) : Q := double (double x - double y).
Definition fmul (x y : Q) : Q := double (double x * double y).
Definition fdiv (x y : Q) : Q := double (double x / double y).

(** [Math.max(x, y)] and [x >= y] on numbers. *)
Definition fmax (x y : Q) : Q := Qmax (double x) (double y).
Definition fgeb (x y : Q) : bool := Qle_bool (double y) (double x).

(** [floorLog10 a], for [0 < a]: the [p] with [10^p <= a < 10^(p+1)], found
    from an estimate that is at most one off. *)
Definition floorLog10 (a : Q) : Z :=
  let p := (floorLog2 a * 1233 / 4096)%Z in
  let p := if Qle_bool (10 ^ (p + 1)) a then (p + 1)%Z else p in
  let p := if Qle_bool (10 ^ (p + 1)) a then (p + 1)%Z else p in
  let p := if Qle_bool (10 ^ p) a then p else (p - 1)%Z in
  if Qle_bool (10 ^ p) a then p else (p - 1)%Z.

(** The first digit of the rendering of the double [a], [0 < a], as a string:
    the rendering is the shortest decimal that reads back as [a], so its
    first digit is that of [a] itself unless the next one-digit decimal reads
    back as [a] too. *)
Definition leadingDigit (a : Q) : Z :=
  let p := floorLog10 a in
  let d := Qfloor (a / 10 ^ p) in
  if Qeq_bool (double (inject_Z (d + 1) * 10 ^ p)) a
  then (if (d =? 9)%Z then 1 else d + 1)%Z
  else d.

(** [parseInt(x, 10)] on a number.  The number is rendered as a string and
    the digits before the first character that is no digit are read: the
    rendering is decimal, and the result the integer part, for
    [1e-6 <= |x| < 1e21]; outside it has an exponent ("1e-7", "2.5e+21") and
    the result is its first digit. *)
Definition parseInt (x : Q) : Z :=
  let d := double x in
  let a := Qabs d in
  if Qeq_bool d 0 then 0%Z
  else if Qle_bool (double (1 # 1000000)) a && negb (Qle_bool (10 ^ 21) a)
       then Z.quot (Qnum d) (Z.pos (Qden d))
       else (Z.sgn (Qnum d) * leadingDigit a)%Z.

(** [parseFloat(x)] on a number is the number itself. *)
Definition parseFloat (x : Q) : Q := x.

(** [x > y], [x < y], [x <= y] and [x !== y] on numbers, compared as they
    are. *)
Definition Qgtb (x y : Q) : bool := negb (Qle_bool x y).
Definition Qltb (x y : Q) : bool := negb (Qle_bool y x).
Definition Qleb (x y : Q) : bool := Qle_bool x y.
Definition Qneb (x y : Q) : bool := negb (Qeq_bool x y).

(** [arr.forEach((x, index) => ...)] with the loop variables threaded as a
    state. *)
Fixpoint forEachFrom {A St : Type} (f : St -> A -> nat -> St) (l : list A)
    (i : nat) (st : St) : St :=
  match l with
  | [] => st
  | x :: t => forEachFrom f t (S i) (f st x i)
  end.

Definition forEach {A St : Type} (f : St -> A -> nat -> St) (l : list A) (st : St) : St :=
  forEachFrom f l 0%nat st.

(** ** Data model *)

(** The value of the CSS [transition] property: ['none'] or
    ['<seconds>s transform ease']. *)
Inductive Transition : Type :=
  | TransitionNone
  | TransformEase (seconds : Q).

(** [ProgressiveImage.style], as assigned by [_computeLayout]. *)
Record Style : Type := mkStyle {
  width : Z;
  height : Z;
  translateX : Q;
  translateY : Q;
  transition : Transition
}.

(** The [src] of an [<img>]: [''] or [urlForSize(filename, size)]. *)
Inductive Src : Type :=
  | SrcEmpty
  | SrcFor (file : string) (size : Q).

(** An element made by [new Image()]. *)
Record ImageElement : Type := mkImageElement {
  src : Src;
  className : string
}.

(** The [<figure>] of an image: its class, whether a click listener was
    attached, the style written by [_updateStyles] and its child nodes
    (references to [Image] elements). *)
Record Figure : Type := mkFigure {
  figureClassName : string;
  hasClickListener : bool;
  figureStyle : option Style;
  children : list nat
}.

(** The fields of a [ProgressiveImage].  [style] is undefined until the first
    layout; [element], [thumbnail] and [fullImage] are undefined until they
    are created, and the last two are deleted by [removeSubElement]. *)
Record ProgressiveImage : Type := mkImage {
  existsOnPage : bool;
  aspectRatio : Q;
  filename : string;
  index : nat;
  style : option Style;
  element : option Figure;
  thumbnail : option nat;
  fullImage : option nat
}.

Definition set_style (img : ProgressiveImage) (st : Style) : ProgressiveImage :=
  {| existsOnPage := existsOnPage img;
     aspectRatio := aspectRatio img;
     filename := filename img;
     index := index img;
     style := Some st;
     element := element img;
     thumbnail := thumbnail img;
     fullImage := fullImage img |}.

Definition set_existsOnPage (img : ProgressiveImage) (b : bool) : ProgressiveImage :=
  {| existsOnPage := b;
     aspectRatio := aspectRatio img;
     filename := filename img;
     index := index img;
     style := style img;
     element := element img;
     thumbnail := thumbnail img;
     fullImage := fullImage img |}.

Definition set_element (img : ProgressiveImage) (fig : Figure) : ProgressiveImage :=
  {| existsOnPage := existsOnPage img;
     aspectRatio := aspectRatio img;
     filename := filename img;
     index := index img;
     style := style img;
     element := Some fig;
     thumbnail := thumbnail img;
     fullImage := fullImage img |}.

(** The two property names used with [this[subElementName]]. *)
Inductive SubElementName : Type :=
  | Thumbnail   (* 'thumbnail' *)
  | FullImage.  (* 'fullImage' *)

Definition getSubElement (name : SubElementName) (img : ProgressiveImage) : option nat :=
  match name with
  | Thumbnail => thumbnail img
  | FullImage => fullImage img
  end.

Definition setSubElement (name : SubElementName) (v : option nat)
    (img : ProgressiveImage) : ProgressiveImage :=
  {| existsOnPage := existsOnPage img;
     aspectRatio := aspectRatio img;
     filename := filename img;
     index := index img;
     style := style img;
     element := element img;
     thumbnail := match name with Thumbnail => v | FullImage => thumbnail img end;
     fullImage := match name with FullImage => v | Thumbnail => fullImage img end |}.

(** [new ProgressiveImage(singleImageData, index, pig)]. *)
Definition newProgressiveImage (data : Q * string) (i : nat) : ProgressiveImage :=
  {| existsOnPage := false;
     aspectRatio := fst data;
     filename := snd data;
     index := i;
     style := None;
     element := None;
     thumbnail := None;
     fullImage := None |}.

(** [PigSettings]: the options the modelled methods read.  A function value
    that is only compared or called back ([onClickHandler]) is its identity. *)
Record PigSettings : Type := mkSettings {
  classPrefix : string;
  spaceBetweenImages : Q;
  transitionSpeed : Q;
  primaryImageBufferHeight : Q;
  secondaryImageBufferHeight : Q;
  thumbnailSize : Q;
  onClickHandler : option nat;
  getMinAspectRatio : Q -> Q;
  getImageSize : Q -> Q
}.

(** [PigSettings.getMinAspectRatio], the default. *)
Definition defaultGetMinAspectRatio (lastWindowWidth : Q) : Q :=
  if Qleb lastWindowWidth 640 then 2
  else if Qleb lastWindowWidth 1280 then 4
  else if Qleb lastWindowWidth 1920 then 5
  else 6.

(** [PigSettings.getImageSize], the default. *)
Definition defaultGetImageSize (lastWindowWidth : Q) : Q :=
  if Qleb lastWindowWidth 640 then 100
  else if Qleb lastWindowWidth 1920 then 250
  else 500.

(** [new PigSettings()]. *)
Definition defaultSettings : PigSettings :=
  {| classPrefix := "pig";
     spaceBetweenImages := 8;
     transitionSpeed := 500;
     primaryImageBufferHeight := 1000;
     secondaryImageBufferHeight := 300;
     thumbnailSize := 20;
     onClickHandler := None;
     getMinAspectRatio := defaultGetMinAspectRatio;
     getImageSize := defaultGetImageSize |}.

Inductive Direction : Type := up | down.

Definition Direction_eqb (a b : Direction) : bool :=
  match a, b with
  | up, up | down, down => true
  | _, _ => false
  end.

(** [OptimizedResize]: the callbacks (function identities) and the running
    flag. *)
Record OptimizedResize : Type := mkResize {
  _callbacks : list nat;
  _running : bool
}.

(** The instance fields of [Pig].  [minAspectRatio] starts as [null];
    [previousYOffset], [totalHeight] and [onScroll] start undefined. *)
Record Pig : Type := mkPig {
  _optimizedResize : OptimizedResize;
  inRAF : bool;
  isTransitioning : bool;
  minAspectRatioRequiresTransition : bool;
  minAspectRatio : option Q;
  latestYOffset : Q;
  previousYOffset : option Q;
  lastWindowWidth : Q;
  scrollDirection : Direction;
  settings : PigSettings;
  images : list ProgressiveImage;
  totalHeight : option Q;
  onScroll : option nat
}.

(** Field updates, one per assignment target in the methods. *)
Definition set_optimizedResize (pig : Pig) (r : OptimizedResize) : Pig :=
  mkPig r (inRAF pig) (isTransitioning pig) (minAspectRatioRequiresTransition pig)
        (minAspectRatio pig) (latestYOffset pig) (previousYOffset pig)
        (lastWindowWidth pig) (scrollDirection pig) (settings pig) (images pig)
        (totalHeight pig) (onScroll pig).

Definition set_inRAF (pig : Pig) (b : bool) : Pig :=
  mkPig (_optimizedResize pig) b (isTransitioning pig)
        (minAspectRatioRequiresTransition pig)
        (minAspectRatio pig) (latestYOffset pig) (previousYOffset pig)
        (lastWindowWidth pig) (scrollDirection pig) (settings pig) (images pig)
        (totalHeight pig) (onScroll pig).

Definition set_isTransitioning (pig : Pig) (b : bool) : Pig :=
  mkPig (_optimizedResize pig) (inRAF pig) b (minAspectRatioRequiresTransition pig)
        (minAspectRatio pig) (latestYOffset pig) (previousYOffset pig)
        (lastWindowWidth pig) (scrollDirection pig) (settings pig) (images pig)
        (totalHeight pig) (onScroll pig).

Definition set_minAspectRatio (pig : Pig) (m : Q) (requiresTransition : bool) : Pig :=
  mkPig (_optimizedResize pig) (inRAF pig) (isTransitioning pig) requiresTransition
        (Some m) (latestYOffset pig) (previousYOffset pig)
        (lastWindowWidth pig) (scrollDirection pig) (settings pig) (images pig)
        (totalHeight pig) (onScroll pig).

Definition set_scroll (pig : Pig) (previous latest : Q) (direction : Direction) : Pig :=
  mkPig (_optimizedResize pig) (inRAF pig) (isTransitioning pig)
        (minAspectRatioRequiresTransition pig)
        (minAspectRatio pig) latest (Some previous)
        (lastWindowWidth pig) direction (settings pig) (images pig)
        (totalHeight pig) (onScroll pig).

Definition set_lastWindowWidth (pig : Pig) (w : Q) : Pig :=
  mkPig (_optimizedResize pig) (inRAF pig) (isTransitioning pig)
        (minAspectRatioRequiresTransition pig)
        (minAspectRatio pig) (latestYOffset pig) (previousYOffset pig)
        w (scrollDirection pig) (settings pig) (images pig)
        (totalHeight pig) (onScroll pig).

Definition set_images (pig : Pig) (imgs : list ProgressiveImage) : Pig :=
  mkPig (_optimizedResize pig) (inRAF pig) (isTransitioning pig)
        (minAspectRatioRequiresTransition pig)
        (minAspectRatio pig) (latestYOffset pig) (previousYOffset pig)
        (lastWindowWidth pig) (scrollDirection pig) (settings pig) imgs
        (totalHeight pig) (onScroll pig).

Definition set_totalHeight (pig : Pig) (h : Q) : Pig :=
  mkPig (_optimizedResize pig) (inRAF pig) (isTransitioning pig)
        (minAspectRatioRequiresTransition pig)
        (minAspectRatio pig) (latestYOffset pig) (previousYOffset pig)
        (lastWindowWidth pig) (scrollDirection pig) (settings pig) (images pig)
        (Some h) (onScroll pig).

Definition set_onScroll (pig : Pig) (f : nat) : Pig :=
  mkPig (_optimizedResize pig) (inRAF pig) (isTransitioning pig)
        (minAspectRatioRequiresTransition pig)
        (minAspectRatio pig) (latestYOffset pig) (previousYOffset pig)
        (lastWindowWidth pig) (scrollDirection pig) (settings pig) (images pig)
        (totalHeight pig) (Some f).

(** What the methods read from the page: [container.clientWidth], the
    [offsetTop] of the container and of each of its [offsetParent]s ([None]
    when it is NaN), whether [settings.scroller] is [window], and the
    dimensions and scroll position of the window and of the scroller
    element. *)
Record Host : Type := mkHost {
  clientWidth : Z;
  containerOffsetTop : option Q;
  offsetParents : list (option Q);
  scrollerIsWindow : bool;
  innerWidth : Q;
  innerHeight : Q;
  pageYOffset : Q;
  offsetWidth : Q;
  offsetHeight : Q;
  scrollTop : Q
}.

(** [Pig._parseImageData]. *)
Definition _parseImageData (imageData : list (Q * string)) : list ProgressiveImage :=
  forEach (fun progressiveImages image i =>
             progressiveImages ++ [newProgressiveImage image i])
          imageData [].

(** [new Pig(imageData, options)], the settings already merged. *)
Definition newPig (host : Host) (imageData : list (Q * string)) (opts : PigSettings) : Pig :=
  {| _optimizedResize := {| _callbacks := []; _running := false |};
     inRAF := false;
     isTransitioning := false;
     minAspectRatioRequiresTransition := false;
     minAspectRatio := None;
     latestYOffset := 0;
     previousYOffset := None;
     lastWindowWidth := innerWidth host;
     scrollDirection := down;
     settings := opts;
     images := _parseImageData imageData;
     totalHeight := None;
     onScroll := None |}.

(** ** [Pig._computeLayout] *)

(** [Pig._getTransitionTimeout]. *)
Definition _getTransitionTimeout (pig : Pig) : Q :=
  let transitionTimeoutScaleFactor := 1.5 in
  transitionSpeed (settings pig) * transitionTimeoutScaleFactor.

(** [Pig._getTransitionString]. *)
Definition _getTransitionString (pig : Pig) : Transition :=
  if isTransitioning pig
  then TransformEase (transitionSpeed (settings pig) / 1000)
  else TransitionNone.

(** [Pig._recomputeMinAspectRatio]: the new [minAspectRatio] and
    [minAspectRatioRequiresTransition]. *)
Definition _recomputeMinAspectRatio (pig : Pig) : Q * bool :=
  let oldMinAspectRatio := minAspectRatio pig in
  let newMinAspectRatio := getMinAspectRatio (settings pig) (lastWindowWidth pig) in
  match oldMinAspectRatio with
  | Some old => (newMinAspectRatio, Qneb old newMinAspectRatio)
  | None => (newMinAspectRatio, false)
  end.

(** The loop variables of [_computeLayout]; [v_images] collects the images
    whose [style] has been assigned, in collection order. *)
Record LayoutVars : Type := mkVars {
  v_row : list ProgressiveImage;
  v_translateX : Q;
  v_translateY : Q;
  v_rowAspectRatio : Q;
  v_images : list ProgressiveImage
}.

Section LayoutLoop.
Variable wrapperWidth : Z.
Variable space : Q.          (* this.settings.spaceBetweenImages *)
Variable minRatio : Q.       (* this.minAspectRatio *)
Variable transitionString : Transition.
Variable imagesLength : nat. (* this.images.length *)

(** The body of [row.forEach((img) => ...)]: the state is the images styled
    so far and the running [translateX]. *)
Definition placeImage (rowHeight translateY0 : Q)
    (acc : list ProgressiveImage * Q) (img : ProgressiveImage) (_ : nat)
    : list ProgressiveImage * Q :=
  let imageWidth := fmul rowHeight (aspectRatio img) in
  let st := {| width := parseInt imageWidth;
               height := parseInt rowHeight;
               translateX := snd acc;
               translateY := translateY0;
               transition := transitionString |} in
  (fst acc ++ [set_style img st], fadd (snd acc) (fadd imageWidth space)).

(** The body of [[].forEach.call(this.images, (image, index) => ...)]. *)
Definition layoutStep (v : LayoutVars) (image : ProgressiveImage) (i : nat)
    : LayoutVars :=
  let rowAspectRatio := fadd (v_rowAspectRatio v) (parseFloat (aspectRatio image)) in
  let row := v_row v ++ [image] in
  if fgeb rowAspectRatio minRatio || (i + 1 =? imagesLength)%nat then
    let rowAspectRatio := fmax rowAspectRatio minRatio in
    let totalDesiredWidthOfImages :=
      fsub (inject_Z wrapperWidth)
           (fmul space (inject_Z (Z.of_nat (length row) - 1))) in
    let rowHeight := fdiv totalDesiredWidthOfImages rowAspectRatio in
    let placed :=
      forEach (placeImage rowHeight (v_translateY v)) row ([], v_translateX v) in
    {| v_row := [];
       v_translateX := 0;
       v_translateY := fadd (v_translateY v) (fadd (inject_Z (parseInt rowHeight)) space);
       v_rowAspectRatio := 0;
       v_images := v_images v ++ fst placed |}
  else
    {| v_row := row;
       v_translateX := v_translateX v;
       v_translateY := v_translateY v;
       v_rowAspectRatio := rowAspectRatio;
       v_images := v_images v |}.
End LayoutLoop.

Definition initialVars : LayoutVars :=
  {| v_row := []; v_translateX := 0; v_translateY := 0;
     v_rowAspectRatio := 0; v_images := [] |}.

(** A timer set with [setTimeout]: what it does and after how many ms. *)
Inductive Timeout : Type :=
  | ClearTransitioning (delay : Q)          (* () => { this.isTransitioning = false; } *)
  | AddSubElements (image : nat) (delay : Q). (* the deferred part of image.load() *)

(** [parseInt(this.container.clientWidth, 10)]: the width the layout works
    with. *)
Definition containerWidth (host : Host) : Z := parseInt (inject_Z (clientWidth host)).

(** [Pig._computeLayout]: the updated instance and the timers it set. *)
Definition _computeLayout (host : Host) (pig : Pig) : Pig * list Timeout :=
  let wrapperWidth := containerWidth host in
  let space := spaceBetweenImages (settings pig) in
  let imgs := images pig in
  let recomputed := _recomputeMinAspectRatio pig in
  let pig := set_minAspectRatio pig (fst recomputed) (snd recomputed) in
  let startTransition :=
    negb (isTransitioning pig) && minAspectRatioRequiresTransition pig in
  let pig := if startTransition then set_isTransitioning pig true else pig in
  let timers :=
    if startTransition then [ClearTransitioning (_getTransitionTimeout pig)] else [] in
  let transition := _getTransitionString pig in
  let v := forEach (layoutStep wrapperWidth space (fst recomputed) transition (length imgs))
                   imgs initialVars in
  (set_totalHeight (set_images pig (v_images v)) (fsub (v_translateY v) space), timers).

(** ** The layout in the words of the specification

    The definitions of this section follow the description of the row layout
    engine, not the code: the items are first cut into rows, then every row is
    given its geometry.  Every sum, difference, product and quotient is that
    of the code, rounded to a double; where the description leaves the
    truncation open they truncate as the code does: the stored width and
    height, and the advance of the vertical cursor.  They are compared with
    [_computeLayout] below. *)

(** The aspect ratio of a row: the sum of the aspect ratios of its items,
    added up from the left. *)
Definition rowSum (row : list ProgressiveImage) : Q :=
  fold_left (fun acc img => fadd acc (aspectRatio img)) row 0.

Section RowSpec.
Variable W : Z.              (* container width *)
Variable s : Q.              (* spacing *)
Variable m : Q.              (* minimum row aspect ratio *)
Variable tr : Transition.

(** Walk the items in order; [cur] is the candidate row and [sum] its
    running aspect ratio.  The row closes when the sum reaches [m], or when
    the list ends. *)
Fixpoint spec_rowsFrom (cur : list ProgressiveImage) (sum : Q)
    (l : list ProgressiveImage) : list (list ProgressiveImage) :=
  match l with
  | [] => match cur with [] => [] | _ :: _ => [cur] end
  | x :: t =>
      if fgeb (fadd sum (aspectRatio x)) m
      then (cur ++ [x]) :: spec_rowsFrom [] 0 t
      else spec_rowsFrom (cur ++ [x]) (fadd sum (aspectRatio x)) t
  end.

Definition spec_rows (l : list ProgressiveImage) : list (list ProgressiveImage) :=
  spec_rowsFrom [] 0 l.

(** The row's aspect ratio, clamped up to at least the minimum. *)
Definition spec_rowRatio (row : list ProgressiveImage) : Q :=
  fmax (rowSum row) m.

(** row height = (container width - spacing x (itemsInRow - 1)) / rowAspectRatio *)
Definition spec_rowHeight (row : list ProgressiveImage) : Q :=
  fdiv (fsub (inject_Z W) (fmul s (inject_Z (Z.of_nat (length row) - 1))))
       (spec_rowRatio row).

(** The geometry of the items of one row of height [h], the horizontal
    cursor at [x], the vertical cursor at [y]. *)
Fixpoint spec_placeRow (h x y : Q) (row : list ProgressiveImage)
    : list ProgressiveImage :=
  match row with
  | [] => []
  | img :: t =>
      set_style img {| width := parseInt (fmul h (aspectRatio img));
                       height := parseInt h;
                       translateX := x;
                       translateY := y;
                       transition := tr |}
      :: spec_placeRow h (fadd x (fadd (fmul h (aspectRatio img)) s)) y t
  end.

(** The rows with their geometry, the vertical cursor starting at [y], and
    the final vertical cursor. *)
Fixpoint spec_layoutFrom (y : Q) (rows : list (list ProgressiveImage))
    : list (list ProgressiveImage) * Q :=
  match rows with
  | [] => ([], y)
  | r :: rs =>
      let h := spec_rowHeight r in
      let rest := spec_layoutFrom (fadd y (fadd (inject_Z (parseInt h)) s)) rs in
      (spec_placeRow h 0 y r :: fst rest, snd rest)
  end.

Definition spec_layout (l : list ProgressiveImage)
    : list (list ProgressiveImage) * Q :=
  spec_layoutFrom 0 (spec_rows l).
End RowSpec.

(** The rows of the grid after [_computeLayout], each item with its style. *)
Definition layoutRows (host : Host) (pig : Pig) : list (list ProgressiveImage) :=
  let p := fst (_computeLayout host pig) in
  match minAspectRatio p with
  | Some m =>
      fst (spec_layout (containerWidth host) (spaceBetweenImages (settings pig)) m
                       (_getTransitionString p) (images pig))
  | None => []
  end.

(** ** [Pig._doLayout] *)

(** [Pig._getOffsetTop(this.container)]: the do-while loop adds the
    [offsetTop] of the container and of every [offsetParent], skipping NaN. *)
Definition addOffsetTop (offsetTop : Q) (elemOffsetTop : option Q) : Q :=
  match elemOffsetTop with
  | Some t => offsetTop + t
  | None => offsetTop
  end.

Definition _getOffsetTop (host : Host) : Q :=
  fold_left addOffsetTop (offsetParents host) (addOffsetTop 0 (containerOffsetTop host)).

(** The method [_doLayout] calls on an image. *)
Inductive Call : Type :=
  | CallLoad   (* image.load() *)
  | CallHide.  (* image.hide() *)

(** What one pass of [_doLayout] does to the page: the height written to
    [container.style.height] (in px; [None] is [undefined]) and the call made
    on each image, in collection order. *)
Record LayoutPass : Type := mkPass {
  containerHeight : option Q;
  calls : list Call
}.

Definition bufferTop (pig : Pig) : Q :=
  if Direction_eqb (scrollDirection pig) up
  then primaryImageBufferHeight (settings pig)
  else secondaryImageBufferHeight (settings pig).

Definition bufferBottom (pig : Pig) : Q :=
  if Direction_eqb (scrollDirection pig) down
  then secondaryImageBufferHeight (settings pig)
  else primaryImageBufferHeight (settings pig).

Definition scrollerHeight (host : Host) : Q :=
  if scrollerIsWindow host then innerHeight host else offsetHeight host.

(** The top of the top buffer and the bottom of the bottom buffer. *)
Definition minTranslateYPlusHeight (host : Host) (pig : Pig) : Q :=
  latestYOffset pig - _getOffsetTop host - bufferTop pig.

Definition maxTranslateY (host : Host) (pig : Pig) : Q :=
  latestYOffset pig - _getOffsetTop host + scrollerHeight host + bufferBottom pig.

(** The test of the [forEach] body of [_doLayout] on one image's style. *)
Definition visibilityCall (lower upper : Q) (st : Style) : Call :=
  if Qltb (translateY st + inject_Z (height st)) lower || Qgtb (translateY st) upper
  then CallHide
  else CallLoad.

(** [this.images.forEach((image) => ...)]; reading [image.style.translateY]
    of an image without a style throws ([None]). *)
Fixpoint visitImages (lower upper : Q) (imgs : list ProgressiveImage)
    : option (list Call) :=
  match imgs with
  | [] => Some []
  | image :: rest =>
      match style image with
      | None => None
      | Some st =>
          match visitImages lower upper rest with
          | None => None
          | Some cs => Some (visibilityCall lower upper st :: cs)
          end
      end
  end.

(** [Pig._doLayout]. *)
Definition _doLayout (host : Host) (pig : Pig) : option LayoutPass :=
  match visitImages (minTranslateYPlusHeight host pig) (maxTranslateY host pig)
                    (images pig) with
  | None => None
  | Some cs => Some {| containerHeight := totalHeight pig; calls := cs |}
  end.

(** ** The page: event listeners, frame requests, timers and nodes *)

(** A callback passed to [window.requestAnimationFrame]. *)
Inductive FrameCallback : Type :=
  | ScrollFrame   (* () => { that._doLayout(); that.inRAF = false; } *)
  | ResizeFrame.  (* this._runCallbacks.bind(this) *)

(** The mutable state of the page around one grid.  A function value is
    its identity: every closure creation and every [bind] yields the next
    unused number ([nextFunction]).
    - [scrollListeners]: the 'scroll' listeners of [pig.scroller];
    - [resizeListeners]: the 'resize' listeners of [window];
    - [frameRequests]: callbacks waiting for the next animation frame;
    - [timeouts]: callbacks waiting in [setTimeout];
    - [containerChildren]: the child nodes of [pig.container], a figure being
      named by the [index] of its image;
    - [imageElements]: every element made by [new Image()], a reference
      being a position in this list;
    - [passes]: what each executed [_doLayout] did ([None]: it threw). *)
Record Page : Type := mkPage {
  scrollListeners : list nat;
  resizeListeners : list nat;
  nextFunction : nat;
  frameRequests : list FrameCallback;
  timeouts : list Timeout;
  containerChildren : list nat;
  imageElements : list ImageElement;
  passes : list (option LayoutPass)
}.

Definition emptyPage : Page :=
  {| scrollListeners := []; resizeListeners := []; nextFunction := 0;
     frameRequests := []; timeouts := [];
     containerChildren := []; imageElements := []; passes := [] |}.

Definition set_scrollListeners (page : Page) (l : list nat) : Page :=
  mkPage l (resizeListeners page) (nextFunction page) (frameRequests page)
         (timeouts page) (containerChildren page) (imageElements page) (passes page).

Definition set_resizeListeners (page : Page) (l : list nat) : Page :=
  mkPage (scrollListeners page) l (nextFunction page) (frameRequests page)
         (timeouts page) (containerChildren page) (imageElements page) (passes page).

Definition set_nextFunction (page : Page) (n : nat) : Page :=
  mkPage (scrollListeners page) (resizeListeners page) n (frameRequests page)
         (timeouts page) (containerChildren page) (imageElements page) (passes page).

Definition set_frameRequests (page : Page) (l : list FrameCallback) : Page :=
  mkPage (scrollListeners page) (resizeListeners page) (nextFunction page) l
         (timeouts page) (containerChildren page) (imageElements page) (passes page).

Definition set_timeouts (page : Page) (l : list Timeout) : Page :=
  mkPage (scrollListeners page) (resizeListeners page) (nextFunction page)
         (frameRequests page) l (containerChildren page) (imageElements page)
         (passes page).

Definition set_containerChildren (page : Page) (l : list nat) : Page :=
  mkPage (scrollListeners page) (resizeListeners page) (nextFunction page)
         (frameRequests page) (timeouts page) l (imageElements page) (passes page).

Definition set_imageElements (page : Page) (l : list ImageElement) : Page :=
  mkPage (scrollListeners page) (resizeListeners page) (nextFunction page)
         (frameRequests page) (timeouts page) (containerChildren page) l (passes page).

Definition set_passes (page : Page) (l : list (option LayoutPass)) : Page :=
  mkPage (scrollListeners page) (resizeListeners page) (nextFunction page)
         (frameRequests page) (timeouts page) (containerChildren page)
         (imageElements page) l.

(** [target.addEventListener(type, f)]: a listener that is already registered
    is not added again. *)
Definition addEventListener (f : nat) (listeners : list nat) : list nat :=
  if existsb (Nat.eqb f) listeners then listeners else listeners ++ [f].

(** [target.removeEventListener(type, f)]: removes the listener that is the
    same function object, if there is one. *)
Definition removeEventListener (f : nat) (listeners : list nat) : list nat :=
  filter (fun g => negb (Nat.eqb f g)) listeners.

(** A fresh function object: a new closure, or the result of [bind]. *)
Definition newFunction (page : Page) : nat * Page :=
  (nextFunction page, set_nextFunction page (S (nextFunction page))).

Definition requestAnimationFrame (cb : FrameCallback) (page : Page) : Page :=
  set_frameRequests page (frameRequests page ++ [cb]).

Definition setTimeout (t : Timeout) (page : Page) : Page :=
  set_timeouts page (timeouts page ++ [t]).

(** ** [Pig._getOnScroll]: the scroll handler *)

(** [a || b] on numbers: [b] when [a] is 0 (or NaN), else [a]. *)
Definition orElse (a b : Q) : Q := if Qeq_bool a 0 then b else a.

(** [that.scroller === window ? window.pageYOffset : that.scroller.scrollTop] *)
Definition currentYOffset (host : Host) : Q :=
  if scrollerIsWindow host then pageYOffset host else scrollTop host.

(** The handler returned by [_getOnScroll], called on a scroll event. *)
Definition scrollHandler (host : Host) (st : Pig * Page) : Pig * Page :=
  let pig := fst st in
  let page := snd st in
  let newYOffset := currentYOffset host in
  let previous := orElse (latestYOffset pig) newYOffset in
  let direction := if Qgtb newYOffset previous then down else up in
  let pig := set_scroll pig previous newYOffset direction in
  if negb (inRAF pig)
  then (set_inRAF pig true, requestAnimationFrame ScrollFrame page)
  else (pig, page).

(** The frame callback of the scroll handler:
    [that._doLayout(); that.inRAF = false;].  When [_doLayout] throws the
    flag is not reset.  The pass is recorded as [_doLayout] decides it; its
    calls of [load] and [hide] are not made here (they are in
    [scrollFrameOnPage] below). *)
Definition scrollFrame (host : Host) (st : Pig * Page) : Pig * Page :=
  let pig := fst st in
  let page := snd st in
  match _doLayout host pig with
  | Some pass => (set_inRAF pig false, set_passes page (passes page ++ [Some pass]))
  | None => (pig, set_passes page (passes page ++ [None]))
  end.

(** ** [OptimizedResize] and the resize callback of [enable] *)

(** The callback [enable] hands to [_optimizedResize.add].  The pass is
    recorded only, so the timers are those of [_computeLayout]; with the
    calls made it is [resizeCallbackOnPage] below. *)
Definition resizeCallback (host : Host) (st : Pig * Page) : Pig * Page :=
  let pig := fst st in
  let page := snd st in
  let pig := set_lastWindowWidth pig
               (if scrollerIsWindow host then innerWidth host else offsetWidth host) in
  let laid := _computeLayout host pig in
  let pig := fst laid in
  let page := set_timeouts page (timeouts page ++ snd laid) in
  (pig, set_passes page (passes page ++ [_doLayout host pig])).

(** [OptimizedResize.add]. *)
Definition OptimizedResize_add (callback : nat) (st : Pig * Page) : Pig * Page :=
  let pig := fst st in
  let r := _optimizedResize pig in
  let page :=
    match _callbacks r with
    | [] =>
        let bound := newFunction (snd st) in   (* this._resize.bind(this) *)
        set_resizeListeners (snd bound)
          (addEventListener (fst bound) (resizeListeners (snd bound)))
    | _ :: _ => snd st
    end in
  (set_optimizedResize pig {| _callbacks := _callbacks r ++ [callback];
                              _running := _running r |},
   page).

(** [OptimizedResize.disable]. *)
Definition OptimizedResize_disable (st : Pig * Page) : Pig * Page :=
  let bound := newFunction (snd st) in         (* this._resize.bind(this) *)
  (fst st,
   set_resizeListeners (snd bound)
     (removeEventListener (fst bound) (resizeListeners (snd bound)))).

(** [OptimizedResize.reEnable]. *)
Definition OptimizedResize_reEnable (st : Pig * Page) : Pig * Page :=
  let bound := newFunction (snd st) in         (* this._resize.bind(this) *)
  (fst st,
   set_resizeListeners (snd bound)
     (addEventListener (fst bound) (resizeListeners (snd bound)))).

(** [OptimizedResize._resize], with [window.requestAnimationFrame] present. *)
Definition OptimizedResize_resize (st : Pig * Page) : Pig * Page :=
  let pig := fst st in
  let r := _optimizedResize pig in
  if negb (_running r)
  then (set_optimizedResize pig {| _callbacks := _callbacks r; _running := true |},
        requestAnimationFrame ResizeFrame (snd st))
  else st.

(** [OptimizedResize._runCallbacks]: every registered callback is the resize
    callback of an [enable]. *)
Definition OptimizedResize_runCallbacks (host : Host) (st : Pig * Page) : Pig * Page :=
  let st := forEach (fun st _ _ => resizeCallback host st)
                    (_callbacks (_optimizedResize (fst st))) st in
  (set_optimizedResize (fst st)
     {| _callbacks := _callbacks (_optimizedResize (fst st)); _running := false |},
   snd st).

(** One animation frame: the callbacks requested so far run in order. *)
Definition runFrameCallback (host : Host) (st : Pig * Page) (cb : FrameCallback)
    : Pig * Page :=
  match cb with
  | ScrollFrame => scrollFrame host st
  | ResizeFrame => OptimizedResize_runCallbacks host st
  end.

Definition animationFrame (host : Host) (st : Pig * Page) : Pig * Page :=
  fold_left (runFrameCallback host) (frameRequests (snd st))
            (fst st, set_frameRequests (snd st) []).

(** A 'resize' event of [window]: every registered listener is a bound
    [_resize] of this grid's [OptimizedResize]. *)
Definition resizeEvent (st : Pig * Page) : Pig * Page :=
  forEach (fun st _ _ => OptimizedResize_resize st) (resizeListeners (snd st)) st.

(** ** [Pig.enable] and [Pig.disable] *)

(** [Pig.enable].  An exception from [_doLayout] leaves the method before the
    resize callback is registered.  The pass is recorded only; with its calls
    made the method is [enableOnPage] below. *)
Definition enable (host : Host) (st : Pig * Page) : Pig * Page :=
  let created := newFunction (snd st) in       (* this._getOnScroll() *)
  let pig := set_onScroll (fst st) (fst created) in
  let page := set_scrollListeners (snd created)
                (addEventListener (fst created) (scrollListeners (snd created))) in
  let st := scrollHandler host (pig, page) in
  let laid := _computeLayout host (fst st) in
  let pig := fst laid in
  let page := set_timeouts (snd st) (timeouts (snd st) ++ snd laid) in
  let pass := _doLayout host pig in
  let page := set_passes page (passes page ++ [pass]) in
  match pass with
  | None => (pig, page)
  | Some _ =>
      let callback := newFunction page in      (* () => { ... } *)
      OptimizedResize_add (fst callback) (pig, snd callback)
  end.

(** [Pig.disable]. *)
Definition disable (st : Pig * Page) : Pig * Page :=
  let page :=
    match onScroll (fst st) with
    | Some f => set_scrollListeners (snd st) (removeEventListener f (scrollListeners (snd st)))
    | None => snd st
    end in
  OptimizedResize_disable (fst st, page).

(** ** [ProgressiveImage]: the figure on the page *)

(** The outcome of a method that may throw. *)
Inductive result (A : Type) : Type :=
  | Ok (a : A)
  | Throw (error : string).

Arguments Ok {A} a.
Arguments Throw {A} error.

Definition bind {A B : Type} (r : result A) (f : A -> result B) : result B :=
  match r with
  | Ok a => f a
  | Throw e => Throw e
  end.

Notation "x <- c ;; k" := (bind c (fun x => k))
  (at level 100, c at next level, right associativity).

(** [this.classNames]. *)
Definition classNames_figure (pig : Pig) : string := classPrefix (settings pig) ++ "-figure".
Definition classNames_thumbnail (pig : Pig) : string := classPrefix (settings pig) ++ "-thumbnail".
Definition classNames_loaded (pig : Pig) : string := classPrefix (settings pig) ++ "-loaded".

(** [parent.appendChild(node)]: a node that is already a child moves to the
    end. *)
Definition appendChild (node : nat) (nodes : list nat) : list nat :=
  filter (fun n => negb (Nat.eqb node n)) nodes ++ [node].

(** [parent.removeChild(node)]: throws ([None]) when [node] is not a child. *)
Fixpoint removeChild (node : nat) (nodes : list nat) : option (list nat) :=
  match nodes with
  | [] => None
  | n :: rest =>
      if Nat.eqb node n then Some rest
      else match removeChild node rest with
           | Some rest' => Some (n :: rest')
           | None => None
           end
  end.

Definition set_children (fig : Figure) (nodes : list nat) : Figure :=
  {| figureClassName := figureClassName fig;
     hasClickListener := hasClickListener fig;
     figureStyle := figureStyle fig;
     children := nodes |}.

(** The four assignments of [_updateStyles], the element being there; reading
    [this.style.transition] throws while the image has no style. *)
Definition writeStyles (img : ProgressiveImage) : result ProgressiveImage :=
  match style img, element img with
  | Some st, Some fig =>
      Ok (set_element img {| figureClassName := figureClassName fig;
                             hasClickListener := hasClickListener fig;
                             figureStyle := Some st;
                             children := children fig |})
  | None, _ => Throw "TypeError: this.style is undefined"
  | Some _, None => Throw "TypeError: this.element is undefined"
  end.

(** [ProgressiveImage.getElement]: the image with its element in place. *)
Definition getElement (pig : Pig) (img : ProgressiveImage) : result ProgressiveImage :=
  match element img with
  | Some _ => Ok img
  | None =>
      let fig := {| figureClassName := classNames_figure pig;
                    hasClickListener :=
                      match onClickHandler (settings pig) with
                      | Some _ => true
                      | None => false
                      end;
                    figureStyle := None;
                    children := [] |} in
      writeStyles (set_element img fig)
  end.

(** [ProgressiveImage._updateStyles]. *)
Definition _updateStyles (pig : Pig) (img : ProgressiveImage) : result ProgressiveImage :=
  img <- getElement pig img ;;
  writeStyles img.

(** [ProgressiveImage.load]. *)
Definition load (pig : Pig) (img : ProgressiveImage) (page : Page)
    : result (ProgressiveImage * Page) :=
  let img := set_existsOnPage img true in
  img <- _updateStyles pig img ;;
  img <- getElement pig img ;;
  let page := set_containerChildren page
                (appendChild (index img) (containerChildren page)) in
  Ok (img, setTimeout (AddSubElements (index img) 100) page).

(** [list[i] = f(list[i])]. *)
Fixpoint updateAt {A : Type} (i : nat) (f : A -> A) (l : list A) : list A :=
  match l, i with
  | [], _ => []
  | x :: t, O => f x :: t
  | x :: t, S j => x :: updateAt j f t
  end.

(** [ProgressiveImage.removeSubElement]. *)
Definition removeSubElement (pig : Pig) (subElementName : SubElementName)
    (img : ProgressiveImage) (page : Page) : result (ProgressiveImage * Page) :=
  match getSubElement subElementName img with
  | Some subElement =>
      let page := set_imageElements page
                    (updateAt subElement
                       (fun e => {| src := SrcEmpty; className := className e |})
                       (imageElements page)) in
      img <- getElement pig img ;;
      match element img with
      | Some fig =>
          match removeChild subElement (children fig) with
          | Some nodes =>
              Ok (setSubElement subElementName None
                    (set_element img (set_children fig nodes)), page)
          | None => Throw "NotFoundError"
          end
      | None => Throw "TypeError: this.element is undefined"
      end
  | None => Ok (img, page)
  end.

(** [ProgressiveImage.removeAllSubElements]. *)
Definition removeAllSubElements (pig : Pig) (img : ProgressiveImage) (page : Page)
    : result (ProgressiveImage * Page) :=
  st <- removeSubElement pig Thumbnail img page ;;
  removeSubElement pig FullImage (fst st) (snd st).

(** [ProgressiveImage.hide]. *)
Definition hide (pig : Pig) (img : ProgressiveImage) (page : Page)
    : result (ProgressiveImage * Page) :=
  img <- getElement pig img ;;        (* if (this.getElement()): an object *)
  st <- removeAllSubElements pig img page ;;
  st <- (if existsOnPage (fst st)
         then img <- getElement pig (fst st) ;;
              match removeChild (index img) (containerChildren (snd st)) with
              | Some nodes => Ok (img, set_containerChildren (snd st) nodes)
              | None => Throw "NotFoundError"
              end
         else Ok st) ;;
  Ok (set_existsOnPage (fst st) false, snd st).

(** [ProgressiveImage.addImageAsSubElement]; the new element's [onload]
    handler is [imageLoaded] below. *)
Definition addImageAsSubElement (pig : Pig) (subElementName : SubElementName)
    (file : string) (size : Q) (classname : string)
    (img : ProgressiveImage) (page : Page) : result (ProgressiveImage * Page) :=
  match getSubElement subElementName img with
  | Some _ => Ok (img, page)
  | None =>
      let subElement := length (imageElements page) in     (* new Image() *)
      let created := {| src := SrcFor file size;
                        className := if (0 <? String.length classname)%nat
                                     then classname else ""%string |} in
      let page := set_imageElements page (imageElements page ++ [created]) in
      let img := setSubElement subElementName (Some subElement) img in
      img <- getElement pig img ;;
      match element img with
      | Some fig =>
          Ok (set_element img (set_children fig (appendChild subElement (children fig))),
              page)
      | None => Throw "TypeError: this.element is undefined"
      end
  end.

(** [ProgressiveImage.addAllSubElements]. *)
Definition addAllSubElements (pig : Pig) (img : ProgressiveImage) (page : Page)
    : result (ProgressiveImage * Page) :=
  st <- addImageAsSubElement pig Thumbnail (filename img)
          (thumbnailSize (settings pig)) (classNames_thumbnail pig) img page ;;
  addImageAsSubElement pig FullImage (filename (fst st))
    (getImageSize (settings pig) (lastWindowWidth pig)) ""%string (fst st) (snd st).

(** The callback [load] defers by 100 ms. *)
Definition addSubElementsLater (pig : Pig) (img : ProgressiveImage) (page : Page)
    : result (ProgressiveImage * Page) :=
  if negb (existsOnPage img) then Ok (img, page)
  else addAllSubElements pig img page.

(** The [onload] handler of the element [subElement]: the closure holds the
    element itself, which is an object, so the test [if (subElement)] passes
    and the class name is extended. *)
Definition imageLoaded (pig : Pig) (subElement : nat) (page : Page) : result Page :=
  Ok (set_imageElements page
        (updateAt subElement
           (fun e => {| src := src e;
                        className := className e ++ " " ++ classNames_loaded pig |})
           (imageElements page))).

(** ** Scenarios and measures used in the statements *)

(** [rows] is the packing of [l] into rows for the minimum ratio [m]: the
    rows are consecutive runs of [l], none is empty, no row reaches [m] before
    its last item, and every row but the last one reaches [m]. *)
Record RowPacking (m : Q) (l : list ProgressiveImage)
    (rows : list (list ProgressiveImage)) : Prop := {
  packing_concat : concat rows = l;
  packing_nonempty : Forall (fun r => r <> []) rows;
  packing_first : Forall (fun r => forall p q,
                      r = p ++ q -> p <> [] -> q <> [] -> rowSum p < double m) rows;
  packing_closed : forall init final,
                      rows = init ++ [final] ->
                      Forall (fun r => double m <= rowSum r) init
}.

(** A window 1600 x 800 at the top of the page; the container is 1000 wide
    and starts at the top. *)
Definition scenarioHost : Host :=
  {| clientWidth := 1000;
     containerOffsetTop := Some 0;
     offsetParents := [];
     scrollerIsWindow := true;
     innerWidth := 1600;
     innerHeight := 800;
     pageYOffset := 0;
     offsetWidth := 0;
     offsetHeight := 0;
     scrollTop := 0 |}.


(** The six images of the README: aspect ratios
    [1.777, 1.5, 1.777, 1.777, 1, 2.4], container width 1000, spacing 8,
    minimum aspect ratio 5 (window width 1600). *)
Definition scenarioPig : Pig :=
  newPig scenarioHost
         [(1.777, "blue.jpg"); (1.5, "red.jpg"); (1.777, "green.jpg");
          (1.777, "orange.jpg"); (1, "yellow.jpg"); (2.4, "purple.jpg")]%string
         defaultSettings.

(** The geometry of every image, the cursors in lowest terms. *)
Definition geometry (imgs : list ProgressiveImage) : list (option (Z * Z * Q * Q)) :=
  map (fun img =>
         option_map (fun st => (width st, height st,
                                Qred (translateX st), Qred (translateY st)))
                    (style img))
      imgs.



(** The stored width of an image. *)
Definition styleWidth (img : ProgressiveImage) : Z :=
  match style img with Some st => width st | None => 0%Z end.

(** Sums of integers and of numbers. *)
Definition sumZ (l : list Z) : Z := fold_right Z.add 0%Z l.




(** What a row occupies of the container: the stored widths of its items and
    the spacing between them. *)
Definition rowOccupiedWidth (s : Q) (row : list ProgressiveImage) : Q :=
  inject_Z (sumZ (map styleWidth row)) + s * inject_Z (Z.of_nat (length row) - 1).



(** A window and a container 320 wide, and one image of ratio 2.23 in it
    (minimum ratio 2). *)
Definition narrowHost : Host :=
  {| clientWidth := 320;
     containerOffsetTop := Some 0;
     offsetParents := [];
     scrollerIsWindow := true;
     innerWidth := 320;
     innerHeight := 480;
     pageYOffset := 0;
     offsetWidth := 0;
     offsetHeight := 0;
     scrollTop := 0 |}.

Definition narrowPig : Pig :=
  newPig narrowHost [(2.23, "a"%string)] defaultSettings.

(** One image whose bottom edge lies exactly on the top of the top buffer:
    scrolled down to 400 with the secondary buffer of 300 above the
    viewport, the image spans 0..100. *)
Definition boundaryPig : Pig :=
  {| _optimizedResize := {| _callbacks := []; _running := false |};
     inRAF := false;
     isTransitioning := false;
     minAspectRatioRequiresTransition := false;
     minAspectRatio := Some 5;
     latestYOffset := 400;
     previousYOffset := Some 300;
     lastWindowWidth := 1600;
     scrollDirection := down;
     settings := defaultSettings;
     images := [ set_style (newProgressiveImage (1, "a"%string) 0)
                   {| width := 100; height := 100;
                      translateX := 0; translateY := 0;
                      transition := TransitionNone |} ];
     totalHeight := Some 100;
     onScroll := None |}.

(** A grid without images. *)
Definition emptyPig : Pig := newPig scenarioHost [] defaultSettings.

(** The window scrolled to [y]. *)
Definition scrolledHost (y : Q) : Host :=
  {| clientWidth := 1000;
     containerOffsetTop := Some 0;
     offsetParents := [];
     scrollerIsWindow := true;
     innerWidth := 1600;
     innerHeight := 800;
     pageYOffset := y;
     offsetWidth := 0;
     offsetHeight := 0;
     scrollTop := 0 |}.

(** Scroll notifications delivered one after the other, no frame in
    between; each finds the page as [host] describes it. *)
Definition scrollBurst (hosts : list Host) (st : Pig * Page) : Pig * Page :=
  fold_left (fun st host => scrollHandler host st) hosts st.

(** The child nodes of the image's figure (none while there is no figure). *)
Definition figureChildren (img : ProgressiveImage) : list nat :=
  match element img with
  | Some fig => children fig
  | None => []
  end.

(** The states of one image and the page that [load], [hide], the deferred
    callback and the [onload] handlers produce from a laid-out image that was
    never loaded: the image has a style, it is a child of the container
    exactly when [existsOnPage] holds, and the children of its figure are
    exactly its [thumbnail] and [fullImage], two distinct elements made
    earlier. *)
Record Consistent (img : ProgressiveImage) (page : Page) : Prop := {
  has_style : style img <> None;
  container_nodup : NoDup (containerChildren page);
  on_page : existsOnPage img = true <-> In (index img) (containerChildren page);
  subs_distinct : forall r, thumbnail img = Some r -> fullImage img <> Some r;
  subs_children : forall r, In r (figureChildren img)
                            <-> (thumbnail img = Some r \/ fullImage img = Some r);
  children_nodup : NoDup (figureChildren img);
  children_made : Forall (fun r => (r < length (imageElements page))%nat)
                         (figureChildren img)
}.

(** A laid-out image that was never loaded, on an empty page. *)
Definition freshImage : ProgressiveImage :=
  set_style (newProgressiveImage (1.5, "a"%string) 0)
            {| width := 300; height := 200; translateX := 0; translateY := 0;
               transition := TransitionNone |}.

(** The result of a method that is known not to throw. *)
Definition returned {A : Type} (r : result A) (default : A) : A :=
  match r with
  | Ok a => a
  | Throw _ => default
  end.

(** [freshImage] loaded, the deferred callback run: both sub-elements are
    attached. *)
Definition attachedState : ProgressiveImage * Page :=
  let st := returned (load scenarioPig freshImage emptyPage) (freshImage, emptyPage) in
  returned (addSubElementsLater scenarioPig (fst st) (snd st)) st.

(** ** Measures used in the further properties *)

(** An image without its style. *)
Definition dropStyle (img : ProgressiveImage) : ProgressiveImage :=
  {| existsOnPage := existsOnPage img;
     aspectRatio := aspectRatio img;
     filename := filename img;
     index := index img;
     style := None;
     element := element img;
     thumbnail := thumbnail img;
     fullImage := fullImage img |}.

(** Every image of the row has a style with vertical offset [y] and stored
    height [h]. *)
Definition rowUniform (y : Q) (h : Z) (row : list ProgressiveImage) : Prop :=
  Forall (fun img => exists st, style img = Some st
                                /\ translateY st = y /\ height st = h) row.

(** The rows follow the vertical cursor from [y] on: each row is of one
    height, and the next one starts where the cursor is after the stored row
    height and [s] have been added to it; [total] is the last cursor minus
    [s]. *)
Fixpoint stacked (s : Q) (y : Q) (rows : list (list ProgressiveImage)) (total : Q)
    : Prop :=
  match rows with
  | [] => total = fsub y s
  | r :: rs => exists h, rowUniform y h r
                         /\ stacked s (fadd y (fadd (inject_Z h) s)) rs total
  end.




(** The transition every image carries. *)
Definition styleTransition (img : ProgressiveImage) : option Transition :=
  option_map transition (style img).

(** What reaches the scroll handler and its frame callback: a scroll
    notification, or an animation frame, each finding the page as [host]
    describes it. *)
Inductive ScrollEvent : Type :=
  | Notify (host : Host)
  | Paint (host : Host).

Definition runScrollEvent (st : Pig * Page) (e : ScrollEvent) : Pig * Page :=
  match e with
  | Notify host => scrollHandler host st
  | Paint host => animationFrame host st
  end.

Definition runScrollEvents (events : list ScrollEvent) (st : Pig * Page) : Pig * Page :=
  fold_left runScrollEvent events st.

(** The number of animation frames among the events. *)
Definition paints (events : list ScrollEvent) : nat :=
  length (filter (fun e => match e with Paint _ => true | Notify _ => false end) events).

(** What [removeSubElement] does to an [Image] element: [subElement.src = '']. *)
Definition clearSrc (e : ImageElement) : ImageElement :=
  {| src := SrcEmpty; className := className e |}.

(** Whether the [Image] element [r] is the thumbnail or the full image of
    [img]. *)
Definition isSubElementOf (img : ProgressiveImage) (r : nat) : bool :=
  match thumbnail img with Some t => Nat.eqb r t | None => false end
  || match fullImage img with Some f => Nat.eqb r f | None => false end.

(** ** A pass of [_doLayout] on the page *)

(** Whether [_doLayout] loads the image: it has a style and the test of the
    [forEach] body does not send it to [hide]. *)
Definition inWindow (lower upper : Q) (img : ProgressiveImage) : bool :=
  match style img with
  | Some st =>
      match visibilityCall lower upper st with
      | CallLoad => true
      | CallHide => false
      end
  | None => false
  end.

(** The [forEach] of [_doLayout] with its calls made: every image is hidden
    or loaded in turn, on the page that the calls before it have left. *)
Fixpoint showImages (pig : Pig) (lower upper : Q) (imgs : list ProgressiveImage)
    (page : Page) : result (list ProgressiveImage * Page) :=
  match imgs with
  | [] => Ok ([], page)
  | image :: rest =>
      match style image with
      | None => Throw "TypeError: image.style is undefined"
      | Some st =>
          shown <- match visibilityCall lower upper st with
                   | CallHide => hide pig image page
                   | CallLoad => load pig image page
                   end ;;
          others <- showImages pig lower upper rest (snd shown) ;;
          Ok (fst shown :: fst others, snd others)
      end
  end.

(** [Pig._doLayout] on the page: the images and the page after the pass. *)
Definition doLayoutOnPage (host : Host) (pig : Pig) (page : Page) : result (Pig * Page) :=
  shown <- showImages pig (minTranslateYPlusHeight host pig) (maxTranslateY host pig)
                      (images pig) page ;;
  Ok (set_images pig (fst shown), snd shown).

(** The images of a grid and the page agree: every image is consistent with
    the page, no two images share an index, and the container holds no node
    twice. *)
Record GridConsistent (imgs : list ProgressiveImage) (page : Page) : Prop := {
  grid_images : Forall (fun img => Consistent img page) imgs;
  grid_indices : NoDup (map index imgs);
  grid_container : NoDup (containerChildren page)
}.

(** The number of images the pass loads. *)
Definition loadedCount (lower upper : Q) (imgs : list ProgressiveImage) : nat :=
  length (filter (inWindow lower upper) imgs).

(** The page of [scenarioHost] with the container nested in one more
    positioned ancestor, [offsetTop] pixels below that ancestor's parent. *)
Definition nestedHost (offsetTop : Q) : Host :=
  {| clientWidth := 1000;
     containerOffsetTop := Some 0;
     offsetParents := [Some offsetTop];
     scrollerIsWindow := true;
     innerWidth := 1600;
     innerHeight := 800;
     pageYOffset := 0;
     offsetWidth := 0;
     offsetHeight := 0;
     scrollTop := 0 |}.

(** ** The event loop with the passes made on the page *)

(** [scrollFrame], [resizeCallback] and [enable] above record what each
    [_doLayout] decides.  The functions below follow the same callbacks with
    the calls of the pass made: [_doLayout] is [doLayoutOnPage], whose
    [load] and [hide] change the images and the page and may throw.  [Throw]
    is the exception that leaves the callback; what the page is like after
    it is not described.  The pass is recorded in [passes] as well. *)

(** The frame callback of the scroll handler:
    [that._doLayout(); that.inRAF = false;]. *)
Definition scrollFrameOnPage (host : Host) (st : Pig * Page) : result (Pig * Page) :=
  shown <- doLayoutOnPage host (fst st) (snd st) ;;
  Ok (set_inRAF (fst shown) false,
      set_passes (snd shown) (passes (snd shown) ++ [_doLayout host (fst st)])).

(** The callback [enable] hands to [_optimizedResize.add]:
    [that.lastWindowWidth = ...; that._computeLayout(); that._doLayout();]. *)
Definition resizeCallbackOnPage (host : Host) (st : Pig * Page) : result (Pig * Page) :=
  let pig := set_lastWindowWidth (fst st)
               (if scrollerIsWindow host then innerWidth host else offsetWidth host) in
  let laid := _computeLayout host pig in
  let page := set_timeouts (snd st) (timeouts (snd st) ++ snd laid) in
  shown <- doLayoutOnPage host (fst laid) page ;;
  Ok (fst shown,
      set_passes (snd shown) (passes (snd shown) ++ [_doLayout host (fst laid)])).

(** The [forEach] of [OptimizedResize._runCallbacks]: every registered
    callback is the resize callback of an [enable]. *)
Fixpoint callResizeCallbacks (host : Host) (callbacks : list nat) (st : Pig * Page)
    : result (Pig * Page) :=
  match callbacks with
  | [] => Ok st
  | _ :: rest =>
      st <- resizeCallbackOnPage host st ;;
      callResizeCallbacks host rest st
  end.

(** [OptimizedResize._runCallbacks]; [_running] is reset after the loop. *)
Definition runCallbacksOnPage (host : Host) (st : Pig * Page) : result (Pig * Page) :=
  st <- callResizeCallbacks host (_callbacks (_optimizedResize (fst st))) st ;;
  Ok (set_optimizedResize (fst st)
        {| _callbacks := _callbacks (_optimizedResize (fst st)); _running := false |},
      snd st).

Definition runFrameCallbackOnPage (host : Host) (st : Pig * Page) (cb : FrameCallback)
    : result (Pig * Page) :=
  match cb with
  | ScrollFrame => scrollFrameOnPage host st
  | ResizeFrame => runCallbacksOnPage host st
  end.

Fixpoint runFrameCallbacksOnPage (host : Host) (callbacks : list FrameCallback)
    (st : Pig * Page) : result (Pig * Page) :=
  match callbacks with
  | [] => Ok st
  | cb :: rest =>
      st <- runFrameCallbackOnPage host st cb ;;
      runFrameCallbacksOnPage host rest st
  end.

(** One animation frame: the callbacks requested so far run in order. *)
Definition animationFrameOnPage (host : Host) (st : Pig * Page) : result (Pig * Page) :=
  runFrameCallbacksOnPage host (frameRequests (snd st))
                          (fst st, set_frameRequests (snd st) []).

Definition runScrollEventOnPage (st : Pig * Page) (e : ScrollEvent)
    : result (Pig * Page) :=
  match e with
  | Notify host => Ok (scrollHandler host st)
  | Paint host => animationFrameOnPage host st
  end.

Fixpoint runScrollEventsOnPage (events : list ScrollEvent) (st : Pig * Page)
    : result (Pig * Page) :=
  match events with
  | [] => Ok st
  | e :: rest =>
      st <- runScrollEventOnPage st e ;;
      runScrollEventsOnPage rest st
  end.

(** [Pig.enable], the container being an element of the document. *)
Definition enableOnPage (host : Host) (st : Pig * Page) : result (Pig * Page) :=
  let created := newFunction (snd st) in       (* this._getOnScroll() *)
  let pig := set_onScroll (fst st) (fst created) in
  let page := set_scrollListeners (snd created)
                (addEventListener (fst created) (scrollListeners (snd created))) in
  let st := scrollHandler host (pig, page) in
  let laid := _computeLayout host (fst st) in
  let page := set_timeouts (snd st) (timeouts (snd st) ++ snd laid) in
  shown <- doLayoutOnPage host (fst laid) page ;;
  let page := set_passes (snd shown)
                (passes (snd shown) ++ [_doLayout host (fst laid)]) in
  let callback := newFunction page in          (* () => { ... } *)
  Ok (OptimizedResize_add (fst callback) (fst shown, snd callback)).

(** The timers a pass sets: one per loaded image, in the order of the
    collection. *)
Definition loadTimers (lower upper : Q) (imgs : list ProgressiveImage) : list Timeout :=
  map (fun img => AddSubElements (index img) 100) (filter (inWindow lower upper) imgs).
(** * Properties *)

(** ** Numbers *)

(** *** Powers of two *)

Lemma pow2_pos (e : Z) : 0 < 2 ^ e.
Proof. apply Qpower_0_lt. reflexivity. Qed.

Lemma pow2_add (a b : Z) : 2 ^ (a + b) == 2 ^ a * 2 ^ b.
Proof. apply Qpower_plus. discriminate. Qed.


Lemma pow2_le (a b : Z) : (a <= b)%Z -> 2 ^ a <= 2 ^ b.
Proof. intros H. apply Qpower_le_compat_l; [exact H | discriminate]. Qed.

Lemma pow2_lt (a b : Z) : (a < b)%Z -> 2 ^ a < 2 ^ b.
Proof. intros H. apply Qpower_lt_compat_l; [exact H | reflexivity]. Qed.

Lemma pow2_lt_inv (a b : Z) : 2 ^ a < 2 ^ b -> (a < b)%Z.
Proof.
  intros H. destruct (Z_lt_le_dec a b) as [L|L]; [exact L|].
  apply pow2_le in L. lra.
Qed.

Lemma pow2_Z (e : Z) : (0 <= e)%Z -> 2 ^ e == inject_Z (2 ^ e).
Proof. intros H. rewrite Zpower_Qpower by exact H. reflexivity. Qed.

Lemma pow2_succ (e : Z) : 2 ^ (e + 1) == 2 * 2 ^ e.
Proof. rewrite pow2_add. change (2 ^ 1) with 2. ring. Qed.

(** *** [floorLog2] *)

Lemma Q_as_fraction (x : Q) : x == inject_Z (Qnum x) / inject_Z (Z.pos (Qden x)).
Proof. destruct x as [p q]. unfold Qeq, Qdiv, Qmult, Qinv, inject_Z; simpl. lia. Qed.

Lemma floorLog2_spec (x : Q) :
  0 < x -> 2 ^ floorLog2 x <= x /\ x < 2 ^ (floorLog2 x + 1).
Proof.
  intros Hx. unfold floorLog2.
  set (p := Qnum x). set (q := Z.pos (Qden x)).
  assert (0 < p)%Z as Hp by (destruct x as [n d]; unfold Qlt in Hx; simpl in *; lia).
  assert (0 < q)%Z as Hq by reflexivity.
  destruct (Z.log2_spec p Hp) as [P1 P2]. destruct (Z.log2_spec q Hq) as [Q1 Q2].
  pose proof (Z.log2_nonneg p) as Lp. pose proof (Z.log2_nonneg q) as Lq.
  set (la := Z.log2 p) in *. set (lb := Z.log2 q) in *.
  assert (x == inject_Z p / inject_Z q) as Ex by apply Q_as_fraction.
  assert (2 ^ la <= inject_Z p) as A1 by (rewrite pow2_Z by lia; now rewrite <- Zle_Qle).
  assert (inject_Z p < 2 ^ (la + 1)) as A2
    by (rewrite pow2_Z by lia; now rewrite <- Zlt_Qlt).
  assert (2 ^ lb <= inject_Z q) as B1 by (rewrite pow2_Z by lia; now rewrite <- Zle_Qle).
  assert (inject_Z q < 2 ^ (lb + 1)) as B2
    by (rewrite pow2_Z by lia; now rewrite <- Zlt_Qlt).
  assert (0 < inject_Z q) as Pq by (change 0 with (inject_Z 0); now rewrite <- Zlt_Qlt).
  assert (x * inject_Z q == inject_Z p) as Ex' by (rewrite Ex; field; lra).
  pose proof (pow2_pos la) as Pla. pose proof (pow2_pos lb) as Plb.
  pose proof (pow2_pos (la - lb)) as Pk.
  assert (2 ^ (la - lb) * 2 ^ lb == 2 ^ la) as K by (rewrite <- pow2_add; now replace (la - lb + lb)%Z with la by lia).
  destruct (Qle_bool (2 ^ (la - lb)) x) eqn:C.
  - apply Qle_bool_iff in C. split; [exact C|].
    rewrite pow2_succ. rewrite pow2_succ in A2. nra.
  - assert (x < 2 ^ (la - lb)) as C'.
    { apply Qnot_le_lt. intros L. apply Qle_bool_iff in L. congruence. }
    replace (la - lb - 1 + 1)%Z with (la - lb)%Z by lia. split; [|exact C'].
    assert (2 ^ (la - lb) == 2 * 2 ^ (la - lb - 1)) as K2
      by (rewrite <- pow2_succ; now replace (la - lb - 1 + 1)%Z with (la - lb)%Z by lia).
    rewrite pow2_succ in B2. pose proof (pow2_pos (la - lb - 1)). nra.
Qed.

Lemma floorLog2_unique (x : Q) (k : Z) :
  2 ^ k <= x -> x < 2 ^ (k + 1) -> floorLog2 x = k.
Proof.
  intros L U.
  assert (0 < x) as Hx by (pose proof (pow2_pos k); lra).
  destruct (floorLog2_spec x Hx) as [L' U'].
  assert (2 ^ k < 2 ^ (floorLog2 x + 1)) as A by lra.
  assert (2 ^ floorLog2 x < 2 ^ (k + 1)) as B by lra.
  apply pow2_lt_inv in A. apply pow2_lt_inv in B. lia.
Qed.

Lemma floorLog2_comp (x y : Q) : 0 < x -> x == y -> floorLog2 x = floorLog2 y.
Proof.
  intros Hx E. destruct (floorLog2_spec x Hx) as [L U].
  symmetry. apply floorLog2_unique; rewrite <- E; assumption.
Qed.

Lemma floorLog2_mono (x y : Q) : 0 < x -> x <= y -> (floorLog2 x <= floorLog2 y)%Z.
Proof.
  intros Hx L. destruct (floorLog2_spec x Hx) as [Lx Ux].
  destruct (floorLog2_spec y ltac:(lra)) as [Ly Uy].
  assert (2 ^ floorLog2 x < 2 ^ (floorLog2 y + 1)) as A by lra.
  apply pow2_lt_inv in A. lia.
Qed.

(** *** [roundHalfEven] *)

Lemma roundHalfEven_comp (p q : Q) : p == q -> roundHalfEven p = roundHalfEven q.
Proof.
  intros E. unfold roundHalfEven. rewrite (Qfloor_comp _ _ E).
  assert (p - inject_Z (Qfloor q) == q - inject_Z (Qfloor q)) as E' by (rewrite E; reflexivity).
  now rewrite (Qcompare_comp _ _ E' (1 # 2) (1 # 2) (Qeq_refl _)).
Qed.

Lemma Qfloor_bounds (q : Q) : inject_Z (Qfloor q) <= q /\ q < inject_Z (Qfloor q) + 1.
Proof.
  split; [apply Qfloor_le|]. pose proof (Qlt_floor q) as H.
  rewrite inject_Z_plus in H. exact H.
Qed.

Lemma roundHalfEven_cases (q : Q) :
  let f := Qfloor q in
  (roundHalfEven q = f /\ q - inject_Z f <= 1 # 2)
  \/ (roundHalfEven q = (f + 1)%Z /\ 1 # 2 <= q - inject_Z f).
Proof.
  cbv zeta. unfold roundHalfEven.
  destruct (Qcompare_spec (q - inject_Z (Qfloor q)) (1 # 2)) as [E|L|G].
  - destruct (Z.even (Qfloor q)); [left | right]; split; try reflexivity; lra.
  - left. split; [reflexivity | lra].
  - right. split; [reflexivity | lra].
Qed.


Lemma roundHalfEven_Z (z : Z) : roundHalfEven (inject_Z z) = z.
Proof.
  unfold roundHalfEven. rewrite Qfloor_Z.
  destruct (Qcompare_spec (inject_Z z - inject_Z z) (1 # 2)) as [E|L|G];
    [lra | reflexivity | lra].
Qed.

Lemma roundHalfEven_mono (p q : Q) : p <= q -> (roundHalfEven p <= roundHalfEven q)%Z.
Proof.
  intros L.
  pose proof (Qfloor_resp_le _ _ L) as F.
  destruct (Qfloor_bounds p) as [Lp Up]. destruct (Qfloor_bounds q) as [Lq Uq].
  destruct (Z.eq_dec (Qfloor p) (Qfloor q)) as [E|N].
  - unfold roundHalfEven. rewrite E.
    destruct (Qcompare_spec (p - inject_Z (Qfloor q)) (1 # 2)) as [E1|L1|G1];
      destruct (Qcompare_spec (q - inject_Z (Qfloor q)) (1 # 2)) as [E2|L2|G2];
      try lia; try lra; destruct (Z.even (Qfloor q)); lia.
  - assert (Qfloor p + 1 <= Qfloor q)%Z as S by lia.
    destruct (roundHalfEven_cases p) as [[-> _]|[-> _]];
      destruct (roundHalfEven_cases q) as [[-> _]|[-> _]]; lia.
Qed.

Lemma roundHalfEven_ge (z : Z) (q : Q) : inject_Z z <= q -> (z <= roundHalfEven q)%Z.
Proof. intros H. rewrite <- (roundHalfEven_Z z). now apply roundHalfEven_mono. Qed.

Lemma roundHalfEven_le (z : Z) (q : Q) : q <= inject_Z z -> (roundHalfEven q <= z)%Z.
Proof. intros H. rewrite <- (roundHalfEven_Z z). now apply roundHalfEven_mono. Qed.

(** *** [double]: the nearest double *)

Lemma ulpExponent_comp (x y : Q) : 0 < x -> x == y -> ulpExponent x = ulpExponent y.
Proof. intros H E. unfold ulpExponent. now rewrite (floorLog2_comp x y H E). Qed.

Lemma nearestDouble_comp (x y : Q) : 0 < x -> x == y -> nearestDouble x == nearestDouble y.
Proof.
  intros H E. unfold nearestDouble. rewrite (ulpExponent_comp x y H E).
  rewrite (roundHalfEven_comp (x / 2 ^ ulpExponent y) (y / 2 ^ ulpExponent y)); [reflexivity|].
  now rewrite E.
Qed.

Lemma double_comp (x y : Q) : x == y -> double x = double y.
Proof.
  intros E. unfold double. apply Qred_complete.
  rewrite (Qcompare_comp _ _ E 0 0 (Qeq_refl 0)).
  destruct (Qcompare_spec y 0) as [Z|L|G]; [reflexivity| |].
  - apply Qopp_comp. apply nearestDouble_comp; [lra | now rewrite E].
  - apply nearestDouble_comp; [lra | exact E].
Qed.

Lemma double_canonical (x : Q) : Qred (double x) = double x.
Proof. unfold double. apply Qred_complete, Qred_correct. Qed.

Lemma double_0 : double 0 = 0.
Proof. reflexivity. Qed.

Lemma double_pos (x : Q) : 0 < x -> double x == nearestDouble x.
Proof.
  intros H. unfold double. rewrite Qred_correct.
  destruct (Qcompare_spec x 0); [lra | lra | reflexivity].
Qed.

Lemma double_neg (x : Q) : x < 0 -> double x == - nearestDouble (- x).
Proof.
  intros H. unfold double. rewrite Qred_correct.
  destruct (Qcompare_spec x 0); [lra | reflexivity | lra].
Qed.

Lemma double_opp (x : Q) : double (- x) == - double x.
Proof.
  destruct (Qcompare_spec x 0) as [Z|L|G].
  - rewrite (double_comp (- x) 0) by lra. rewrite (double_comp x 0) by exact Z.
    reflexivity.
  - rewrite (double_pos (- x)) by lra. rewrite (double_neg x) by exact L. ring.
  - rewrite (double_neg (- x)) by lra. rewrite (double_pos x) by exact G.
    rewrite (nearestDouble_comp (- - x) x); [reflexivity | lra | ring].
Qed.

Lemma nearestDouble_nonneg (x : Q) : 0 < x -> 0 <= nearestDouble x.
Proof.
  intros H. unfold nearestDouble.
  pose proof (pow2_pos (ulpExponent x)) as P.
  assert (0 <= roundHalfEven (x / 2 ^ ulpExponent x))%Z as N.
  { apply (roundHalfEven_ge 0). change (inject_Z 0) with 0.
    apply Qlt_le_weak. apply Qlt_shift_div_l; lra. }
  rewrite Zle_Qle in N. change (inject_Z 0) with 0 in N. nra.
Qed.

Lemma double_nonneg (x : Q) : 0 <= x -> 0 <= double x.
Proof.
  intros H. destruct (Qcompare_spec x 0) as [Z|L|G]; [|lra|].
  - rewrite (double_comp x 0) by exact Z. rewrite double_0. lra.
  - rewrite double_pos by exact G. now apply nearestDouble_nonneg.
Qed.

Lemma double_nonpos (x : Q) : x <= 0 -> double x <= 0.
Proof.
  intros H. pose proof (double_nonneg (- x) ltac:(lra)) as N.
  rewrite double_opp in N. lra.
Qed.

Lemma nearestDouble_grid_ge (x : Q) (z : Z) :
  0 < x ->
  inject_Z z * 2 ^ ulpExponent x <= x -> inject_Z z * 2 ^ ulpExponent x <= nearestDouble x.
Proof.
  intros Hx H. unfold nearestDouble. pose proof (pow2_pos (ulpExponent x)) as P.
  assert (z <= roundHalfEven (x / 2 ^ ulpExponent x))%Z as N.
  { apply roundHalfEven_ge. apply Qle_shift_div_l; assumption. }
  rewrite Zle_Qle in N. nra.
Qed.

Lemma nearestDouble_grid_le (x : Q) (z : Z) :
  0 < x ->
  x <= inject_Z z * 2 ^ ulpExponent x -> nearestDouble x <= inject_Z z * 2 ^ ulpExponent x.
Proof.
  intros Hx H. unfold nearestDouble. pose proof (pow2_pos (ulpExponent x)) as P.
  assert (roundHalfEven (x / 2 ^ ulpExponent x) <= z)%Z as N.
  { apply roundHalfEven_le. apply Qle_shift_div_r; assumption. }
  rewrite Zle_Qle in N. nra.
Qed.

Lemma pow2_on_grid (e j : Z) : (e <= j)%Z -> 2 ^ j == inject_Z (2 ^ (j - e)) * 2 ^ e.
Proof.
  intros H. rewrite <- pow2_Z by lia. rewrite <- pow2_add.
  now replace (j - e + e)%Z with j by lia.
Qed.

Lemma nearestDouble_pow2_ge (x : Q) (j : Z) :
  0 < x -> (ulpExponent x <= j)%Z -> 2 ^ j <= x -> 2 ^ j <= nearestDouble x.
Proof.
  intros Hx Hj H. rewrite (pow2_on_grid _ _ Hj) in *. now apply nearestDouble_grid_ge.
Qed.

Lemma nearestDouble_pow2_le (x : Q) (j : Z) :
  0 < x -> (ulpExponent x <= j)%Z -> x <= 2 ^ j -> nearestDouble x <= 2 ^ j.
Proof.
  intros Hx Hj H. rewrite (pow2_on_grid _ _ Hj) in *. now apply nearestDouble_grid_le.
Qed.

Lemma ulpExponent_le_log (x : Q) : (ulpExponent x <= Z.max (floorLog2 x) (-1074))%Z.
Proof. unfold ulpExponent. lia. Qed.

Lemma nearestDouble_mono (x y : Q) : 0 < x -> x <= y -> nearestDouble x <= nearestDouble y.
Proof.
  intros Hx L. assert (0 < y) as Hy by lra.
  pose proof (floorLog2_mono x y Hx L) as K.
  destruct (floorLog2_spec x Hx) as [Lx Ux]. destruct (floorLog2_spec y Hy) as [Ly Uy].
  destruct (Z.eq_dec (ulpExponent x) (ulpExponent y)) as [E|N].
  - unfold nearestDouble. rewrite E. pose proof (pow2_pos (ulpExponent y)) as P.
    assert (roundHalfEven (x / 2 ^ ulpExponent y) <= roundHalfEven (y / 2 ^ ulpExponent y))%Z
      as M.
    { apply roundHalfEven_mono. apply Qle_shift_div_l; [exact P|].
      assert (x / 2 ^ ulpExponent y * 2 ^ ulpExponent y == x) as -> by (field; lra).
      exact L. }
    rewrite Zle_Qle in M. nra.
  - assert (ulpExponent x < ulpExponent y)%Z as S by (unfold ulpExponent in *; lia).
    assert (floorLog2 x + 1 <= floorLog2 y)%Z as S1 by (unfold ulpExponent in *; lia).
    assert (ulpExponent y <= floorLog2 y)%Z as S2 by (unfold ulpExponent in *; lia).
    apply Qle_trans with (2 ^ Z.max (floorLog2 x + 1) (-1074)).
    + apply nearestDouble_pow2_le; [exact Hx | unfold ulpExponent in *; lia |].
      apply Qle_trans with (2 ^ (floorLog2 x + 1)); [now apply Qlt_le_weak|].
      apply pow2_le. lia.
    + apply Qle_trans with (2 ^ floorLog2 y).
      * apply pow2_le. unfold ulpExponent in *. lia.
      * apply nearestDouble_pow2_ge; assumption.
Qed.

Lemma double_mono (x y : Q) : x <= y -> double x <= double y.
Proof.
  intros L.
  destruct (Qcompare_spec x 0) as [Zx|Lx|Gx].
  - rewrite (double_comp x 0 Zx), double_0. apply double_nonneg. lra.
  - destruct (Qlt_le_dec y 0) as [Ly|Gy].
    + rewrite (double_neg x Lx), (double_neg y Ly).
      pose proof (nearestDouble_mono (- y) (- x) ltac:(lra) ltac:(lra)). lra.
    + pose proof (double_nonpos x ltac:(lra)). pose proof (double_nonneg y Gy). lra.
  - rewrite (double_pos x Gx), (double_pos y ltac:(lra)). now apply nearestDouble_mono.
Qed.

Lemma nearestDouble_exact (x : Q) (z : Z) :
  x == inject_Z z * 2 ^ ulpExponent x -> nearestDouble x == x.
Proof.
  intros E. unfold nearestDouble. pose proof (pow2_pos (ulpExponent x)) as P.
  rewrite (roundHalfEven_comp _ (inject_Z z)).
  - rewrite roundHalfEven_Z. now rewrite <- E.
  - rewrite E at 1. field. lra.
Qed.

Lemma floorLog2_Z_bound (z : Z) (j : Z) :
  (0 < z)%Z -> (0 <= j)%Z -> (z < 2 ^ j)%Z -> (floorLog2 (inject_Z z) < j)%Z.
Proof.
  intros Hz Hj H.
  assert (0 < inject_Z z) as P by (change 0 with (inject_Z 0); now rewrite <- Zlt_Qlt).
  destruct (floorLog2_spec _ P) as [L _].
  assert (inject_Z z < 2 ^ j) as U by (rewrite pow2_Z by lia; now rewrite <- Zlt_Qlt).
  apply pow2_lt_inv. lra.
Qed.

Lemma double_Z (z : Z) : (Z.abs z <= 2 ^ 53)%Z -> double (inject_Z z) == inject_Z z.
Proof.
  assert (forall z, (0 < z <= 2 ^ 53)%Z -> nearestDouble (inject_Z z) == inject_Z z) as Pos.
  { clear z. intros z [Hz Hb].
    assert (0 < inject_Z z) as P by (change 0 with (inject_Z 0); now rewrite <- Zlt_Qlt).
    destruct (Z.eq_dec z (2 ^ 53)) as [->|N].
    - assert (floorLog2 (inject_Z (2 ^ 53)) = 53%Z) as K.
      { apply floorLog2_unique.
        - rewrite (pow2_Z 53) by lia. apply Qle_refl.
        - rewrite <- (pow2_Z 53) by lia. now apply pow2_lt. }
      apply (nearestDouble_exact _ (2 ^ 52)). unfold ulpExponent. rewrite K.
      reflexivity.
    - pose proof (floorLog2_Z_bound z 53 Hz ltac:(lia) ltac:(lia)) as K.
      assert (ulpExponent (inject_Z z) <= 0)%Z as E by (unfold ulpExponent; lia).
      apply (nearestDouble_exact _ (z * 2 ^ (- ulpExponent (inject_Z z)))).
      rewrite inject_Z_mult. rewrite <- (pow2_Z (- ulpExponent (inject_Z z))) by lia.
      rewrite <- Qmult_assoc, <- pow2_add.
      replace (- ulpExponent (inject_Z z) + ulpExponent (inject_Z z))%Z with 0%Z by lia.
      change (2 ^ 0) with 1. ring. }
  intros H. destruct (Z.compare_spec z 0) as [->|L|G].
  - reflexivity.
  - rewrite double_neg by (change 0 with (inject_Z 0); now rewrite <- Zlt_Qlt).
    rewrite <- inject_Z_opp. rewrite Pos by lia. rewrite inject_Z_opp. ring.
  - rewrite double_pos by (change 0 with (inject_Z 0); now rewrite <- Zlt_Qlt).
    apply Pos. lia.
Qed.


Lemma nearestDouble_idempotent (x : Q) :
  0 < x -> 0 < nearestDouble x -> nearestDouble (nearestDouble x) == nearestDouble x.
Proof.
  intros Hx Hd.
  set (d := nearestDouble x) in *. set (k := floorLog2 x). set (e := ulpExponent x).
  set (J := Z.max (k + 1) (-1074)).
  destruct (floorLog2_spec x Hx) as [Lx Ux]. fold k in Lx, Ux.
  assert (d <= 2 ^ J) as DJ.
  { apply nearestDouble_pow2_le; [exact Hx | unfold ulpExponent, J; fold k; lia |].
    apply Qle_trans with (2 ^ (k + 1)); [now apply Qlt_le_weak|]. apply pow2_le.
    unfold J. lia. }
  destruct (floorLog2_spec d Hd) as [Ld Ud].
  destruct (Qle_lt_or_eq _ _ DJ) as [Hlt|Heq].
  - assert (floorLog2 d < J)%Z as KJ
      by (apply pow2_lt_inv; eapply Qle_lt_trans; [exact Ld | exact Hlt]).
    assert (ulpExponent d <= e)%Z as EE by (subst e J k; unfold ulpExponent; lia).
    apply (nearestDouble_exact d
             (roundHalfEven (x / 2 ^ e) * 2 ^ (e - ulpExponent d))).
    unfold d at 1, nearestDouble. fold e.
    rewrite inject_Z_mult, <- (pow2_Z (e - ulpExponent d)) by lia.
    rewrite <- Qmult_assoc, <- pow2_add.
    now replace (e - ulpExponent d + ulpExponent d)%Z with e by lia.
  - assert (floorLog2 d = J) as KJ.
    { apply floorLog2_unique; rewrite Heq; [apply Qle_refl | apply pow2_lt; lia]. }
    apply (nearestDouble_exact d (2 ^ (J - ulpExponent d))).
    rewrite Heq at 1. apply pow2_on_grid. unfold ulpExponent. rewrite KJ. unfold J. lia.
Qed.

Lemma double_idempotent (x : Q) : double (double x) = double x.
Proof.
  assert (forall x, 0 < x -> double (double x) == double x) as Pos.
  { clear x. intros x Hx. pose proof (nearestDouble_nonneg x Hx) as N.
    destruct (Qle_lt_or_eq _ _ N) as [P|Z].
    - rewrite (double_comp (double x) (nearestDouble x)) by now apply double_pos.
      rewrite (double_pos x Hx), (double_pos _ P). now apply nearestDouble_idempotent.
    - rewrite (double_comp (double x) 0) by (rewrite double_pos by exact Hx; now symmetry).
      rewrite double_0, double_pos by exact Hx. exact Z. }
  assert (double (double x) == double x) as E.
  { destruct (Qcompare_spec x 0) as [Z|L|G].
    - rewrite (double_comp x 0 Z), double_0. reflexivity.
    - assert (double x == - double (- x)) as E1 by (rewrite double_opp; ring).
      rewrite (double_comp (double x) (- double (- x)) E1).
      rewrite (double_opp (double (- x))). rewrite (Pos (- x)) by lra.
      symmetry. exact E1.
    - now apply Pos. }
  apply Qred_complete in E. now rewrite !double_canonical in E.
Qed.

(** *** The arithmetic of the layout *)

Lemma fgeb_true (x y : Q) : fgeb x y = true <-> double y <= double x.
Proof. unfold fgeb. apply Qle_bool_iff. Qed.

Lemma fgeb_false (x y : Q) : fgeb x y = false <-> double x < double y.
Proof.
  unfold fgeb. split; intros H.
  - apply Qnot_le_lt. intros L. apply Qle_bool_iff in L. congruence.
  - destruct (Qle_bool (double y) (double x)) eqn:E; [|reflexivity].
    apply Qle_bool_iff in E. lra.
Qed.

Lemma fadd_double (x y : Q) : double (fadd x y) = fadd x y.
Proof. apply double_idempotent. Qed.

Lemma fsub_0_l (x : Q) : fsub 0 x == - double x.
Proof.
  unfold fsub. rewrite double_0.
  rewrite (double_comp (0 - double x) (- double x)) by ring.
  rewrite double_opp. now rewrite double_idempotent.
Qed.


Lemma fmax_ge_l (x y : Q) : double x <= fmax x y.
Proof. unfold fmax. apply Q.le_max_l. Qed.

Lemma fmax_ge_r (x y : Q) : double y <= fmax x y.
Proof. unfold fmax. apply Q.le_max_r. Qed.



(** *** [parseInt] *)












(** ** Rounding errors *)









Lemma fsub_double (x y : Q) : double (fsub x y) = fsub x y.
Proof. unfold fsub. apply double_idempotent. Qed.




(** ** Comparisons *)


Lemma Qltb_true (x y : Q) : Qltb x y = true <-> x < y.
Proof.
  unfold Qltb. rewrite negb_true_iff. split; intros H.
  - apply Qnot_le_lt. intros L. apply Qle_bool_iff in L. congruence.
  - destruct (Qle_bool y x) eqn:E; [|reflexivity]. apply Qle_bool_iff in E. lra.
Qed.

Lemma Qgtb_true (x y : Q) : Qgtb x y = true <-> y < x.
Proof. apply (Qltb_true y x). Qed.

Lemma Qeq_bool_true (x y : Q) : Qeq_bool x y = true <-> x == y.
Proof. apply Qeq_bool_iff. Qed.

Lemma Qeq_bool_false (x y : Q) : Qeq_bool x y = false <-> ~ x == y.
Proof.
  split.
  - intros H E. apply Qeq_bool_iff in E. congruence.
  - intros H. destruct (Qeq_bool x y) eqn:E; [|reflexivity].
    apply Qeq_bool_iff in E. contradiction.
Qed.

(** ** Lists *)

Lemma snoc_not_nil {A : Type} (l : list A) (x : A) : l ++ [x] <> [].
Proof. destruct l; discriminate. Qed.

Lemma nil_or_snoc {A : Type} (l : list A) :
  l = [] \/ exists l' y, l = l' ++ [y].
Proof. induction l using rev_ind; [left | right]; eauto. Qed.

Lemma snoc_split {A : Type} (cur p q : list A) (x : A) :
  cur ++ [x] = p ++ q ->
  (q = [] /\ p = cur ++ [x]) \/ (exists q', q = q' ++ [x] /\ cur = p ++ q').
Proof.
  intros E. destruct (nil_or_snoc q) as [->|(q' & y & ->)].
  - left. rewrite app_nil_r in E. auto.
  - right.
    rewrite app_assoc in E. apply app_inj_tail in E as [E1 E2].
    subst. eauto.
Qed.

Lemma no_elements_nil {A : Type} (l : list A) : (forall x, ~ In x l) -> l = [].
Proof. destruct l as [|x t]; [reflexivity|]. intros H. destruct (H x). now left. Qed.

Lemma length_updateAt {A : Type} (f : A -> A) (l : list A) :
  forall i, length (updateAt i f l) = length l.
Proof. induction l as [|x t IH]; intros [|i]; simpl; auto. Qed.

(** ** The layout loop against the row-by-row description *)

Lemma rowSum_snoc (cur : list ProgressiveImage) (x : ProgressiveImage) :
  rowSum (cur ++ [x]) = fadd (rowSum cur) (aspectRatio x).
Proof. unfold rowSum. rewrite fold_left_app. reflexivity. Qed.

(** The sum of a row is a double. *)
Lemma rowSum_double (row : list ProgressiveImage) : double (rowSum row) = rowSum row.
Proof.
  destruct (nil_or_snoc row) as [->|(l & y & ->)]; [reflexivity|].
  rewrite rowSum_snoc. apply double_idempotent.
Qed.

(** The test [rowAspectRatio >= this.minAspectRatio] on the sum of a row. *)
Lemma rowSum_reaches (m : Q) (row : list ProgressiveImage) :
  fgeb (rowSum row) m = true -> double m <= rowSum row.
Proof. intros H. apply fgeb_true in H. now rewrite rowSum_double in H. Qed.

Lemma rowSum_below (m : Q) (row : list ProgressiveImage) :
  fgeb (rowSum row) m = false -> rowSum row < double m.
Proof. intros H. apply fgeb_false in H. now rewrite rowSum_double in H. Qed.

Lemma spec_rowsFrom_end (m : Q) (cur : list ProgressiveImage) (sum : Q) :
  cur <> [] -> spec_rowsFrom m cur sum [] = [cur].
Proof. destruct cur; [congruence | reflexivity]. Qed.

Section LoopRefinement.
Variable W : Z.
Variable s m : Q.
Variable tr : Transition.

Lemma placeImage_forEachFrom (h y : Q) (row : list ProgressiveImage) :
  forall (i : nat) (acc : list ProgressiveImage) (x : Q),
    fst (forEachFrom (placeImage s tr h y) row i (acc, x))
    = acc ++ spec_placeRow s tr h x y row.
Proof.
  induction row as [|img t IH]; intros i acc x; simpl.
  - now rewrite app_nil_r.
  - unfold placeImage at 2; simpl. rewrite IH, <- app_assoc. reflexivity.
Qed.

Lemma layoutStep_forEachFrom (n : nat) :
  forall (l : list ProgressiveImage) (i : nat) (v : LayoutVars),
    (i + length l = n)%nat ->
    v_translateX v = 0 ->
    v_rowAspectRatio v = rowSum (v_row v) ->
    (l = [] -> v_row v = []) ->
    forEachFrom (layoutStep W s m tr n) l i v
    = let r := spec_layoutFrom W s m tr (v_translateY v)
                 (spec_rowsFrom m (v_row v) (rowSum (v_row v)) l) in
      {| v_row := [];
         v_translateX := 0;
         v_translateY := snd r;
         v_rowAspectRatio := 0;
         v_images := v_images v ++ concat (fst r) |}.
Proof.
  induction l as [|x t IH]; intros i v Hn HX HS Hrow.
  - destruct v as [row tx ty ra imgs]; simpl in *.
    rewrite (Hrow eq_refl) in *. simpl. subst tx ra.
    now rewrite app_nil_r.
  - simpl forEachFrom. unfold layoutStep at 2, parseFloat.
    rewrite HS, <- rowSum_snoc.
    cbn [spec_rowsFrom]. rewrite <- rowSum_snoc.
    destruct (fgeb (rowSum (v_row v ++ [x])) m) eqn:Hge; cbn [orb].
    + rewrite IH; cbn [v_row v_translateX v_translateY v_rowAspectRatio v_images];
        try reflexivity; try (simpl in Hn; lia).
      cbn [spec_layoutFrom fst snd concat].
      unfold forEach. rewrite placeImage_forEachFrom, HX.
      unfold spec_rowHeight, spec_rowRatio.
      rewrite <- app_assoc. reflexivity.
    + destruct (i + 1 =? n)%nat eqn:Hlast.
      * apply Nat.eqb_eq in Hlast.
        assert (t = []) as -> by (destruct t; [reflexivity | simpl in Hn; lia]).
        rewrite spec_rowsFrom_end by apply snoc_not_nil.
        cbn [forEachFrom spec_layoutFrom fst snd concat].
        unfold forEach. rewrite placeImage_forEachFrom, HX.
        unfold spec_rowHeight, spec_rowRatio.
        rewrite app_nil_r. reflexivity.
      * apply Nat.eqb_neq in Hlast.
        rewrite IH; cbn [v_row v_translateX v_translateY v_rowAspectRatio v_images];
          try reflexivity; try assumption; try (simpl in Hn; lia).
        intros ->. simpl in Hn. lia.
Qed.

End LoopRefinement.

(** The fields of the instance after [_computeLayout]; [tr] is the
    transition string of the pass. *)
Lemma computeLayout_fields (host : Host) (pig : Pig) :
  let p := fst (_computeLayout host pig) in
  let m := getMinAspectRatio (settings pig) (lastWindowWidth pig) in
  let s := spaceBetweenImages (settings pig) in
  let v := forEach (layoutStep (containerWidth host) s m (_getTransitionString p)
                      (length (images pig)))
                   (images pig) initialVars in
  minAspectRatio p = Some m
  /\ settings p = settings pig
  /\ images p = v_images v
  /\ totalHeight p = Some (fsub (v_translateY v) s).
Proof.
  unfold _computeLayout. cbv zeta.
  assert (fst (_recomputeMinAspectRatio pig)
          = getMinAspectRatio (settings pig) (lastWindowWidth pig)) as ->
    by (unfold _recomputeMinAspectRatio; destruct (minAspectRatio pig); reflexivity).
  destruct (negb _ && _); repeat split; reflexivity.
Qed.

Lemma computeLayout_minAspectRatio (host : Host) (pig : Pig) :
  minAspectRatio (fst (_computeLayout host pig))
  = Some (getMinAspectRatio (settings pig) (lastWindowWidth pig)).
Proof. apply (computeLayout_fields host pig). Qed.

(** [_computeLayout] computes the row-by-row layout. *)
Lemma computeLayout_spec (host : Host) (pig : Pig) :
  let p := fst (_computeLayout host pig) in
  let r := spec_layout (containerWidth host) (spaceBetweenImages (settings pig))
             (getMinAspectRatio (settings pig) (lastWindowWidth pig))
             (_getTransitionString p) (images pig) in
  images p = concat (fst r)
  /\ totalHeight p = Some (fsub (snd r) (spaceBetweenImages (settings pig))).
Proof.
  destruct (computeLayout_fields host pig) as (_ & _ & Ei & Et).
  cbv zeta in *. rewrite Ei, Et. unfold forEach, spec_layout, spec_rows.
  rewrite layoutStep_forEachFrom; cbn; try reflexivity; try tauto; try lia.
Qed.

(** ** Where the rows are cut *)

Section Rows.
Variable m : Q.

Lemma spec_rowsFrom_concat (l cur : list ProgressiveImage) (sum : Q) :
  concat (spec_rowsFrom m cur sum l) = cur ++ l.
Proof.
  revert cur sum. induction l as [|x t IH]; intros cur sum; simpl.
  - destruct cur; simpl; now rewrite ?app_nil_r.
  - destruct (fgeb (fadd sum (aspectRatio x)) m); [simpl|]; rewrite IH.
    + now rewrite <- app_assoc.
    + now rewrite <- app_assoc.
Qed.

Lemma spec_rowsFrom_nonempty (l cur : list ProgressiveImage) (sum : Q) :
  Forall (fun r => r <> []) (spec_rowsFrom m cur sum l).
Proof.
  revert cur sum. induction l as [|x t IH]; intros cur sum; simpl.
  - destruct cur; constructor; [discriminate | constructor].
  - destruct (fgeb (fadd sum (aspectRatio x)) m); [|apply IH].
    constructor; [apply snoc_not_nil | apply IH].
Qed.

Lemma spec_rowsFrom_first (l cur : list ProgressiveImage) :
  (forall p q, cur = p ++ q -> p <> [] -> rowSum p < double m) ->
  Forall (fun r => forall p q, r = p ++ q -> p <> [] -> q <> [] -> rowSum p < double m)
         (spec_rowsFrom m cur (rowSum cur) l).
Proof.
  revert cur. induction l as [|x t IH]; intros cur Hcur; simpl.
  - destruct cur as [|c cur']; constructor; [|constructor].
    intros p q E Hp _. eauto.
  - rewrite <- rowSum_snoc.
    destruct (fgeb (rowSum (cur ++ [x])) m) eqn:Hge.
    + constructor.
      * intros p q E Hp Hq.
        destruct (snoc_split _ _ _ _ E) as [[-> _]|(q' & -> & ->)];
          [congruence | eauto].
      * apply (IH []). intros p q E Hp.
        symmetry in E. apply app_eq_nil in E as [-> _]. congruence.
    + apply IH. intros p q E Hp.
      destruct (snoc_split _ _ _ _ E) as [[-> ->]|(q' & -> & ->)];
        [now apply rowSum_below | eauto].
Qed.

Lemma spec_rowsFrom_closed (l cur : list ProgressiveImage) :
  forall init final,
    spec_rowsFrom m cur (rowSum cur) l = init ++ [final] ->
    Forall (fun r => double m <= rowSum r) init.
Proof.
  revert cur. induction l as [|x t IH]; intros cur init final; simpl.
  - destruct cur as [|c cur']; intros E.
    + destruct init; discriminate.
    + destruct init as [|r [|r' init]]; [constructor | discriminate..].
  - rewrite <- rowSum_snoc.
    destruct (fgeb (rowSum (cur ++ [x])) m) eqn:Hge.
    + intros E. destruct init as [|r init]; [constructor|].
      simpl in E. injection E as <- E. constructor.
      * now apply rowSum_reaches.
      * apply (IH [] init final E).
    + apply IH.
Qed.

Lemma spec_rows_packing (l : list ProgressiveImage) :
  RowPacking m l (spec_rows m l).
Proof.
  unfold spec_rows. split.
  - apply spec_rowsFrom_concat.
  - apply spec_rowsFrom_nonempty.
  - apply (spec_rowsFrom_first l []). intros p q E Hp.
    symmetry in E. apply app_eq_nil in E as [-> _]. congruence.
  - apply (spec_rowsFrom_closed l []).
Qed.

End Rows.

(** With positive aspect ratios the sum of a non-empty row is positive. *)
Lemma fadd_pos (a x : Q) : 0 <= a -> 0 < double x -> 0 < fadd a x.
Proof.
  intros Ha Hx. unfold fadd.
  pose proof (double_nonneg a Ha) as Da.
  apply Qlt_le_trans with (double (double x)); [now rewrite double_idempotent|].
  apply double_mono. lra.
Qed.

Lemma rowSum_from_pos (row : list ProgressiveImage) (a : Q) :
  Forall (fun img => 0 < double (aspectRatio img)) row ->
  0 < a ->
  0 < fold_left (fun acc img => fadd acc (aspectRatio img)) row a.
Proof.
  revert a. induction row as [|x t IH]; intros a Hpos Ha; simpl; [exact Ha|].
  inversion Hpos; subst. apply IH; [assumption|]. apply fadd_pos; [lra | assumption].
Qed.

Lemma rowSum_pos (row : list ProgressiveImage) :
  Forall (fun img => 0 < double (aspectRatio img)) row -> row <> [] -> 0 < rowSum row.
Proof.
  destruct row as [|x t]; [congruence|]. intros Hpos _.
  inversion Hpos; subst. unfold rowSum; simpl.
  apply rowSum_from_pos; [assumption|]. apply fadd_pos; [lra | assumption].
Qed.

Lemma spec_rows_ratio_pos (m : Q) (l : list ProgressiveImage) :
  Forall (fun img => 0 < double (aspectRatio img)) l ->
  Forall (fun r => 0 < spec_rowRatio m r) (spec_rows m l).
Proof.
  intros Hpos.
  pose proof (spec_rows_packing m l) as [Hc Hn _ _].
  rewrite <- Hc in Hpos. apply Forall_concat in Hpos.
  rewrite Forall_forall in *. intros r Hr.
  pose proof (rowSum_pos r (Hpos r Hr) (Hn r Hr)).
  pose proof (fmax_ge_l (rowSum r) m) as G. rewrite rowSum_double in G.
  unfold spec_rowRatio. lra.
Qed.

(** ** The geometry of the rows, and the six-item scenario *)

(** C1, as stated, fails on its own scenario: the running sum reaches 5 after
    three items (1.777 + 1.5 + 1.777 = 5.054), so the fourth item opens the
    second row, and that row starts at the truncated height of the first row
    plus the spacing (194 + 8), not at row height plus spacing. *)
Lemma scenario_first_row_closes_after_three :
  map (@length ProgressiveImage) (layoutRows scenarioHost scenarioPig) = [3; 3]%nat
  /\ map (fun img => option_map (fun st => Qred (translateY st)) (style img))
         (images (fst (_computeLayout scenarioHost scenarioPig)))
     = [Some 0; Some 0; Some 0; Some 202; Some 202; Some 202]
  /\ ~ (202 == (1000 - 8 * (3 - 1)) / (1.777 + 1.5 + 1.777) + 8).
Proof.
  split; [|split]; try (vm_compute; reflexivity).
  intros H. vm_compute in H. discriminate H.
Qed.

(** C1, amended: [_computeLayout] cuts the items into rows, a row closing
    exactly when its running sum first reaches the minimum ratio or the list
    ends ([RowPacking]); a closed row gets its ratio clamped up to the minimum
    and the height (W - s * (n - 1)) / ratio; an item's stored width is
    [parseInt] of height times its ratio, its stored height [parseInt] of the
    row height, [translateX] a cursor advanced by the untruncated width plus
    the spacing, [translateY] a cursor advanced by the truncated row height
    plus the spacing after each row ([spec_layoutFrom]).  Every sum, product
    and quotient is the code's, rounded to a double.  In the scenario the
    first row is the first three items (sum 5.054) and the other three items
    (sum 5.177) form the last row, which the clamp leaves alone. *)
Theorem computeLayout_rows :
  (forall (host : Host) (pig : Pig),
      Forall (fun img => 0 < double (aspectRatio img)) (images pig) ->
      let W := containerWidth host in
      let s := spaceBetweenImages (settings pig) in
      let m := getMinAspectRatio (settings pig) (lastWindowWidth pig) in
      let p := fst (_computeLayout host pig) in
      let rows := spec_rows m (images pig) in
      let laid := spec_layoutFrom W s m (_getTransitionString p) 0 rows in
      RowPacking m (images pig) rows
      /\ Forall (fun r => 0 < spec_rowRatio m r) rows
      /\ images p = concat (fst laid)
      /\ totalHeight p = Some (fsub (snd laid) s))
  /\ (let imgs := images scenarioPig in
      spec_rows 5 imgs = [firstn 3 imgs; skipn 3 imgs]
      /\ rowSum (firstn 3 imgs) = double 5.054
      /\ rowSum (skipn 3 imgs) = double 5.177
      /\ spec_rowRatio 5 (skipn 3 imgs) = double 5.177
      /\ geometry (images (fst (_computeLayout scenarioHost scenarioPig)))
         = [Some (345%Z, 194%Z, 0, 0);
            Some (292%Z, 194%Z, 48650235014129 # 137438953472, 0);
            Some (345%Z, 194%Z, 5752846725481407 # 8796093022208, 0);
            Some (337%Z, 190%Z, 0, 202);
            Some (190%Z, 190%Z, 6082621507538715 # 17592186044416, 202);
            Some (456%Z, 190%Z, 4783565828612015 # 8796093022208, 202)]
      /\ option_map Qred (totalHeight (fst (_computeLayout scenarioHost scenarioPig)))
         = Some 392).
Proof.
  split.
  - intros host pig Hpos W s m p rows laid.
    split; [apply spec_rows_packing|].
    split; [now apply spec_rows_ratio_pos|].
    apply (computeLayout_spec host pig).
  - cbv zeta. repeat split; vm_compute; reflexivity.
Qed.

Lemma computeLayout_rows_witness :
  Forall (fun img => 0 < double (aspectRatio img)) (images scenarioPig)
  /\ RowPacking 5 (images scenarioPig) (spec_rows 5 (images scenarioPig)).
Proof.
  assert (Forall (fun img => 0 < double (aspectRatio img)) (images scenarioPig)) as H
    by (repeat (constructor; [vm_compute; reflexivity|]); constructor).
  split; [exact H|].
  exact (proj1 (proj1 computeLayout_rows scenarioHost scenarioPig H)).
Defined.
(** ** The placed rows *)

Section PlacedRow.
Variable s : Q.
Variable tr : Transition.




Lemma spec_placeRow_styled (h y : Q) (row : list ProgressiveImage) :
  forall x, Forall (fun img => style img <> None) (spec_placeRow s tr h x y row).
Proof.
  induction row as [|img t IH]; intros x; simpl; constructor; [discriminate | apply IH].
Qed.

End PlacedRow.



Lemma spec_layoutFrom_Forall (W : Z) (s m : Q) (tr : Transition)
    (P : list ProgressiveImage -> Prop) (rows : list (list ProgressiveImage)) :
  Forall (fun r => forall y, P (spec_placeRow s tr (spec_rowHeight W s m r) 0 y r)) rows ->
  forall y, Forall P (fst (spec_layoutFrom W s m tr y rows)).
Proof.
  induction 1 as [|r rs Hr _ IH]; intros y; simpl; constructor; auto.
Qed.

Lemma layoutRows_eq (host : Host) (pig : Pig) :
  layoutRows host pig
  = fst (spec_layout (containerWidth host) (spaceBetweenImages (settings pig))
           (getMinAspectRatio (settings pig) (lastWindowWidth pig))
           (_getTransitionString (fst (_computeLayout host pig))) (images pig)).
Proof. unfold layoutRows. now rewrite computeLayout_minAspectRatio. Qed.

Lemma layoutRows_concat (host : Host) (pig : Pig) :
  concat (layoutRows host pig) = images (fst (_computeLayout host pig)).
Proof.
  rewrite layoutRows_eq. symmetry. apply (computeLayout_spec host pig).
Qed.


(** ** Rows of images with aspect ratios between 1/16 and 16 *)















(** ** The stored widths of a row *)












(** ** Row widths *)









(** The tolerance of one pixel per item is reached: one image of ratio 2.23
    fills its row (2.23 >= 2), the row height is 320 / 2.23 rounded, the
    product of height and ratio rounds to 319.99999999999994, and the stored
    width is 319. *)
Lemma full_row_one_pixel_short :
  map (fun r => (length r, Qred (rowOccupiedWidth 8 r))) (layoutRows narrowHost narrowPig)
  = [(1%nat, 319)]
  /\ geometry (images (fst (_computeLayout narrowHost narrowPig)))
     = [Some (319%Z, 143%Z, 0, 0)]
  /\ fmul (fdiv 320 2.23) 2.23 == 5629499534213119 # 17592186044416.
Proof. repeat split; vm_compute; reflexivity. Qed.



(** ** Total height when an item is appended *)












(** ** The empty collection *)

(** C10: with no images the loop leaves the vertical cursor at 0 and
    [totalHeight] is 0 - spaceBetweenImages, which is exact: the spacing
    negated; it is negative for a positive spacing and -8 with the default
    settings; [_doLayout] then writes that value as the container's height
    (and calls nothing). *)
Theorem computeLayout_empty (host : Host) (pig : Pig) :
  images pig = [] ->
  let s := spaceBetweenImages (settings pig) in
  let p := fst (_computeLayout host pig) in
  (forall W m tr n,
      v_translateY (forEach (layoutStep W s m tr n) (images pig) initialVars) = 0)
  /\ totalHeight p = Some (fsub 0 s)
  /\ fsub 0 s == - double s
  /\ (0 < double s -> fsub 0 s < 0)
  /\ (s == spaceBetweenImages defaultSettings -> fsub 0 s == -8)
  /\ _doLayout host p = Some {| containerHeight := Some (fsub 0 s); calls := [] |}.
Proof.
  intros E s p.
  assert (totalHeight p = Some (fsub 0 s) /\ images p = []) as [Et Ei].
  { destruct (computeLayout_fields host pig) as (_ & _ & Ei & Et).
    cbv zeta in *. fold p s in Ei, Et. rewrite E in *. split; assumption. }
  pose proof (fsub_0_l s) as Es.
  split; [intros; rewrite E; reflexivity|].
  split; [exact Et|]. split; [exact Es|]. split; [intros; lra|].
  split.
  - intros E8. rewrite Es, (double_comp s 8 E8). now rewrite (double_Z 8).
  - unfold _doLayout. rewrite Ei, Et. reflexivity.
Qed.

Lemma computeLayout_empty_witness :
  option_map Qred (totalHeight (fst (_computeLayout scenarioHost emptyPig))) = Some (-8)
  /\ _doLayout scenarioHost (fst (_computeLayout scenarioHost emptyPig))
     = Some {| containerHeight := Some (fsub 0 8); calls := [] |}.
Proof.
  destruct (computeLayout_empty scenarioHost emptyPig eq_refl)
    as (_ & Et & _ & _ & _ & Ed).
  split; [rewrite Et; reflexivity | exact Ed].
Defined.

(** ** The visibility pass *)



Lemma visitImages_total (lower upper : Q) (imgs : list ProgressiveImage) :
  Forall (fun img => style img <> None) imgs ->
  exists cs, visitImages lower upper imgs = Some cs.
Proof.
  induction 1 as [|img t Hs _ [cs IH]]; simpl; [eauto|].
  destruct (style img); [|congruence]. rewrite IH. eauto.
Qed.


Lemma doLayout_total (host : Host) (pig : Pig) :
  Forall (fun img => style img <> None) (images pig) ->
  exists cs,
    visitImages (minTranslateYPlusHeight host pig) (maxTranslateY host pig) (images pig)
    = Some cs
    /\ _doLayout host pig = Some {| containerHeight := totalHeight pig; calls := cs |}.
Proof.
  intros H. unfold _doLayout.
  destruct (visitImages_total (minTranslateYPlusHeight host pig)
              (maxTranslateY host pig) _ H) as [cs E].
  rewrite E. eauto.
Qed.

(** After [_computeLayout] every image carries a style. *)
Lemma computeLayout_styled (host : Host) (pig : Pig) :
  Forall (fun img => style img <> None) (images (fst (_computeLayout host pig))).
Proof.
  rewrite <- layoutRows_concat, layoutRows_eq. apply Forall_concat.
  apply spec_layoutFrom_Forall. apply Forall_forall. intros r _ y.
  apply spec_placeRow_styled.
Qed.




(** ** The item on the edge of the top buffer *)




(** ** The scroll handler *)

(** C6, as stated, fails when the last known offset is 0, as it is at the
    first notification after construction: scrolled to 500 the handler takes
    500 itself as the previous offset and the direction is "up". *)
Lemma first_scroll_down_resolves_up :
  latestYOffset scenarioPig = 0
  /\ latestYOffset scenarioPig < currentYOffset (scrolledHost 500)
  /\ scrollDirection (fst (scrollHandler (scrolledHost 500) (scenarioPig, emptyPage))) = up.
Proof. repeat split. Qed.

Lemma scrollHandler_pig (host : Host) (st : Pig * Page) :
  let newYOffset := currentYOffset host in
  let previous := orElse (latestYOffset (fst st)) newYOffset in
  let p := fst (scrollHandler host st) in
  latestYOffset p = newYOffset
  /\ previousYOffset p = Some previous
  /\ scrollDirection p = (if Qgtb newYOffset previous then down else up)
  /\ settings p = settings (fst st)
  /\ images p = images (fst st)
  /\ totalHeight p = totalHeight (fst st).
Proof.
  unfold scrollHandler. cbv zeta.
  destruct (negb (inRAF _)); repeat split; reflexivity.
Qed.

(** C6, amended: the handler compares the new offset with the last known
    offset, except that a last known offset of 0 is replaced by the new
    offset itself.  So the direction is "down" iff the last known offset is
    not 0 and the new offset is strictly greater, and "up" otherwise: on equal
    offsets, and on every notification that finds the last known offset 0,
    the first one after construction included. *)
Theorem scrollHandler_direction (host : Host) (st : Pig * Page) :
  let newYOffset := currentYOffset host in
  let old := latestYOffset (fst st) in
  let p := fst (scrollHandler host st) in
  latestYOffset p = newYOffset
  /\ previousYOffset p = Some (if Qeq_bool old 0 then newYOffset else old)
  /\ (scrollDirection p = down <-> (~ old == 0 /\ old < newYOffset))
  /\ (scrollDirection p = up <-> (old == 0 \/ newYOffset <= old))
  /\ (newYOffset == old -> scrollDirection p = up)
  /\ (old == 0 -> scrollDirection p = up).
Proof.
  intros newYOffset old p.
  destruct (scrollHandler_pig host st) as (El & Ep & Ed & _).
  cbv zeta in *. fold newYOffset old p in El, Ep, Ed.
  split; [exact El|]. split; [exact Ep|].
  assert (scrollDirection p = down <-> (~ old == 0 /\ old < newYOffset)) as Hdown.
  { rewrite Ed. unfold orElse.
    destruct (Qeq_bool old 0) eqn:E0.
    - apply Qeq_bool_true in E0.
      destruct (Qgtb newYOffset newYOffset) eqn:G.
      + apply Qgtb_true in G. lra.
      + split; [discriminate | tauto].
    - apply Qeq_bool_false in E0.
      destruct (Qgtb newYOffset old) eqn:G.
      + apply Qgtb_true in G. tauto.
      + split; [discriminate|]. intros [_ H]. apply Qgtb_true in H. congruence. }
  split; [exact Hdown|].
  assert (scrollDirection p = up <-> (old == 0 \/ newYOffset <= old)) as Hup.
  { destruct (scrollDirection p) eqn:D.
    - split; [intros _ | reflexivity].
      destruct (Qeq_dec old 0) as [E|E]; [now left | right].
      apply Qnot_lt_le. intros L.
      assert (up = down) by (apply Hdown; tauto). discriminate.
    - split; [discriminate|]. intros H.
      destruct (proj1 Hdown eq_refl) as [N L]. destruct H; [contradiction | lra]. }
  split; [exact Hup|].
  split; intros H; apply Hup; [right; lra | now left].
Qed.

Lemma scrollHandler_direction_witness :
  scrollDirection (fst (scrollHandler (scrolledHost 500) (boundaryPig, emptyPage))) = down
  /\ scrollDirection (fst (scrollHandler (scrolledHost 400) (boundaryPig, emptyPage))) = up
  /\ scrollDirection (fst (scrollHandler (scrolledHost 500) (scenarioPig, emptyPage))) = up.
Proof.
  split; [|split].
  - apply (proj2 (proj1 (proj2 (proj2
             (scrollHandler_direction (scrolledHost 500) (boundaryPig, emptyPage)))))).
    split; [intros H; discriminate H | reflexivity].
  - apply (proj1 (proj2 (proj2 (proj2 (proj2
             (scrollHandler_direction (scrolledHost 400) (boundaryPig, emptyPage))))))).
    reflexivity.
  - apply (proj2 (proj2 (proj2 (proj2 (proj2
             (scrollHandler_direction (scrolledHost 500) (scenarioPig, emptyPage))))))).
    reflexivity.
Defined.

(** ** Scroll notifications within one frame *)

Lemma scrollHandler_guard (host : Host) (st : Pig * Page) :
  frameRequests (snd st) = (if inRAF (fst st) then [ScrollFrame] else []) ->
  inRAF (fst (scrollHandler host st)) = true
  /\ frameRequests (snd (scrollHandler host st)) = [ScrollFrame]
  /\ passes (snd (scrollHandler host st)) = passes (snd st).
Proof.
  unfold scrollHandler. cbv zeta. intros G.
  destruct (inRAF (fst st)) eqn:E; cbn [set_scroll inRAF negb fst snd];
    rewrite E; cbn [negb fst snd set_inRAF inRAF requestAnimationFrame
                    set_frameRequests frameRequests passes];
    rewrite ?G; repeat split; exact E.
Qed.

Lemma scrollBurst_snoc (hosts : list Host) (host : Host) (st : Pig * Page) :
  scrollBurst (hosts ++ [host]) st = scrollHandler host (scrollBurst hosts st).
Proof. unfold scrollBurst. now rewrite fold_left_app. Qed.

Lemma scrollBurst_guard (hosts : list Host) :
  forall st,
    frameRequests (snd st) = (if inRAF (fst st) then [ScrollFrame] else []) ->
    frameRequests (snd (scrollBurst hosts st))
    = (if inRAF (fst (scrollBurst hosts st)) then [ScrollFrame] else [])
    /\ passes (snd (scrollBurst hosts st)) = passes (snd st).
Proof.
  induction hosts as [|h t IH]; intros st G; simpl; [auto|].
  destruct (scrollHandler_guard h st G) as (Ei & Ef & Ep).
  destruct (IH (scrollHandler h st)) as [G' P'].
  - now rewrite Ei, Ef.
  - split; [exact G' | now rewrite P'].
Qed.

(** C9: N >= 1 scroll notifications delivered within one frame leave exactly
    one frame callback requested, and no pass has run yet; the frame then
    runs exactly one [_doLayout], on the state the last notification wrote
    (its offset, its direction), and empties the request list. *)
Theorem scroll_burst_one_pass (frameHost : Host) (hosts : list Host) (host : Host)
    (st : Pig * Page) :
  frameRequests (snd st) = (if inRAF (fst st) then [ScrollFrame] else []) ->
  let st1 := scrollBurst (hosts ++ [host]) st in
  let st2 := animationFrame frameHost st1 in
  frameRequests (snd st1) = [ScrollFrame]
  /\ passes (snd st1) = passes (snd st)
  /\ st1 = scrollHandler host (scrollBurst hosts st)
  /\ latestYOffset (fst st1) = currentYOffset host
  /\ passes (snd st2) = passes (snd st) ++ [_doLayout frameHost (fst st1)]
  /\ frameRequests (snd st2) = []
  /\ (_doLayout frameHost (fst st1) <> None -> inRAF (fst st2) = false).
Proof.
  intros G st1 st2.
  assert (st1 = scrollHandler host (scrollBurst hosts st)) as E1
    by apply scrollBurst_snoc.
  destruct (scrollBurst_guard hosts st G) as [G0 P0].
  destruct (scrollHandler_guard host _ G0) as (Ei & Ef & Ep).
  rewrite <- E1 in Ei, Ef, Ep.
  split; [exact Ef|]. split; [now rewrite Ep|]. split; [exact E1|].
  split; [rewrite E1; apply (scrollHandler_pig host)|].
  unfold st2, animationFrame. rewrite Ef. cbn [fold_left runFrameCallback].
  unfold scrollFrame. cbn [fst snd].
  destruct (_doLayout frameHost (fst st1)) as [pass|];
    cbn [fst snd set_passes set_frameRequests passes frameRequests set_inRAF inRAF];
    rewrite Ep, P0; repeat split; congruence.
Qed.

Lemma scroll_burst_one_pass_witness :
  let hosts := [scrolledHost 100; scrolledHost 250] in
  let st1 := scrollBurst (hosts ++ [scrolledHost 200]) (boundaryPig, emptyPage) in
  frameRequests (snd st1) = [ScrollFrame]
  /\ passes (snd (animationFrame (scrolledHost 200) st1))
     = [] ++ [_doLayout (scrolledHost 200) (fst st1)].
Proof.
  destruct (scroll_burst_one_pass (scrolledHost 200)
              [scrolledHost 100; scrolledHost 250] (scrolledHost 200)
              (boundaryPig, emptyPage) eq_refl)
    as (Ef & _ & _ & _ & Ep & _).
  split; [exact Ef | exact Ep].
Defined.

(** ** Listeners across [disable] and [enable] *)

Lemma removeEventListener_fresh (f : nat) (listeners : list nat) :
  Forall (fun g => (g < f)%nat) listeners ->
  removeEventListener f listeners = listeners.
Proof.
  unfold removeEventListener. induction 1 as [|g t Hg _ IH]; simpl; [reflexivity|].
  destruct (Nat.eqb_spec f g); [lia | simpl; now rewrite IH].
Qed.

(** [disable] never detaches a resize listener: the function it hands to
    [removeEventListener] was bound a moment before. *)
Lemma disable_keeps_resize_listeners (st : Pig * Page) :
  Forall (fun g => (g < nextFunction (snd st))%nat) (resizeListeners (snd st)) ->
  resizeListeners (snd (disable st)) = resizeListeners (snd st).
Proof.
  intros H. unfold disable, OptimizedResize_disable, newFunction.
  destruct (onScroll (fst st)); cbn; now apply removeEventListener_fresh.
Qed.

(** C8 on the code: enable, disable, enable again, from a new grid.  After
    [disable] the scroll listener is gone but the resize listener of the
    first period (function 2) is still attached; after the second [enable]
    it is still the only resize listener, while [OptimizedResize] holds the
    callbacks of both periods (1 and 5), so that one resize event makes the
    next frame lay the grid out twice. *)
Theorem disable_leaves_resize_listener :
  let st1 := enable scenarioHost (scenarioPig, emptyPage) in
  let st2 := disable st1 in
  let st3 := animationFrame scenarioHost (enable scenarioHost st2) in
  let st4 := animationFrame scenarioHost (resizeEvent st3) in
  (scrollListeners (snd st1), resizeListeners (snd st1)) = ([0], [2])%nat
  /\ (scrollListeners (snd st2), resizeListeners (snd st2)) = ([], [2])%nat
  /\ (scrollListeners (snd st3), resizeListeners (snd st3)) = ([4], [2])%nat
  /\ _callbacks (_optimizedResize (fst st3)) = [1; 5]%nat
  /\ length (passes (snd st4)) = (length (passes (snd st3)) + 2)%nat.
Proof. repeat split; vm_compute; reflexivity. Qed.

(** ** One image on the page *)

Lemma removeChild_filter (node : nat) (nodes : list nat) :
  NoDup nodes -> In node nodes ->
  removeChild node nodes = Some (filter (fun n => negb (Nat.eqb node n)) nodes).
Proof.
  induction 1 as [|n t Hn Hnd IH]; intros Hin; [destruct Hin|].
  simpl. destruct (Nat.eqb_spec node n) as [->|Hne]; simpl.
  - f_equal. symmetry. apply forallb_filter_id. apply forallb_forall.
    intros x Hx. destruct (Nat.eqb_spec n x); [subst; contradiction | reflexivity].
  - destruct Hin as [->|Hin]; [congruence|]. now rewrite IH.
Qed.

Lemma filter_ne_In (node r : nat) (nodes : list nat) :
  In r (filter (fun n => negb (Nat.eqb node n)) nodes) <-> In r nodes /\ r <> node.
Proof.
  rewrite filter_In. destruct (Nat.eqb_spec node r); simpl; intuition congruence.
Qed.

Lemma filter_ne_not_In (node : nat) (nodes : list nat) :
  ~ In node (filter (fun n => negb (Nat.eqb node n)) nodes).
Proof. intros H. apply filter_ne_In in H. now destruct H. Qed.

Lemma appendChild_NoDup (node : nat) (nodes : list nat) :
  NoDup nodes -> NoDup (appendChild node nodes).
Proof.
  intros H. unfold appendChild. apply NoDup_app.
  - now apply NoDup_filter.
  - repeat constructor. intros [].
  - intros x Hx [<-|[]]. apply filter_ne_In in Hx. now destruct Hx.
Qed.

Lemma appendChild_In (node : nat) (nodes : list nat) : In node (appendChild node nodes).
Proof. unfold appendChild. apply in_or_app. right. now left. Qed.

Lemma appendChild_In_iff (node r : nat) (nodes : list nat) :
  In r (appendChild node nodes) <-> In r nodes \/ r = node.
Proof.
  unfold appendChild. rewrite in_app_iff, filter_ne_In. simpl.
  destruct (Nat.eq_dec r node); intuition congruence.
Qed.

Lemma set_element_same (img : ProgressiveImage) (fig : Figure) :
  element img = Some fig -> set_element img fig = img.
Proof. destruct img; simpl; intros ->; reflexivity. Qed.

Lemma freshImage_consistent : Consistent freshImage emptyPage.
Proof.
  constructor; cbn; try (repeat constructor; fail).
  - discriminate.
  - split; [discriminate | intros []].
  - discriminate.
  - intuition discriminate.
Qed.

Lemma attachedState_consistent :
  Consistent (fst attachedState) (snd attachedState)
  /\ thumbnail (fst attachedState) = Some 0%nat
  /\ fullImage (fst attachedState) = Some 1%nat
  /\ figureChildren (fst attachedState) = [0; 1]%nat
  /\ containerChildren (snd attachedState) = [0]%nat.
Proof.
  split; [|repeat split].
  constructor.
  - discriminate.
  - cbn. repeat constructor; intros [].
  - split; [intros _; now left | reflexivity].
  - intros r [= <-]. discriminate.
  - intros r. cbn. intuition congruence.
  - cbn. repeat constructor; cbn; intuition congruence.
  - cbn. repeat constructor.
Qed.

Section FigureOnPage.
Variable pig : Pig.

Lemma writeStyles_ok (img : ProgressiveImage) (st : Style) (fig : Figure) :
  style img = Some st ->
  exists fig',
    writeStyles (set_element img fig) = Ok (set_element img fig')
    /\ children fig' = children fig.
Proof.
  intros Hs. unfold writeStyles. cbn [set_element style element]. rewrite Hs.
  eexists. split; reflexivity.
Qed.

(** [getElement] returns the image with a figure that has the children the
    image's figure had. *)
Lemma getElement_ok (img : ProgressiveImage) :
  style img <> None ->
  exists fig,
    getElement pig img = Ok (set_element img fig)
    /\ children fig = figureChildren img.
Proof.
  intros Hs. destruct (style img) as [st|] eqn:Es; [|congruence].
  unfold getElement, figureChildren. destruct (element img) as [fig|] eqn:Ee.
  - exists fig. now rewrite set_element_same.
  - destruct (writeStyles_ok img st
                {| figureClassName := classNames_figure pig;
                   hasClickListener := match onClickHandler (settings pig) with
                                       | Some _ => true | None => false end;
                   figureStyle := None; children := [] |} Es) as (fig' & E & Ec).
    exists fig'. split; assumption.
Qed.

Lemma getElement_present (img : ProgressiveImage) (fig : Figure) :
  getElement pig (set_element img fig) = Ok (set_element img fig).
Proof. reflexivity. Qed.

(** [removeSubElement] on an image whose figure is there. *)
Lemma removeSubElement_ok (name : SubElementName) (img : ProgressiveImage)
    (fig : Figure) (page : Page) :
  NoDup (children fig) ->
  (forall r, getSubElement name img = Some r -> In r (children fig)) ->
  exists nodes page',
    removeSubElement pig name (set_element img fig) page
    = Ok (setSubElement name None (set_element img (set_children fig nodes)), page')
    /\ nodes = match getSubElement name img with
               | Some r => filter (fun n => negb (Nat.eqb r n)) (children fig)
               | None => children fig
               end
    /\ containerChildren page' = containerChildren page
    /\ length (imageElements page') = length (imageElements page).
Proof.
  intros Hnd Hin. unfold removeSubElement.
  assert (getSubElement name (set_element img fig) = getSubElement name img) as ->
    by (destruct name; reflexivity).
  destruct (getSubElement name img) as [r|] eqn:Eg.
  - rewrite getElement_present. cbn [bind set_element element].
    rewrite (removeChild_filter r _ Hnd (Hin r eq_refl)).
    eexists; eexists. split; [reflexivity|]. split; [reflexivity|].
    split; [reflexivity|]. cbn. apply length_updateAt.
  - exists (children fig), page. split; [|auto].
    f_equal. f_equal. destruct img, fig, name; simpl in *; subst; reflexivity.
Qed.

End FigureOnPage.

Section HideLoad.
Variable pig : Pig.

Lemma setSub_set_element (name : SubElementName) (v : option nat)
    (img : ProgressiveImage) (fig : Figure) :
  setSubElement name v (set_element img fig) = set_element (setSubElement name v img) fig.
Proof. reflexivity. Qed.

(** [hide] on a consistent state: it returns, the image is off the page
    without sub-elements, its figure is out of the container. *)
Lemma hide_ok (img : ProgressiveImage) (page : Page) :
  Consistent img page ->
  exists img' page',
    hide pig img page = Ok (img', page')
    /\ existsOnPage img' = false
    /\ thumbnail img' = None
    /\ fullImage img' = None
    /\ figureChildren img' = []
    /\ index img' = index img
    /\ style img' = style img
    /\ containerChildren page'
       = filter (fun n => negb (Nat.eqb (index img) n)) (containerChildren page)
    /\ length (imageElements page') = length (imageElements page).
Proof.
  intros [Hs Hnd Hon Hdist Hsub Hcn Hmade].
  destruct (getElement_ok pig img Hs) as (fig & Eg & Ec).
  rewrite <- Ec in Hsub, Hcn.
  unfold hide. rewrite Eg. cbn [bind]. unfold removeAllSubElements.
  destruct (removeSubElement_ok pig Thumbnail img fig page Hcn) as (n1 & p1 & E1 & En1 & Ec1 & El1).
  { intros r Hr. apply Hsub. now left. }
  rewrite E1. cbn [bind fst snd]. rewrite setSub_set_element.
  assert (NoDup n1) as Hn1
    by (subst n1; destruct (getSubElement Thumbnail img); [apply NoDup_filter|]; exact Hcn).
  destruct (removeSubElement_ok pig FullImage (setSubElement Thumbnail None img)
              (set_children fig n1) p1 Hn1) as (n2 & p2 & E2 & En2 & Ec2 & El2).
  { intros r Hr. cbn in Hr. cbn [set_children children]. subst n1. cbn.
    destruct (thumbnail img) as [t|] eqn:Et.
    - apply filter_ne_In. split; [apply Hsub; now right|].
      intros ->. exact (Hdist t eq_refl Hr).
    - apply Hsub. now right. }
  rewrite E2. cbn [bind fst snd]. rewrite setSub_set_element.
  cbn [set_children children] in En2.
  assert (n2 = []) as ->.
  { apply no_elements_nil. intros r Hr. subst n2 n1. cbn in Hr.
    destruct (fullImage img) as [f|] eqn:Ef; destruct (thumbnail img) as [t|] eqn:Et;
      repeat (apply filter_ne_In in Hr; destruct Hr as [Hr ?]);
      apply Hsub in Hr; destruct Hr as [Hr|Hr]; congruence. }
  change (existsOnPage (set_element (setSubElement FullImage None
            (setSubElement Thumbnail None img)) (set_children (set_children fig n1) [])))
    with (existsOnPage img).
  destruct (existsOnPage img) eqn:Ee.
  - rewrite getElement_present. cbn [bind].
    change (index (set_element _ _)) with (index img).
    rewrite Ec2, Ec1.
    rewrite (removeChild_filter (index img) _ Hnd (proj1 Hon eq_refl)).
    cbn [bind fst snd].
    eexists; eexists. split; [reflexivity|].
    repeat split; try reflexivity. cbn. congruence.
  - cbn [bind fst snd].
    eexists; eexists. split; [reflexivity|].
    repeat split; try reflexivity; [|congruence].
    rewrite Ec2, Ec1. symmetry. apply forallb_filter_id. apply forallb_forall.
    intros x Hx. destruct (Nat.eqb_spec (index img) x) as [E|E]; [|reflexivity].
    subst x. apply Hon in Hx. congruence.
Qed.

(** [load] on a consistent state: it returns, the image is on the page and
    the state is consistent again. *)
Lemma load_ok (img : ProgressiveImage) (page : Page) :
  Consistent img page ->
  exists img' page',
    load pig img page = Ok (img', page')
    /\ Consistent img' page'
    /\ existsOnPage img' = true
    /\ thumbnail img' = thumbnail img
    /\ fullImage img' = fullImage img
    /\ index img' = index img
    /\ timeouts page' = timeouts page ++ [AddSubElements (index img) 100].
Proof.
  intros [Hs Hnd Hon Hdist Hsub Hcn Hmade].
  destruct (style img) as [st|] eqn:Es; [|congruence].
  destruct (getElement_ok pig (set_existsOnPage img true)) as (fig & Eg & Ec);
    [cbn; congruence|].
  destruct (writeStyles_ok (set_existsOnPage img true) st fig Es) as (fig' & Ew & Ec').
  unfold load, _updateStyles. rewrite Eg. cbn [bind]. rewrite Ew. cbn [bind].
  rewrite getElement_present. cbn [bind].
  eexists; eexists. split; [reflexivity|].
  split; [|repeat split; reflexivity].
  assert (figureChildren (set_element (set_existsOnPage img true) fig')
          = figureChildren img) as Ef
    by (unfold figureChildren at 1; cbn [set_element element]; rewrite Ec', Ec; reflexivity).
  constructor; cbn [set_element set_existsOnPage style existsOnPage thumbnail
                    fullImage index]; rewrite ?Ef; try assumption.
  - congruence.
  - cbn. now apply appendChild_NoDup.
  - cbn. split; [intros _; apply appendChild_In | reflexivity].
Qed.

Lemma addSubElementsLater_hidden (img : ProgressiveImage) (page : Page) :
  existsOnPage img = false ->
  addSubElementsLater pig img page = Ok (img, page).
Proof. intros E. unfold addSubElementsLater. now rewrite E. Qed.

(** An [onload] notification returns and leaves the nodes where they are. *)
Lemma imageLoaded_ok (subElement : nat) (page : Page) :
  exists page',
    imageLoaded pig subElement page = Ok page'
    /\ containerChildren page' = containerChildren page
    /\ length (imageElements page') = length (imageElements page)
    /\ timeouts page' = timeouts page
    /\ frameRequests page' = frameRequests page.
Proof.
  eexists. split; [reflexivity|]. repeat split. cbn. apply length_updateAt.
Qed.

End HideLoad.

(** [Consistent] is kept by every step of the life cycle. *)

Section LifeCycle.
Variable pig : Pig.

Lemma hide_consistent (img img' : ProgressiveImage) (page page' : Page) :
  Consistent img page ->
  hide pig img page = Ok (img', page') ->
  Consistent img' page'.
Proof.
  intros HC E.
  destruct (hide_ok pig img page HC)
    as (i2 & p2 & Eh & Ee & Et & Ef & Ech & Ei & Es & Ecc & El).
  rewrite Eh in E. injection E as <- <-.
  destruct HC as [Hs Hnd Hon Hdist Hsub Hcn Hmade].
  constructor; rewrite ?Ee, ?Et, ?Ef, ?Ech, ?Ei, ?Es, ?Ecc, ?El; try assumption.
  - now apply NoDup_filter.
  - split; [discriminate|]. intros H. now apply filter_ne_not_In in H.
  - discriminate.
  - intros r. simpl. intuition discriminate.
  - constructor.
  - constructor.
Qed.

Lemma imageLoaded_consistent (img : ProgressiveImage) (subElement : nat)
    (page page' : Page) :
  Consistent img page ->
  imageLoaded pig subElement page = Ok page' ->
  Consistent img page'.
Proof.
  intros [Hs Hnd Hon Hdist Hsub Hcn Hmade] [= <-].
  constructor; try assumption. cbn. now rewrite length_updateAt.
Qed.

Lemma addImageAsSubElement_ok (name : SubElementName) (file : string) (size : Q)
    (classname : string) (img : ProgressiveImage) (page : Page) :
  Consistent img page ->
  exists img' page',
    addImageAsSubElement pig name file size classname img page = Ok (img', page')
    /\ Consistent img' page'
    /\ getSubElement name img' <> None
    /\ (forall other, getSubElement other img <> None -> getSubElement other img' <> None)
    /\ existsOnPage img' = existsOnPage img
    /\ filename img' = filename img.
Proof.
  intros HC. unfold addImageAsSubElement.
  destruct (getSubElement name img) as [r0|] eqn:Eg.
  - exists img, page. split; [reflexivity|]. split; [exact HC|].
    split; [congruence|]. repeat split; auto.
  - destruct HC as [Hs Hnd Hon Hdist Hsub Hcn Hmade].
    set (r := length (imageElements page)).
    destruct (getElement_ok pig (setSubElement name (Some r) img)) as (fig & Eq & Ec);
      [exact Hs|].
    rewrite Eq. cbn [bind set_element element].
    change (figureChildren (setSubElement name (Some r) img))
      with (figureChildren img) in Ec.
    eexists; eexists. split; [reflexivity|].
    assert (~ In r (figureChildren img)) as Hfresh.
    { intros H. rewrite Forall_forall in Hmade. specialize (Hmade r H). unfold r in Hmade. lia. }
    split; [|destruct name; cbn in *; repeat split; try discriminate; auto;
             intros []; cbn; congruence].
    constructor; cbn [set_element set_children setSubElement style existsOnPage
                      index thumbnail fullImage figureChildren element children];
      try assumption.
    + intros x. destruct name; cbn in Eg; rewrite ?Eg.
      * intros [= <-] Hf. apply Hfresh, Hsub. now right.
      * intros Ht [= <-]. apply Hfresh, Hsub. now left.
    + intros x. rewrite appendChild_In_iff, Ec, Hsub.
      destruct name; cbn in Eg; rewrite Eg; intuition congruence.
    + apply appendChild_NoDup. now rewrite Ec.
    + cbn. rewrite length_app. cbn. apply Forall_forall. intros x Hx.
      apply appendChild_In_iff in Hx. rewrite Ec in Hx.
      rewrite Forall_forall in Hmade. destruct Hx as [Hx| ->].
      * specialize (Hmade x Hx). lia.
      * unfold r. lia.
Qed.

(** The deferred callback on a consistent state: it returns, and when the
    image is still on the page both sub-elements are attached afterwards. *)
Lemma addSubElementsLater_ok (img : ProgressiveImage) (page : Page) :
  Consistent img page ->
  exists img' page',
    addSubElementsLater pig img page = Ok (img', page')
    /\ Consistent img' page'
    /\ (existsOnPage img = true -> thumbnail img' <> None /\ fullImage img' <> None).
Proof.
  intros HC. unfold addSubElementsLater.
  destruct (existsOnPage img) eqn:Ee; cbn [negb].
  - unfold addAllSubElements.
    destruct (addImageAsSubElement_ok Thumbnail (filename img)
                (thumbnailSize (settings pig)) (classNames_thumbnail pig) img page HC)
      as (i1 & p1 & E1 & HC1 & Ht & _).
    rewrite E1. cbn [bind fst snd].
    destruct (addImageAsSubElement_ok FullImage (filename i1)
                (getImageSize (settings pig) (lastWindowWidth pig)) ""%string i1 p1 HC1)
      as (i2 & p2 & E2 & HC2 & Hf & Hkeep & _).
    exists i2, p2. split; [exact E2|]. split; [exact HC2|].
    intros _. split; [exact (Hkeep Thumbnail Ht) | exact Hf].
  - exists img, page. split; [reflexivity|]. split; [exact HC | discriminate].
Qed.

End LifeCycle.

(** C7: from any consistent state of an image and the page, (1) [load], then
    [hide] before the deferred callback, then the callback: all three return,
    the callback changes nothing, and the image has neither thumbnail nor
    full image, its figure has no children and is not in the container;
    (2) after [hide], the [onload] notification of any image element returns
    without throwing, leaves the container's children as they are, so the
    figure stays out of the container and still has no children. *)
Theorem hide_cancels_attachment (pig : Pig) (img : ProgressiveImage) (page : Page) :
  Consistent img page ->
  (exists img1 page1 img2 page2,
      load pig img page = Ok (img1, page1)
      /\ hide pig img1 page1 = Ok (img2, page2)
      /\ addSubElementsLater pig img2 page2 = Ok (img2, page2)
      /\ thumbnail img2 = None
      /\ fullImage img2 = None
      /\ figureChildren img2 = []
      /\ ~ In (index img) (containerChildren page2))
  /\ (exists img' page',
        hide pig img page = Ok (img', page')
        /\ existsOnPage img' = false
        /\ thumbnail img' = None
        /\ fullImage img' = None
        /\ forall subElement,
             exists page'',
               imageLoaded pig subElement page' = Ok page''
               /\ containerChildren page'' = containerChildren page'
               /\ ~ In (index img) (containerChildren page'')
               /\ figureChildren img' = []
               /\ addSubElementsLater pig img' page'' = Ok (img', page'')).
Proof.
  intros HC. split.
  - destruct (load_ok pig img page HC) as (img1 & page1 & El & HC1 & _ & _ & _ & Ei1 & _).
    destruct (hide_ok pig img1 page1 HC1)
      as (img2 & page2 & Eh & Ee & Et & Ef & Ech & Ei2 & _ & Ecc & _).
    exists img1, page1, img2, page2.
    split; [exact El|]. split; [exact Eh|].
    split; [now apply addSubElementsLater_hidden|].
    repeat split; try assumption.
    rewrite Ecc, Ei1. apply filter_ne_not_In.
  - destruct (hide_ok pig img page HC)
      as (img' & page' & Eh & Ee & Et & Ef & Ech & Ei & _ & Ecc & _).
    exists img', page'. repeat split; try assumption.
    intros subElement.
    destruct (imageLoaded_ok pig subElement page') as (page'' & Eo & Ec & _).
    exists page''. split; [exact Eo|]. split; [exact Ec|].
    split; [rewrite Ec, Ecc; apply filter_ne_not_In|].
    split; [exact Ech | now apply addSubElementsLater_hidden].
Qed.

Lemma hide_cancels_attachment_witness :
  exists img' page',
    hide scenarioPig (fst attachedState) (snd attachedState) = Ok (img', page')
    /\ thumbnail img' = None
    /\ fullImage img' = None
    /\ exists page'',
         imageLoaded scenarioPig 0 page' = Ok page''
         /\ ~ In (index (fst attachedState)) (containerChildren page'').
Proof.
  destruct (hide_cancels_attachment scenarioPig (fst attachedState) (snd attachedState)
              (proj1 attachedState_consistent))
    as [_ (img' & page' & Eh & _ & Et & Ef & Hload)].
  exists img', page'. split; [exact Eh|]. split; [exact Et|]. split; [exact Ef|].
  destruct (Hload 0%nat) as (page'' & Eo & _ & Hn & _).
  exists page''. split; [exact Eo | exact Hn].
Defined.

(** * Further properties of the code *)

(** ** The layout keeps the collection and is idempotent *)

Lemma dropStyle_set_style (img : ProgressiveImage) (st : Style) :
  dropStyle (set_style img st) = dropStyle img.
Proof. reflexivity. Qed.

Lemma set_style_dropStyle (img : ProgressiveImage) (st : Style) :
  set_style (dropStyle img) st = set_style img st.
Proof. reflexivity. Qed.

Lemma spec_placeRow_restyles (s : Q) (tr : Transition) (h y : Q)
    (row : list ProgressiveImage) :
  forall x, Forall2 (fun a b => exists st, b = set_style a st)
                    row (spec_placeRow s tr h x y row).
Proof. induction row; intros x; simpl; constructor; eauto. Qed.

Lemma spec_layoutFrom_restyles (W : Z) (s m : Q) (tr : Transition)
    (rows : list (list ProgressiveImage)) :
  forall y, Forall2 (fun a b => exists st, b = set_style a st)
                    (concat rows) (concat (fst (spec_layoutFrom W s m tr y rows))).
Proof.
  induction rows as [|r rs IH]; intros y; simpl; [constructor|].
  apply Forall2_app; [apply spec_placeRow_restyles | apply IH].
Qed.

Lemma computeLayout_restyles (host : Host) (pig : Pig) :
  Forall2 (fun a b => exists st, b = set_style a st)
          (images pig) (images (fst (_computeLayout host pig))).
Proof.
  destruct (computeLayout_spec host pig) as [Ei _]. cbv zeta in Ei. rewrite Ei.
  unfold spec_layout.
  rewrite <- (packing_concat _ _ _ (spec_rows_packing
                (getMinAspectRatio (settings pig) (lastWindowWidth pig)) (images pig)))
    at 1.
  apply spec_layoutFrom_restyles.
Qed.

(** The fields [_computeLayout] does not assign. *)
Lemma computeLayout_frame (host : Host) (pig : Pig) :
  let p := fst (_computeLayout host pig) in
  _optimizedResize p = _optimizedResize pig
  /\ inRAF p = inRAF pig
  /\ latestYOffset p = latestYOffset pig
  /\ previousYOffset p = previousYOffset pig
  /\ lastWindowWidth p = lastWindowWidth pig
  /\ scrollDirection p = scrollDirection pig
  /\ settings p = settings pig
  /\ onScroll p = onScroll pig.
Proof.
  unfold _computeLayout. cbv zeta. destruct (negb _ && _); repeat split; reflexivity.
Qed.

(** X1: [_computeLayout] keeps the collection: the images after the pass are
    the images before it, in the same order, each with a new style and
    nothing else changed; no image is dropped, repeated or moved, and the
    pass leaves the scroll state, the settings and the listeners' fields of
    the grid alone. *)
Theorem computeLayout_keeps_collection (host : Host) (pig : Pig) :
  let p := fst (_computeLayout host pig) in
  Forall2 (fun before after => exists st, after = set_style before st)
          (images pig) (images p)
  /\ length (images p) = length (images pig)
  /\ map dropStyle (images p) = map dropStyle (images pig)
  /\ settings p = settings pig
  /\ latestYOffset p = latestYOffset pig
  /\ scrollDirection p = scrollDirection pig
  /\ inRAF p = inRAF pig
  /\ onScroll p = onScroll pig.
Proof.
  intros p. pose proof (computeLayout_restyles host pig) as F. fold p in F.
  destruct (computeLayout_frame host pig) as (_ & Hr & Hl & _ & _ & Hd & Hs & Ho).
  split; [exact F|]. split; [symmetry; eapply Forall2_length; eauto|].
  split; [|repeat split; assumption].
  clear - F. induction F as [|a b l l' [st ->] _ IH]; simpl; [reflexivity|].
  now rewrite IH.
Qed.

Lemma rowSum_map_dropStyle (row : list ProgressiveImage) :
  rowSum (map dropStyle row) = rowSum row.
Proof.
  unfold rowSum. generalize 0. induction row as [|x t IH]; intros a; simpl; auto.
Qed.

Lemma spec_rowsFrom_dropStyle (m : Q) (l : list ProgressiveImage) :
  forall cur sum,
    spec_rowsFrom m (map dropStyle cur) sum (map dropStyle l)
    = map (map dropStyle) (spec_rowsFrom m cur sum l).
Proof.
  induction l as [|x t IH]; intros cur sum; simpl.
  - destruct cur; reflexivity.
  - destruct (fgeb (fadd sum (aspectRatio x)) m).
    + simpl. rewrite map_app. f_equal. apply (IH [] 0).
    + rewrite <- IH, map_app. reflexivity.
Qed.

Lemma spec_placeRow_dropStyle (s : Q) (tr : Transition) (h y : Q)
    (row : list ProgressiveImage) :
  forall x, spec_placeRow s tr h x y (map dropStyle row) = spec_placeRow s tr h x y row.
Proof. induction row; intros x; simpl; [|rewrite IHrow]; reflexivity. Qed.

Lemma spec_layoutFrom_dropStyle (W : Z) (s m : Q) (tr : Transition)
    (rows : list (list ProgressiveImage)) :
  forall y, spec_layoutFrom W s m tr y (map (map dropStyle) rows)
            = spec_layoutFrom W s m tr y rows.
Proof.
  induction rows as [|r rs IH]; intros y; simpl; [reflexivity|].
  unfold spec_rowHeight, spec_rowRatio.
  rewrite rowSum_map_dropStyle, length_map, spec_placeRow_dropStyle, IH. reflexivity.
Qed.

(** The row-by-row layout does not look at the styles the images carry. *)
Lemma spec_layout_dropStyle (W : Z) (s m : Q) (tr : Transition)
    (l l' : list ProgressiveImage) :
  map dropStyle l = map dropStyle l' ->
  spec_layout W s m tr l = spec_layout W s m tr l'.
Proof.
  intros E. unfold spec_layout, spec_rows.
  rewrite <- (spec_layoutFrom_dropStyle W s m tr (spec_rowsFrom m [] 0 l)).
  rewrite <- (spec_layoutFrom_dropStyle W s m tr (spec_rowsFrom m [] 0 l')).
  rewrite <- !(spec_rowsFrom_dropStyle m _ [] 0). now rewrite E.
Qed.

Lemma Qneb_same (m : Q) : Qneb m m = false.
Proof. unfold Qneb. now rewrite (proj2 (Qeq_bool_iff m m) (Qeq_refl m)). Qed.

Lemma computeLayout_transitioning (host : Host) (pig : Pig) :
  let m := getMinAspectRatio (settings pig) (lastWindowWidth pig) in
  let changed := match minAspectRatio pig with
                 | Some old => Qneb old m
                 | None => false
                 end in
  isTransitioning (fst (_computeLayout host pig)) = isTransitioning pig || changed
  /\ minAspectRatioRequiresTransition (fst (_computeLayout host pig)) = changed
  /\ snd (_computeLayout host pig)
     = if negb (isTransitioning pig) && changed
       then [ClearTransitioning (transitionSpeed (settings pig) * 1.5)]
       else [].
Proof.
  unfold _computeLayout, _recomputeMinAspectRatio. cbv zeta.
  destruct (minAspectRatio pig) as [old|]; cbn [fst snd];
    [destruct (Qneb old _)|]; destruct (isTransitioning pig) eqn:E;
    cbn [negb andb orb fst snd set_minAspectRatio set_isTransitioning
         set_totalHeight set_images isTransitioning
         minAspectRatioRequiresTransition _getTransitionTimeout settings
         transitionSpeed];
    rewrite ?E; repeat split; simpl; rewrite ?E; reflexivity.
Qed.

(** X2: [_computeLayout] is idempotent: a second pass with the page
    unchanged assigns the same styles to the same images, computes the same
    total height, leaves the transitioning flag as it is and sets no timer. *)
Theorem computeLayout_idempotent (host : Host) (pig : Pig) :
  let once := _computeLayout host pig in
  let twice := _computeLayout host (fst once) in
  images (fst twice) = images (fst once)
  /\ totalHeight (fst twice) = totalHeight (fst once)
  /\ minAspectRatio (fst twice) = minAspectRatio (fst once)
  /\ isTransitioning (fst twice) = isTransitioning (fst once)
  /\ snd twice = [].
Proof.
  intros once twice.
  destruct (computeLayout_frame host pig) as (_ & _ & _ & _ & Hw & _ & Hs & _).
  fold once in Hw, Hs.
  pose proof (computeLayout_minAspectRatio host pig) as Hm. fold once in Hm.
  destruct (computeLayout_transitioning host (fst once)) as (Ht & _ & Htm).
  fold twice in Ht, Htm. rewrite Hm, Hs, Hw, Qneb_same in Ht, Htm.
  rewrite orb_false_r in Ht. rewrite andb_false_r in Htm.
  assert (_getTransitionString (fst twice) = _getTransitionString (fst once)) as Etr.
  { unfold _getTransitionString. rewrite Ht.
    destruct (computeLayout_frame host (fst once)) as (_ & _ & _ & _ & _ & _ & Hs2 & _).
    fold twice in Hs2. now rewrite Hs2. }
  destruct (computeLayout_spec host pig) as [Ei1 Et1].
  destruct (computeLayout_spec host (fst once)) as [Ei2 Et2].
  cbv zeta in Ei1, Et1, Ei2, Et2. fold once in Ei1, Et1, Ei2, Et2.
  fold twice in Ei2, Et2. rewrite Hs, Hw, Etr in Ei2, Et2.
  assert (map dropStyle (images (fst once)) = map dropStyle (images pig)) as Ed.
  { pose proof (computeLayout_restyles host pig) as F. fold once in F.
    clear - F. induction F as [|a b l l' [st ->] _ IH]; simpl; [reflexivity|].
    now rewrite IH. }
  rewrite (spec_layout_dropStyle _ _ _ _ _ _ Ed) in Ei2, Et2.
  split; [congruence|]. split; [congruence|].
  split; [|split; [exact Ht | exact Htm]].
  unfold twice. rewrite (computeLayout_minAspectRatio host (fst once)).
  now rewrite Hs, Hw, Hm.
Qed.

(** ** The rows on the page *)

Lemma spec_placeRow_uniform (s : Q) (tr : Transition) (h y : Q)
    (row : list ProgressiveImage) :
  forall x, rowUniform y (parseInt h) (spec_placeRow s tr h x y row).
Proof.
  unfold rowUniform. induction row as [|img t IH]; intros x; simpl; constructor.
  - eexists. split; [reflexivity|]. split; reflexivity.
  - apply IH.
Qed.

Lemma spec_layoutFrom_stacked (W : Z) (s m : Q) (tr : Transition)
    (rows : list (list ProgressiveImage)) :
  forall y, stacked s y (fst (spec_layoutFrom W s m tr y rows))
                    (fsub (snd (spec_layoutFrom W s m tr y rows)) s).
Proof.
  induction rows as [|r rs IH]; intros y; simpl; [reflexivity|].
  exists (parseInt (spec_rowHeight W s m r)). split; [apply spec_placeRow_uniform | apply IH].
Qed.

(** X3: the vertical cursor of the layout.  All images of a row carry the
    same [translateY] and the same stored height; the first row is at 0;
    the [translateY] of every next row is that of the row before it plus the
    sum of its stored height and the spacing, both sums rounded as the code
    rounds them; and [totalHeight] is the cursor after the last row minus the
    spacing.  (Nothing is said about the sign of the stored heights.) *)
Theorem layout_rows_stacked (host : Host) (pig : Pig) :
  exists total,
    totalHeight (fst (_computeLayout host pig)) = Some total
    /\ stacked (spaceBetweenImages (settings pig)) 0 (layoutRows host pig) total
    /\ concat (layoutRows host pig) = images (fst (_computeLayout host pig)).
Proof.
  destruct (computeLayout_spec host pig) as [_ Et]. cbv zeta in Et.
  eexists. split; [exact Et|]. split; [|apply layoutRows_concat].
  rewrite layoutRows_eq. apply spec_layoutFrom_stacked.
Qed.

(** ** The default policies *)

Lemma Qleb_true (x y : Q) : Qleb x y = true <-> x <= y.
Proof. apply Qle_bool_iff. Qed.

Lemma Qleb_false (x y : Q) : Qleb x y = false <-> y < x.
Proof.
  unfold Qleb. split; intros H.
  - apply Qnot_le_lt. intros L. apply Qle_bool_iff in L. congruence.
  - destruct (Qle_bool x y) eqn:E; [|reflexivity]. apply Qle_bool_iff in E. lra.
Qed.

Ltac split_Qleb :=
  repeat match goal with
         | |- context [Qleb ?a ?b] =>
             let E := fresh "E" in
             destruct (Qleb a b) eqn:E;
             [apply Qleb_true in E | apply Qleb_false in E]
         end.

(** X6: the default policies are step functions of the window width that
    never decrease: a wider window asks for a minimum row aspect ratio and an
    image size at least as large; the ratio is one of 2..6 and the size one
    of 100..500 for every width. *)
Theorem default_policies_monotone (w1 w2 : Q) :
  w1 <= w2 ->
  defaultGetMinAspectRatio w1 <= defaultGetMinAspectRatio w2
  /\ defaultGetImageSize w1 <= defaultGetImageSize w2
  /\ 2 <= defaultGetMinAspectRatio w1 <= 6
  /\ 100 <= defaultGetImageSize w1 <= 500.
Proof.
  intros H. unfold defaultGetMinAspectRatio, defaultGetImageSize.
  repeat split; split_Qleb; lra.
Qed.

Lemma default_policies_monotone_witness :
  defaultGetMinAspectRatio 700 <= defaultGetMinAspectRatio 1900
  /\ defaultGetImageSize 700 <= defaultGetImageSize 1900.
Proof.
  destruct (default_policies_monotone 700 1900) as (H1 & H2 & _).
  - discriminate.
  - split; assumption.
Defined.

(** ** The transition on a change of the minimum aspect ratio *)

Lemma spec_placeRow_transition (s : Q) (tr : Transition) (h y : Q)
    (row : list ProgressiveImage) :
  forall x, Forall (fun img => styleTransition img = Some tr) (spec_placeRow s tr h x y row).
Proof. induction row; intros x; simpl; constructor; [reflexivity | apply IHrow]. Qed.

Lemma computeLayout_transitions (host : Host) (pig : Pig) :
  Forall (fun img => styleTransition img
                     = Some (_getTransitionString (fst (_computeLayout host pig))))
         (images (fst (_computeLayout host pig))).
Proof.
  rewrite <- layoutRows_concat, layoutRows_eq.
  apply Forall_concat. apply spec_layoutFrom_Forall.
  apply Forall_forall. intros r _ y. apply spec_placeRow_transition.
Qed.

Lemma computeLayout_transition_facts (host : Host) (pig : Pig) :
  let m := getMinAspectRatio (settings pig) (lastWindowWidth pig) in
  let changed := match minAspectRatio pig with
                 | Some old => Qneb old m
                 | None => false
                 end in
  let p := fst (_computeLayout host pig) in
  isTransitioning p = isTransitioning pig || changed
  /\ snd (_computeLayout host pig)
     = (if negb (isTransitioning pig) && changed
        then [ClearTransitioning (transitionSpeed (settings pig) * 1.5)]
        else [])
  /\ Forall (fun img =>
               styleTransition img
               = Some (if isTransitioning p
                       then TransformEase (transitionSpeed (settings pig) / 1000)
                       else TransitionNone))
            (images p).
Proof.
  intros m changed p.
  destruct (computeLayout_transitioning host pig) as (Ht & _ & Htm).
  split; [exact Ht|]. split; [exact Htm|].
  pose proof (computeLayout_transitions host pig) as F. fold p in F.
  unfold _getTransitionString in F.
  destruct (computeLayout_frame host pig) as (_ & _ & _ & _ & _ & _ & Hs & _).
  fold p in Hs. rewrite Hs in F.
  revert F. apply Forall_impl. intros img ->. destruct (isTransitioning p); reflexivity.
Qed.

(** X7: [_computeLayout] starts a transition exactly when it is not in one
    and the minimum aspect ratio differs from the one of the previous pass
    (never on the first pass): it then sets the flag and one timer of
    1.5 x transitionSpeed ms; in every case each image is given
    'transitionSpeed/1000 s transform ease' when the flag is set after the
    pass and 'none' otherwise. *)
Theorem computeLayout_transition_rule (host : Host) (pig : Pig) :
  let m := getMinAspectRatio (settings pig) (lastWindowWidth pig) in
  let changed := match minAspectRatio pig with
                 | Some old => Qneb old m
                 | None => false
                 end in
  let p := fst (_computeLayout host pig) in
  isTransitioning p = isTransitioning pig || changed
  /\ snd (_computeLayout host pig)
     = (if negb (isTransitioning pig) && changed
        then [ClearTransitioning (transitionSpeed (settings pig) * 1.5)]
        else [])
  /\ Forall (fun img =>
               styleTransition img
               = Some (if isTransitioning p
                       then TransformEase (transitionSpeed (settings pig) / 1000)
                       else TransitionNone))
            (images p).
Proof. exact (computeLayout_transition_facts host pig). Qed.

(** ** The collection built by the constructor *)

Lemma parseImageData_from (data : list (Q * string)) :
  forall k acc,
    forEachFrom (fun progressiveImages image i =>
                   progressiveImages ++ [newProgressiveImage image i]) data k acc
    = acc ++ map (fun p => newProgressiveImage (snd p) (fst p))
                 (combine (seq k (length data)) data).
Proof.
  induction data as [|d t IH]; intros k acc; simpl.
  - now rewrite app_nil_r.
  - rewrite IH, <- app_assoc. reflexivity.
Qed.

Lemma built_images (data : list (Q * string)) :
  forall k,
    let imgs := map (fun p => newProgressiveImage (snd p) (fst p))
                    (combine (seq k (length data)) data) in
    length imgs = length data
    /\ (forall i d, nth_error data i = Some d ->
          nth_error imgs i = Some (newProgressiveImage d (k + i)))
    /\ map aspectRatio imgs = map fst data
    /\ map filename imgs = map snd data
    /\ map index imgs = seq k (length data)
    /\ Forall (fun img => existsOnPage img = false /\ style img = None
                          /\ element img = None /\ thumbnail img = None
                          /\ fullImage img = None) imgs.
Proof.
  induction data as [|d t IH]; intros k; cbv zeta.
  - repeat split; try reflexivity; [intros [|i]; discriminate | constructor].
  - destruct (IH (S k)) as (Hl & Hn & Ha & Hf & Hi & Hall).
    cbn [length seq combine map]. repeat split.
    + now rewrite Hl.
    + intros [|i] d'; cbn [nth_error].
      * intros [= <-]. now rewrite Nat.add_0_r.
      * intros Hd. rewrite (Hn i d' Hd). do 2 f_equal. lia.
    + now rewrite Ha.
    + now rewrite Hf.
    + now rewrite Hi.
    + constructor; [repeat split | exact Hall].
Qed.

(** X9: the constructor keeps the order of the input records: the result of
    [_parseImageData] has one image per record, the image at position i is
    made from record i and carries the index i, is off the page and has no
    style, figure or sub-element yet. *)
Theorem parseImageData_positions (data : list (Q * string)) :
  length (_parseImageData data) = length data
  /\ (forall i d, nth_error data i = Some d ->
        nth_error (_parseImageData data) i = Some (newProgressiveImage d i))
  /\ map aspectRatio (_parseImageData data) = map fst data
  /\ map filename (_parseImageData data) = map snd data
  /\ map index (_parseImageData data) = seq 0 (length data)
  /\ Forall (fun img => existsOnPage img = false /\ style img = None
                        /\ element img = None /\ thumbnail img = None
                        /\ fullImage img = None) (_parseImageData data).
Proof.
  unfold _parseImageData, forEach. rewrite parseImageData_from. cbn [app].
  exact (built_images data 0).
Qed.

(** ** The window of the visibility pass *)







(** ** A pass that throws *)

Lemma scrollHandler_images (host : Host) (st : Pig * Page) :
  images (fst (scrollHandler host st)) = images (fst st).
Proof. apply (scrollHandler_pig host st). Qed.

Lemma animationFrame_scroll (host : Host) (st : Pig * Page) :
  frameRequests (snd st) = (if inRAF (fst st) then [ScrollFrame] else []) ->
  animationFrame host st
  = if inRAF (fst st)
    then scrollFrame host (fst st, set_frameRequests (snd st) [])
    else (fst st, set_frameRequests (snd st) []).
Proof.
  intros G. unfold animationFrame. rewrite G.
  destruct (inRAF (fst st)); reflexivity.
Qed.

Lemma visitImages_throws (lower upper : Q) (imgs : list ProgressiveImage) :
  Exists (fun img => style img = None) imgs ->
  visitImages lower upper imgs = None.
Proof.
  induction 1 as [img t H|img t _ IH]; simpl.
  - now rewrite H.
  - destruct (style img); [now rewrite IH | reflexivity].
Qed.

Lemma doLayout_throws (host : Host) (pig : Pig) :
  Exists (fun img => style img = None) (images pig) ->
  _doLayout host pig = None.
Proof. intros H. unfold _doLayout. now rewrite visitImages_throws. Qed.

Lemma stuck_forever (events : list ScrollEvent) :
  forall st,
    inRAF (fst st) = true ->
    frameRequests (snd st) = [] ->
    let st' := runScrollEvents events st in
    inRAF (fst st') = true
    /\ frameRequests (snd st') = []
    /\ passes (snd st') = passes (snd st).
Proof.
  induction events as [|e es IH]; intros st Hi Hf; cbv zeta; [auto|].
  cbn [runScrollEvents fold_left]. fold (runScrollEvents es (runScrollEvent st e)).
  assert (inRAF (fst (runScrollEvent st e)) = true
          /\ frameRequests (snd (runScrollEvent st e)) = []
          /\ passes (snd (runScrollEvent st e)) = passes (snd st)) as (Hi' & Hf' & Hp').
  { destruct e as [host|host]; cbn [runScrollEvent].
    - unfold scrollHandler. cbv zeta. cbn [set_scroll inRAF]. rewrite Hi.
      cbn [negb fst snd inRAF]. auto.
    - unfold animationFrame. rewrite Hf. cbn. auto. }
  destruct (IH _ Hi' Hf') as (A & B & C). rewrite C, Hp'. auto.
Qed.

(** X13: a pass that throws blocks the scroll handler for good.  If an image
    has no style when the frame callback runs, [_doLayout] throws before
    [inRAF] is reset; the flag stays set with no frame requested, and from
    then on no scroll notification requests a frame and no pass runs. *)
Theorem throwing_pass_blocks_scrolling (notified painted : Host)
    (events : list ScrollEvent) (st : Pig * Page) :
  frameRequests (snd st) = (if inRAF (fst st) then [ScrollFrame] else []) ->
  Exists (fun img => style img = None) (images (fst st)) ->
  let st1 := animationFrame painted (scrollHandler notified st) in
  let st2 := runScrollEvents events st1 in
  passes (snd st1) = passes (snd st) ++ [None]
  /\ inRAF (fst st1) = true
  /\ frameRequests (snd st1) = []
  /\ passes (snd st2) = passes (snd st1)
  /\ frameRequests (snd st2) = []
  /\ inRAF (fst st2) = true.
Proof.
  intros G Hex st1 st2.
  destruct (scrollHandler_guard notified st G) as (Ei & Ef & Ep).
  assert (passes (snd st1) = passes (snd st) ++ [None]
          /\ inRAF (fst st1) = true /\ frameRequests (snd st1) = []) as (H1 & H2 & H3).
  { unfold st1. rewrite animationFrame_scroll by now rewrite Ei, Ef.
    rewrite Ei. unfold scrollFrame. cbn [fst snd].
    rewrite doLayout_throws by now rewrite scrollHandler_images.
    cbn. rewrite Ep. auto. }
  destruct (stuck_forever events st1 H2 H3) as (A & B & C).
  repeat split; assumption.
Qed.

Lemma throwing_pass_blocks_scrolling_witness :
  let st1 := animationFrame (scrolledHost 100)
               (scrollHandler (scrolledHost 100) (scenarioPig, emptyPage)) in
  passes (snd st1) = [] ++ [None] /\ inRAF (fst st1) = true.
Proof.
  assert (Exists (fun img => style img = None) (images scenarioPig)) as H
    by (left; reflexivity).
  destruct (throwing_pass_blocks_scrolling (scrolledHost 100) (scrolledHost 100) []
              (scenarioPig, emptyPage) eq_refl H) as (H1 & H2 & _).
  split; [exact H1 | exact H2].
Defined.

(** ** Resize events and the listeners of [enable] *)

Lemma resizeEvent_loop_running (listeners : list nat) :
  forall (i : nat) (st : Pig * Page),
    _running (_optimizedResize (fst st)) = true ->
    forEachFrom (fun st _ _ => OptimizedResize_resize st) listeners i st = st.
Proof.
  induction listeners as [|f fs IH]; intros i st R; cbn [forEachFrom]; [reflexivity|].
  unfold OptimizedResize_resize at 2. rewrite R. cbn [negb]. now apply IH.
Qed.

Lemma resizeEvent_first (st : Pig * Page) :
  resizeListeners (snd st) <> [] ->
  _running (_optimizedResize (fst st)) = false ->
  resizeEvent st
  = (set_optimizedResize (fst st)
       {| _callbacks := _callbacks (_optimizedResize (fst st)); _running := true |},
     requestAnimationFrame ResizeFrame (snd st)).
Proof.
  intros N R. unfold resizeEvent, forEach.
  destruct (resizeListeners (snd st)) as [|f fs]; [congruence|].
  cbn [forEachFrom]. unfold OptimizedResize_resize at 2. rewrite R. cbn [negb].
  now apply resizeEvent_loop_running.
Qed.

Lemma resizeEvent_running (st : Pig * Page) :
  _running (_optimizedResize (fst st)) = true -> resizeEvent st = st.
Proof. intros R. now apply resizeEvent_loop_running. Qed.

Lemma scrollHandler_frame (host : Host) (st : Pig * Page) :
  let st' := scrollHandler host st in
  _optimizedResize (fst st') = _optimizedResize (fst st)
  /\ onScroll (fst st') = onScroll (fst st)
  /\ settings (fst st') = settings (fst st)
  /\ scrollListeners (snd st') = scrollListeners (snd st)
  /\ resizeListeners (snd st') = resizeListeners (snd st)
  /\ nextFunction (snd st') = nextFunction (snd st)
  /\ timeouts (snd st') = timeouts (snd st)
  /\ passes (snd st') = passes (snd st).
Proof.
  unfold scrollHandler. cbv zeta. destruct (negb _); repeat split; reflexivity.
Qed.

Lemma scrollHandler_inRAF (host : Host) (st : Pig * Page) :
  inRAF (fst (scrollHandler host st)) = true.
Proof.
  unfold scrollHandler. cbv zeta.
  destruct (inRAF (set_scroll _ _ _ _)) eqn:E; cbn [negb fst]; [exact E | reflexivity].
Qed.

Lemma enable_effect (host : Host) (st : Pig * Page) :
  let n := nextFunction (snd st) in
  let r := _optimizedResize (fst st) in
  let st' := enable host st in
  onScroll (fst st') = Some n
  /\ scrollListeners (snd st') = addEventListener n (scrollListeners (snd st))
  /\ _callbacks (_optimizedResize (fst st')) = _callbacks r ++ [S n]
  /\ _running (_optimizedResize (fst st')) = _running r
  /\ resizeListeners (snd st')
     = match _callbacks r with
       | [] => addEventListener (S (S n)) (resizeListeners (snd st))
       | _ :: _ => resizeListeners (snd st)
       end
  /\ nextFunction (snd st')
     = match _callbacks r with [] => S (S (S n)) | _ :: _ => S (S n) end
  /\ Forall (fun img => style img <> None) (images (fst st'))
  /\ inRAF (fst st') = true
  /\ exists pass, passes (snd st') = passes (snd st) ++ [Some pass]
       /\ containerHeight pass = totalHeight (fst st').
Proof.
  cbv zeta. unfold enable. cbv zeta.
  match goal with
  | |- context [scrollHandler host ?a] =>
      pose proof (scrollHandler_inRAF host a) as Hi;
      destruct (scrollHandler_frame host a) as (Sr & So & _ & Ss & Sl & Sn & _ & Sp);
      generalize dependent (scrollHandler host a)
  end.
  intros st0 Hi Sr So Ss Sl Sn Sp.
  cbn [fst snd set_onScroll onScroll _optimizedResize newFunction set_nextFunction
       set_scrollListeners scrollListeners resizeListeners nextFunction passes]
    in Sr, So, Ss, Sl, Sn, Sp.
  pose proof (computeLayout_styled host (fst st0)) as Hs.
  destruct (doLayout_total host _ Hs) as (cs & _ & Hd).
  destruct (computeLayout_frame host (fst st0)) as (Fr & Fi & _ & _ & _ & _ & _ & Fo).
  generalize dependent (_computeLayout host (fst st0)). intros laid Hs Hd Fr Fi Fo.
  rewrite Hd. unfold OptimizedResize_add. cbn [fst snd].
  rewrite Fr, Sr.
  destruct (_callbacks (_optimizedResize (fst st))) as [|c cs'] eqn:Ec;
    cbn [fst snd set_optimizedResize onScroll _optimizedResize _callbacks _running
         images inRAF totalHeight newFunction set_nextFunction set_resizeListeners
         set_passes set_timeouts set_scrollListeners scrollListeners resizeListeners
         nextFunction passes containerHeight];
    rewrite ?Fo, ?So, ?Ss, ?Sl, ?Sn, ?Sp, ?Fi, ?Hi;
    (repeat split; try assumption; try reflexivity);
    eexists; (split; [reflexivity|reflexivity]).
Qed.

Lemma addEventListener_fresh (f : nat) (listeners : list nat) :
  Forall (fun g => (g < f)%nat) listeners ->
  addEventListener f listeners = listeners ++ [f].
Proof.
  intros H. unfold addEventListener.
  assert (existsb (Nat.eqb f) listeners = false) as ->; [|reflexivity].
  induction H as [|g t Hg _ IH]; simpl; [reflexivity|].
  destruct (Nat.eqb_spec f g); [lia | exact IH].
Qed.

Lemma removeEventListener_last (f : nat) (listeners : list nat) :
  Forall (fun g => (g < f)%nat) listeners ->
  removeEventListener f (listeners ++ [f]) = listeners.
Proof.
  intros H. unfold removeEventListener. rewrite filter_app.
  fold (removeEventListener f listeners). rewrite removeEventListener_fresh by exact H.
  simpl. rewrite Nat.eqb_refl. simpl. apply app_nil_r.
Qed.

Lemma disable_scroll_listeners (st : Pig * Page) :
  scrollListeners (snd (disable st))
  = match onScroll (fst st) with
    | Some f => removeEventListener f (scrollListeners (snd st))
    | None => scrollListeners (snd st)
    end.
Proof. unfold disable, OptimizedResize_disable. destruct (onScroll (fst st)); reflexivity. Qed.

(** X16: [disable] undoes the scroll listener of [enable].  When the scroll
    listeners of the page are functions created before, [enable] appends
    exactly one listener, the handler it stores in [onScroll], and [disable]
    removes exactly that one: the list is as before [enable]. *)
Theorem enable_disable_scroll_listeners (host : Host) (st : Pig * Page) :
  Forall (fun g => (g < nextFunction (snd st))%nat) (scrollListeners (snd st)) ->
  scrollListeners (snd (enable host st))
  = scrollListeners (snd st) ++ [nextFunction (snd st)]
  /\ onScroll (fst (enable host st)) = Some (nextFunction (snd st))
  /\ scrollListeners (snd (disable (enable host st))) = scrollListeners (snd st).
Proof.
  intros H.
  destruct (enable_effect host st) as (Ho & Hs & _).
  rewrite addEventListener_fresh in Hs by exact H.
  split; [exact Hs|]. split; [exact Ho|].
  rewrite disable_scroll_listeners, Ho, Hs. now apply removeEventListener_last.
Qed.

Lemma enable_disable_scroll_listeners_witness :
  scrollListeners (snd (disable (enable scenarioHost (scenarioPig, emptyPage)))) = [].
Proof.
  apply (enable_disable_scroll_listeners scenarioHost (scenarioPig, emptyPage)).
  constructor.
Defined.

(** X17: [enable] called twice keeps one handler that [disable] cannot reach.
    Each [enable] creates a new handler and overwrites [onScroll]; [disable]
    removes the handler stored last, so after enable, enable, disable the
    handler of the first [enable] is still attached to the scroller. *)
Theorem enable_twice_keeps_first_handler (first second : Host) (st : Pig * Page) :
  Forall (fun g => (g < nextFunction (snd st))%nat) (scrollListeners (snd st)) ->
  let st2 := enable second (enable first st) in
  length (scrollListeners (snd st2)) = S (S (length (scrollListeners (snd st))))
  /\ scrollListeners (snd (disable st2))
     = scrollListeners (snd st) ++ [nextFunction (snd st)].
Proof.
  intros H. cbv zeta.
  destruct (enable_effect first st) as (_ & Hs & _ & _ & _ & Hn & _).
  rewrite addEventListener_fresh in Hs by exact H.
  set (st1 := enable first st) in *.
  assert (Forall (fun g => (g < nextFunction (snd st1))%nat) (scrollListeners (snd st1)))
    as H1.
  { rewrite Hs. apply Forall_app. split.
    - eapply Forall_impl; [|exact H]. intros g Hg. cbv beta in Hg |- *. rewrite Hn.
      destruct (_callbacks _); lia.
    - constructor; [|constructor]. rewrite Hn. destruct (_callbacks _); lia. }
  destruct (enable_effect second st1) as (Ho & Hs2 & _).
  rewrite addEventListener_fresh in Hs2 by exact H1.
  split.
  - rewrite Hs2, Hs, !length_app. simpl. lia.
  - rewrite disable_scroll_listeners, Ho, Hs2, removeEventListener_last by exact H1.
    exact Hs.
Qed.

Lemma enable_twice_keeps_first_handler_witness :
  scrollListeners
    (snd (disable (enable scenarioHost (enable scenarioHost (scenarioPig, emptyPage)))))
  = [] ++ [0%nat].
Proof.
  apply (enable_twice_keeps_first_handler scenarioHost scenarioHost (scenarioPig, emptyPage)).
  constructor.
Defined.

(** ** [hide] and [load] called again *)

Section LifeCycleSteps.
Variable pig : Pig.

Lemma writeStyles_inv (img img' : ProgressiveImage) :
  writeStyles img = Ok img' ->
  exists st fig fig',
    style img = Some st /\ element img = Some fig
    /\ img' = set_element img fig'
    /\ figureStyle fig' = Some st /\ children fig' = children fig
    /\ figureClassName fig' = figureClassName fig
    /\ hasClickListener fig' = hasClickListener fig.
Proof.
  unfold writeStyles. destruct (style img) as [st|]; [|discriminate].
  destruct (element img) as [fig|]; [|discriminate].
  intros [= <-]. exists st, fig. eexists. repeat split.
Qed.

Lemma getElement_has (img : ProgressiveImage) (fig : Figure) :
  element img = Some fig -> getElement pig img = Ok img.
Proof. intros E. unfold getElement. now rewrite E. Qed.

Lemma getElement_inv (img img' : ProgressiveImage) :
  getElement pig img = Ok img' ->
  exists fig, img' = set_element img fig /\ element img' = Some fig
              /\ (element img <> None -> element img = Some fig).
Proof.
  unfold getElement. destruct (element img) as [fig|] eqn:E.
  - intros [= <-]. exists fig. split; [symmetry; now apply set_element_same|]. auto.
  - intros H. apply writeStyles_inv in H.
    destruct H as (st & fig & fig' & _ & _ & -> & _). exists fig'.
    repeat split. intros N. congruence.
Qed.

Lemma removeSubElement_inv (name : SubElementName) (img img' : ProgressiveImage)
    (page page' : Page) :
  removeSubElement pig name img page = Ok (img', page') ->
  getSubElement name img' = None
  /\ (forall other, other <> name -> getSubElement other img' = getSubElement other img)
  /\ (element img <> None -> element img' <> None)
  /\ existsOnPage img' = existsOnPage img
  /\ index img' = index img
  /\ style img' = style img
  /\ containerChildren page' = containerChildren page
  /\ timeouts page' = timeouts page
  /\ imageElements page'
     = match getSubElement name img with
       | Some r => updateAt r clearSrc (imageElements page)
       | None => imageElements page
       end.
Proof.
  unfold removeSubElement. destruct (getSubElement name img) as [r|] eqn:S.
  - destruct (getElement pig img) as [i1|] eqn:G; [|discriminate]. cbn [bind].
    destruct (getElement_inv _ _ G) as (fig & -> & E & _).
    cbn [element set_element].
    destruct (removeChild r (children fig)); [|discriminate].
    intros [= <- <-]. repeat split; try (destruct name; reflexivity).
    + intros other N. destruct other, name; try congruence; reflexivity.
    + intros _. destruct name; discriminate.
  - intros [= <- <-]. repeat split; auto. 
Qed.

Lemma hide_inv (img img' : ProgressiveImage) (page page' : Page) :
  hide pig img page = Ok (img', page') ->
  existsOnPage img' = false
  /\ thumbnail img' = None
  /\ fullImage img' = None
  /\ element img' <> None
  /\ index img' = index img
  /\ style img' = style img
  /\ timeouts page' = timeouts page
  /\ imageElements page'
     = match fullImage img with
       | Some r => updateAt r clearSrc
       | None => fun l => l
       end (match thumbnail img with
            | Some r => updateAt r clearSrc (imageElements page)
            | None => imageElements page
            end).
Proof.
  unfold hide.
  destruct (getElement pig img) as [i1|] eqn:G1; [|discriminate]. cbn [bind].
  destruct (getElement_inv _ _ G1) as (fig1 & -> & E1 & _).
  unfold removeAllSubElements.
  destruct (removeSubElement pig Thumbnail (set_element img fig1) page)
    as [[ia pa]|] eqn:Ra; [|discriminate]. cbn [bind fst snd].
  destruct (removeSubElement pig FullImage ia pa) as [[ib pb]|] eqn:Rb; [|discriminate].
  cbn [bind fst snd].
  destruct (removeSubElement_inv _ _ _ _ _ Ra)
    as (At & Ao & Ae & Ax & Ai & As & Ac & Am & Ap).
  destruct (removeSubElement_inv _ _ _ _ _ Rb)
    as (Bt & Bo & Be & Bx & Bi & Bs & Bc & Bm & Bp).
  specialize (Ao FullImage ltac:(discriminate)).
  specialize (Bo Thumbnail ltac:(discriminate)).
  cbn [getSubElement set_element thumbnail fullImage element existsOnPage index style]
    in At, Ao, Ae, Ax, Ai, As, Ap, Bt, Bo, Bx, Bi, Bs, Bp.
  assert (element ib <> None) as Eb by (apply Be, Ae; discriminate).
  assert (imageElements pb
          = match fullImage img with
            | Some r => updateAt r clearSrc
            | None => fun l => l
            end (match thumbnail img with
                 | Some r => updateAt r clearSrc (imageElements page)
                 | None => imageElements page
                 end)) as Ep.
  { rewrite Bp, Ao, Ap. destruct (fullImage img); reflexivity. }
  destruct (existsOnPage ib) eqn:X.
  - destruct (getElement pig ib) as [ic|] eqn:G2; [|discriminate]. cbn [bind].
    destruct (getElement_inv _ _ G2) as (fig2 & -> & _ & _).
    destruct (removeChild _ _); [|discriminate].
    intros [= <- <-]. cbn. rewrite Bo, At, Bt, Bi, Ai, Bs, As. rewrite Bm, Am.
    repeat split; try discriminate. exact Ep.
  - cbn [bind fst snd]. intros [= <- <-]. cbn. rewrite Bo, At, Bt, Bi, Ai, Bs, As, Bm, Am.
    repeat split; try assumption.
Qed.

Lemma hide_quiet (img : ProgressiveImage) (page : Page) :
  existsOnPage img = false ->
  thumbnail img = None ->
  fullImage img = None ->
  element img <> None ->
  hide pig img page = Ok (img, page).
Proof.
  intros X T F E. destruct (element img) as [fig|] eqn:Ef; [|congruence].
  unfold hide. rewrite (getElement_has _ _ Ef). cbn [bind].
  unfold removeAllSubElements, removeSubElement. cbn [getSubElement].
  rewrite T. cbn [bind fst snd]. rewrite F. cbn [bind fst snd]. rewrite X.
  cbn [bind fst snd]. destruct img; cbn in X |- *. now subst.
Qed.

End LifeCycleSteps.

(** X18: [hide] is idempotent.  Whenever a call of [hide] returns, the image
    is off the page with no thumbnail and no full image, and a second [hide]
    returns too and changes neither the image nor the page: nothing is
    removed from the container a second time. *)
Theorem hide_idempotent (pig : Pig) (img img' : ProgressiveImage) (page page' : Page) :
  hide pig img page = Ok (img', page') ->
  existsOnPage img' = false
  /\ thumbnail img' = None
  /\ fullImage img' = None
  /\ hide pig img' page' = Ok (img', page').
Proof.
  intros H. destruct (hide_inv pig _ _ _ _ H) as (X & T & F & E & _).
  repeat split; try assumption. now apply hide_quiet.
Qed.

Lemma hide_idempotent_witness :
  let st := returned (hide scenarioPig (fst attachedState) (snd attachedState))
                     attachedState in
  hide scenarioPig (fst st) (snd st) = Ok (fst st, snd st).
Proof.
  cbv zeta.
  assert (hide scenarioPig (fst attachedState) (snd attachedState)
          = Ok (fst (returned (hide scenarioPig (fst attachedState) (snd attachedState))
                              attachedState),
                snd (returned (hide scenarioPig (fst attachedState) (snd attachedState))
                              attachedState))) as E
    by (vm_compute; reflexivity).
  exact (proj2 (proj2 (proj2 (hide_idempotent scenarioPig _ _ _ _ E)))).
Defined.

Lemma nth_error_updateAt {A : Type} (f : A -> A) (l : list A) :
  forall i r,
    nth_error (updateAt i f l) r
    = if Nat.eqb r i then option_map f (nth_error l r) else nth_error l r.
Proof.
  induction l as [|x t IH]; intros i r.
  - destruct i, r; simpl; try reflexivity; now destruct (Nat.eqb _ _).
  - destruct i as [|i], r as [|r]; simpl; try reflexivity. apply IH.
Qed.

(** X19: [hide] stops the downloads of the image and of no other.  When
    [hide] returns, the [src] of the thumbnail and of the full image of that
    image is empty and their class names are kept; every other [Image]
    element of the page is as it was, and no timer is set. *)
Theorem hide_clears_own_sources (pig : Pig) (img img' : ProgressiveImage)
    (page page' : Page) (r : nat) :
  hide pig img page = Ok (img', page') ->
  nth_error (imageElements page') r
  = (if isSubElementOf img r
     then option_map clearSrc (nth_error (imageElements page) r)
     else nth_error (imageElements page) r)
  /\ length (imageElements page') = length (imageElements page)
  /\ timeouts page' = timeouts page.
Proof.
  intros H. destruct (hide_inv pig _ _ _ _ H) as (_ & _ & _ & _ & _ & _ & Ht & Hp).
  split; [|split; [|exact Ht]].
  - rewrite Hp. unfold isSubElementOf.
    destruct (fullImage img) as [f|], (thumbnail img) as [t|];
      rewrite ?nth_error_updateAt; cbn [orb];
      repeat (destruct (Nat.eqb _ _); cbn [orb]); try reflexivity.
    destruct (nth_error (imageElements page) r); reflexivity.
  - rewrite Hp. destruct (fullImage img), (thumbnail img);
      rewrite ?length_updateAt; reflexivity.
Qed.

Lemma hide_clears_own_sources_witness :
  let st := returned (hide scenarioPig (fst attachedState) (snd attachedState))
                     attachedState in
  map src (imageElements (snd attachedState))
  = [SrcFor "a" 20; SrcFor "a" 250]
  /\ nth_error (imageElements (snd st)) 1
     = option_map clearSrc (nth_error (imageElements (snd attachedState)) 1).
Proof.
  cbv zeta.
  assert (hide scenarioPig (fst attachedState) (snd attachedState)
          = Ok (fst (returned (hide scenarioPig (fst attachedState) (snd attachedState))
                              attachedState),
                snd (returned (hide scenarioPig (fst attachedState) (snd attachedState))
                              attachedState))) as E
    by (vm_compute; reflexivity).
  split; [vm_compute; reflexivity|].
  exact (proj1 (hide_clears_own_sources scenarioPig _ _ _ _ 1%nat E)).
Defined.

Section LoadSteps.
Variable pig : Pig.

Lemma addImageAsSubElement_inv (name : SubElementName) (file : string) (size : Q)
    (classname : string) (img img' : ProgressiveImage) (page page' : Page) :
  addImageAsSubElement pig name file size classname img page = Ok (img', page') ->
  getSubElement name img' <> None
  /\ (forall other, getSubElement other img <> None -> getSubElement other img' <> None)
  /\ existsOnPage img' = existsOnPage img
  /\ filename img' = filename img
  /\ index img' = index img
  /\ style img' = style img
  /\ containerChildren page' = containerChildren page
  /\ timeouts page' = timeouts page
  /\ (length (imageElements page) <= length (imageElements page'))%nat.
Proof.
  unfold addImageAsSubElement. destruct (getSubElement name img) as [r|] eqn:S.
  - intros [= <- <-]. repeat split; [congruence | auto | lia].
  - destruct (getElement pig _) as [i1|] eqn:G; [|discriminate]. cbn [bind].
    destruct (getElement_inv pig _ _ G) as (fig & -> & _ & _).
    cbn [element set_element]. intros [= <- <-]. repeat split.
    + destruct name; discriminate.
    + intros other N. destruct other, name; cbn in *; congruence.
    + cbn [imageElements set_imageElements]. rewrite length_app. lia.
Qed.

Lemma appendChild_idempotent (node : nat) (nodes : list nat) :
  appendChild node (appendChild node nodes) = appendChild node nodes.
Proof.
  unfold appendChild. rewrite filter_app. cbn [filter]. rewrite Nat.eqb_refl.
  cbn [negb]. rewrite app_nil_r. f_equal.
  induction nodes as [|n t IH]; [reflexivity|]. cbn [filter].
  destruct (negb (Nat.eqb node n)) eqn:E; [|exact IH].
  cbn [filter]. rewrite E. now rewrite IH.
Qed.

Lemma load_inv (img img' : ProgressiveImage) (page page' : Page) :
  load pig img page = Ok (img', page') ->
  exists st fig,
    style img = Some st
    /\ img' = set_element (set_existsOnPage img true) fig
    /\ figureStyle fig = Some st
    /\ (forall old, element img = Some old ->
          children fig = children old
          /\ figureClassName fig = figureClassName old
          /\ hasClickListener fig = hasClickListener old)
    /\ page' = setTimeout (AddSubElements (index img) 100)
                 (set_containerChildren page
                    (appendChild (index img) (containerChildren page))).
Proof.
  unfold load, _updateStyles.
  destruct (getElement pig (set_existsOnPage img true)) as [i1|] eqn:G1; [|discriminate].
  cbn [bind].
  destruct (getElement_inv pig _ _ G1) as (fig1 & -> & _ & K1).
  destruct (writeStyles _) as [i2|] eqn:W; [|discriminate]. cbn [bind].
  destruct (writeStyles_inv _ _ W) as (st & fig & fig2 & Hs & He & -> & Hf & Hc & Hn & Hl).
  cbn [element set_element style] in Hs, He. injection He as <-.
  rewrite getElement_present. cbn [bind index set_element set_existsOnPage].
  intros [= <- <-]. exists st, fig2. repeat split; try assumption;
    cbn [element set_existsOnPage] in K1;
    (assert (Some old = Some fig1) as [= ->] by (rewrite <- H; apply K1; congruence));
    assumption.
Qed.

Lemma load_again (img : ProgressiveImage) (page : Page) (st : Style) (fig : Figure) :
  existsOnPage img = true ->
  style img = Some st ->
  element img = Some fig ->
  figureStyle fig = Some st ->
  load pig img page
  = Ok (img, setTimeout (AddSubElements (index img) 100)
               (set_containerChildren page
                  (appendChild (index img) (containerChildren page)))).
Proof.
  intros X S E F. destruct img as [x a f i s e t u]. cbn in X, S, E. subst x s e.
  destruct fig as [cn cl fs ch]. cbn in F. subst fs.
  reflexivity.
Qed.

End LoadSteps.

(** X20: the deferred callback of [load] is idempotent.  When it returns, a
    second run of it returns the same image and the same page: the thumbnail
    and the full image are created once, however many timers the calls of
    [load] have left. *)
Theorem deferred_callback_idempotent (pig : Pig) (img img' : ProgressiveImage)
    (page page' : Page) :
  addSubElementsLater pig img page = Ok (img', page') ->
  addSubElementsLater pig img' page' = Ok (img', page')
  /\ (existsOnPage img = true -> thumbnail img' <> None /\ fullImage img' <> None).
Proof.
  unfold addSubElementsLater at 1.
  destruct (existsOnPage img) eqn:X; cbn [negb].
  - unfold addAllSubElements.
    destruct (addImageAsSubElement pig Thumbnail _ _ _ img page) as [[i1 p1]|] eqn:A1;
      [|discriminate].
    cbn [bind fst snd]. intros A2.
    destruct (addImageAsSubElement_inv pig _ _ _ _ _ _ _ _ A1) as (T1 & _).
    destruct (addImageAsSubElement_inv pig _ _ _ _ _ _ _ _ A2) as (F2 & K2 & _).
    specialize (K2 Thumbnail T1). cbn [getSubElement] in F2, K2.
    split; [|auto].
    unfold addSubElementsLater, addAllSubElements, addImageAsSubElement.
    cbn [getSubElement].
    destruct (thumbnail img'); [|congruence]. destruct (fullImage img') eqn:F; [|congruence].
    destruct (existsOnPage img'); cbn [negb bind fst snd]; [now rewrite F | reflexivity].
  - intros [= <- <-]. split; [|discriminate].
    unfold addSubElementsLater. now rewrite X.
Qed.

Lemma deferred_callback_idempotent_witness :
  addSubElementsLater scenarioPig (fst attachedState) (snd attachedState)
  = Ok (fst attachedState, snd attachedState).
Proof.
  assert (addSubElementsLater scenarioPig
            (fst (returned (load scenarioPig freshImage emptyPage) (freshImage, emptyPage)))
            (snd (returned (load scenarioPig freshImage emptyPage) (freshImage, emptyPage)))
          = Ok (fst attachedState, snd attachedState)) as E
    by (vm_compute; reflexivity).
  exact (proj1 (deferred_callback_idempotent scenarioPig _ _ _ _ E)).
Defined.

(** X21: [load] on an image that is already loaded changes nothing but the
    timers.  When [load] returns, the figure is the last child of the
    container and carries the image's style; a second [load] returns the
    same image, leaves the container as it is (the figure is not inserted
    twice) and sets one more 100 ms timer. *)
Theorem load_repeated (pig : Pig) (img img' : ProgressiveImage) (page page' : Page) :
  load pig img page = Ok (img', page') ->
  containerChildren page' = appendChild (index img) (containerChildren page)
  /\ existsOnPage img' = true
  /\ (exists fig, element img' = Some fig /\ figureStyle fig = style img')
  /\ exists page'',
       load pig img' page' = Ok (img', page'')
       /\ containerChildren page'' = containerChildren page'
       /\ imageElements page'' = imageElements page'
       /\ timeouts page'' = timeouts page' ++ [AddSubElements (index img) 100].
Proof.
  intros H. destruct (load_inv pig _ _ _ _ H) as (st & fig & Hs & -> & Hf & _ & ->).
  split; [reflexivity|]. split; [reflexivity|].
  split; [exists fig; cbn; now rewrite Hs|].
  eexists. split.
  - apply (load_again pig _ _ st fig); [reflexivity | exact Hs | reflexivity | exact Hf].
  - cbn [containerChildren imageElements timeouts setTimeout set_containerChildren
         set_timeouts index set_element set_existsOnPage].
    rewrite appendChild_idempotent. repeat split.
Qed.

Lemma load_repeated_witness :
  let st := returned (load scenarioPig freshImage emptyPage) (freshImage, emptyPage) in
  containerChildren (snd st) = appendChild 0 []
  /\ existsOnPage (fst st) = true.
Proof.
  cbv zeta.
  assert (load scenarioPig freshImage emptyPage
          = Ok (fst (returned (load scenarioPig freshImage emptyPage)
                              (freshImage, emptyPage)),
                snd (returned (load scenarioPig freshImage emptyPage)
                              (freshImage, emptyPage)))) as E
    by (vm_compute; reflexivity).
  destruct (load_repeated scenarioPig _ _ _ _ E) as (H1 & H2 & _).
  split; [exact H1 | exact H2].
Defined.

(** X22: [load] returns exactly for the images that have a style.  An image
    that [_computeLayout] has not styled yet makes [load] throw (reading
    [this.style.transition]), whatever the page; a styled image never does. *)
Theorem load_returns_iff_styled (pig : Pig) (img : ProgressiveImage) (page : Page) :
  (exists r, load pig img page = Ok r) <-> style img <> None.
Proof.
  split.
  - intros [[img' page'] H].
    destruct (load_inv pig _ _ _ _ H) as (st & _ & Hs & _). congruence.
  - intros N. destruct img as [x a f i s e t u]. cbn [style] in N.
    destruct s as [st|]; [|congruence].
    destruct e as [fig|]; eexists; reflexivity.
Qed.

(** ** A pass made on the page *)

Lemma filter_ne_id (node : nat) (nodes : list nat) :
  ~ In node nodes -> filter (fun n => negb (Nat.eqb node n)) nodes = nodes.
Proof.
  induction nodes as [|n t IH]; intros H; [reflexivity|]. cbn [filter].
  destruct (Nat.eqb_spec node n) as [->|_]; [exfalso; apply H; now left|].
  cbn [negb]. rewrite IH; [reflexivity|]. intros I. apply H. now right.
Qed.

Lemma Consistent_frame (img : ProgressiveImage) (page page' : Page) :
  Consistent img page ->
  NoDup (containerChildren page') ->
  (In (index img) (containerChildren page') <-> In (index img) (containerChildren page)) ->
  (length (imageElements page) <= length (imageElements page'))%nat ->
  Consistent img page'.
Proof.
  intros [Hs Hnd Hon Hdist Hsub Hcn Hmade] N I L.
  constructor; try assumption.
  - rewrite I. exact Hon.
  - eapply Forall_impl; [|exact Hmade]. intros r Hr. cbv beta in Hr |- *. lia.
Qed.

Section Pass.
Variable pig : Pig.
Variables lower upper : Q.

Lemma showOne_ok (img : ProgressiveImage) (page : Page) (st : Style) :
  Consistent img page ->
  style img = Some st ->
  exists img' page',
    match visibilityCall lower upper st with
    | CallHide => hide pig img page
    | CallLoad => load pig img page
    end = Ok (img', page')
    /\ Consistent img' page'
    /\ index img' = index img
    /\ style img' = style img
    /\ existsOnPage img' = inWindow lower upper img
    /\ length (imageElements page') = length (imageElements page)
    /\ (forall k, k <> index img ->
          (In k (containerChildren page') <-> In k (containerChildren page)))
    /\ length (timeouts page')
       = (length (timeouts page) + (if inWindow lower upper img then 1 else 0))%nat
    /\ (existsOnPage img = false ->
        containerChildren page'
        = containerChildren page
          ++ (if inWindow lower upper img then [index img] else [])).
Proof.
  intros HC S. unfold inWindow. rewrite S.
  assert (existsOnPage img = false ->
          filter (fun n => negb (Nat.eqb (index img) n)) (containerChildren page)
          = containerChildren page) as Hid.
  { intros X. apply filter_ne_id. intros I. apply (on_page _ _ HC) in I. congruence. }
  destruct (visibilityCall lower upper st).
  - destruct (load_ok pig img page HC) as (img' & page' & E & HC' & X & _ & _ & I & T).
    exists img', page'. split; [exact E|].
    destruct (load_inv pig _ _ _ _ E) as (st' & fig & _ & Ei & _ & _ & Ep).
    split; [exact HC'|]. split; [exact I|]. split; [now rewrite Ei|].
    split; [exact X|]. split; [now rewrite Ep|].
    split; [|split].
    + intros k N. rewrite Ep. cbn [containerChildren setTimeout set_timeouts
                                   set_containerChildren].
      rewrite appendChild_In_iff. intuition congruence.
    + rewrite T, length_app. reflexivity.
    + intros X0. rewrite Ep. cbn [containerChildren setTimeout set_timeouts
                                  set_containerChildren].
      unfold appendChild. now rewrite Hid.
  - destruct (hide_ok pig img page HC)
      as (img' & page' & E & X & _ & _ & _ & I & Hs & Hc & L).
    exists img', page'. split; [exact E|].
    split; [exact (hide_consistent pig _ _ _ _ HC E)|].
    split; [exact I|]. split; [congruence|]. split; [exact X|]. split; [exact L|].
    destruct (hide_inv pig _ _ _ _ E) as (_ & _ & _ & _ & _ & _ & T & _).
    split; [|split].
    + intros k N. rewrite Hc, filter_ne_In. intuition congruence.
    + rewrite T. lia.
    + intros X0. rewrite Hc, Hid by exact X0. now rewrite app_nil_r.
Qed.

Lemma showImages_ok (imgs : list ProgressiveImage) :
  forall page,
    NoDup (containerChildren page) ->
    Forall (fun img => Consistent img page) imgs ->
    NoDup (map index imgs) ->
    exists imgs' page',
      showImages pig lower upper imgs page = Ok (imgs', page')
      /\ Forall (fun img => Consistent img page') imgs'
      /\ NoDup (containerChildren page')
      /\ map index imgs' = map index imgs
      /\ map style imgs' = map style imgs
      /\ map existsOnPage imgs' = map (inWindow lower upper) imgs
      /\ length (imageElements page') = length (imageElements page)
      /\ (forall k, ~ In k (map index imgs) ->
            (In k (containerChildren page') <-> In k (containerChildren page)))
      /\ length (timeouts page')
         = (length (timeouts page) + loadedCount lower upper imgs)%nat
      /\ (Forall (fun img => existsOnPage img = false) imgs ->
          containerChildren page'
          = containerChildren page ++ map index (filter (inWindow lower upper) imgs)).
Proof.
  induction imgs as [|a rest IH]; intros page N F D.
  - exists [], page. unfold loadedCount. cbn. rewrite app_nil_r. repeat split; auto.
  - inversion F as [|? ? Ha Hrest]; subst. inversion D as [|? ? Hnot Drest]; subst.
    destruct (style a) as [st|] eqn:S; [|now destruct (has_style _ _ Ha)].
    destruct (showOne_ok a page st Ha S)
      as (a' & p1 & E1 & Ca & Ia & Sa & Xa & La & Fa & Ta & Oa).
    assert (Forall (fun img => Consistent img p1) rest) as Hrest1.
    { apply Forall_forall. intros b Hb.
      apply (Consistent_frame b page p1).
      - rewrite Forall_forall in Hrest. now apply Hrest.
      - exact (container_nodup _ _ Ca).
      - apply Fa. intros Eq. apply Hnot. rewrite <- Eq. now apply in_map.
      - lia. }
    destruct (IH p1 (container_nodup _ _ Ca) Hrest1 Drest)
      as (rest' & p2 & E2 & Cr & N2 & Ir & Sr & Xr & Lr & Fr & Tr & Or).
    exists (a' :: rest'), p2. cbn [showImages]. rewrite S, E1. cbn [bind fst snd].
    rewrite E2. cbn [bind fst snd]. split; [reflexivity|].
    split.
    { constructor; [|exact Cr].
      apply (Consistent_frame a' p1 p2 Ca N2); [|lia].
      apply Fr. now rewrite Ia. }
    split; [exact N2|].
    cbn [map]. rewrite Ia, Ir, Sa, Sr, Xa, Xr.
    repeat split; try reflexivity; try lia.
    + intros K. cbn [In] in H. apply Fa; [|apply Fr; [|exact K]]; intuition.
    + intros K. cbn [In] in H. apply Fr; [|apply Fa; [|exact K]]; intuition.
    + rewrite Tr, Ta. unfold loadedCount. cbn [filter].
      destruct (inWindow lower upper a); cbn [length]; lia.
    + intros X0. inversion X0 as [|? ? Xh Xt]; subst.
      rewrite (Or Xt), (Oa Xh). cbn [filter].
      destruct (inWindow lower upper a); cbn [map]; rewrite <- app_assoc; reflexivity.
Qed.

End Pass.

Lemma visitImages_calls (lower upper : Q) (imgs : list ProgressiveImage) :
  Forall (fun img => style img <> None) imgs ->
  visitImages lower upper imgs
  = Some (map (fun img => if inWindow lower upper img then CallLoad else CallHide) imgs).
Proof.
  induction 1 as [|img t Hs _ IH]; [reflexivity|].
  cbn [visitImages map]. unfold inWindow at 1.
  destruct (style img) as [st|]; [|congruence]. rewrite IH.
  now destruct (visibilityCall lower upper st).
Qed.


Lemma restyled_new_images (page : Page) (news imgs : list ProgressiveImage) :
  containerChildren page = [] ->
  Forall2 (fun a b => exists st, b = set_style a st) news imgs ->
  Forall (fun img => existsOnPage img = false /\ style img = None
                     /\ element img = None /\ thumbnail img = None
                     /\ fullImage img = None) news ->
  Forall (fun img => Consistent img page) imgs
  /\ Forall (fun img => existsOnPage img = false) imgs
  /\ map index imgs = map index news.
Proof.
  intros Hc R. induction R as [|a b ta tb (st & ->) _ IH]; intros Hf.
  - repeat split; constructor.
  - inversion Hf as [|? ? (X & _ & E & T & U) Hf']; subst.
    destruct (IH Hf') as (Gi & Gx & Gm).
    split; [|split].
    + constructor; [|exact Gi].
      constructor; unfold figureChildren;
        cbn [style existsOnPage index element thumbnail fullImage set_style];
        rewrite ?Hc, ?E, ?T, ?U, ?X.
      * discriminate.
      * constructor.
      * split; [discriminate | intros []].
      * discriminate.
      * intros r. split; [intros [] | intros [H|H]; discriminate].
      * constructor.
      * constructor.
    + constructor; [exact X | exact Gx].
    + cbn [map index set_style]. now rewrite Gm.
Qed.

Lemma parseImageData_index (data : list (Q * string)) :
  map index (_parseImageData data) = seq 0 (length data)
  /\ Forall (fun img => existsOnPage img = false /\ style img = None
                        /\ element img = None /\ thumbnail img = None
                        /\ fullImage img = None) (_parseImageData data).
Proof.
  unfold _parseImageData, forEach. rewrite parseImageData_from. cbn [app].
  destruct (built_images data 0) as (_ & _ & _ & _ & Hi & Hf). split; assumption.
Qed.

Lemma newGrid_consistent (host : Host) (data : list (Q * string)) (opts : PigSettings)
    (page : Page) :
  containerChildren page = [] ->
  let imgs := images (fst (_computeLayout host (newPig host data opts))) in
  GridConsistent imgs page
  /\ Forall (fun img => existsOnPage img = false) imgs
  /\ map index imgs = seq 0 (length data).
Proof.
  intros Hc imgs.
  pose proof (computeLayout_restyles host (newPig host data opts)) as R.
  fold imgs in R. cbn [images newPig] in R.
  destruct (parseImageData_index data) as (Hi & Hf).
  destruct (restyled_new_images page _ _ Hc R Hf) as (Gi & Gx & Gm).
  rewrite Hi in Gm.
  split; [|split; assumption].
  constructor; [exact Gi | rewrite Gm; apply seq_NoDup | rewrite Hc; constructor].
Qed.





Lemma Forall_updateAt {A : Type} (P Q : A -> Prop) (x' : A) (l : list A) :
  (forall y, Q y -> P y) ->
  P x' ->
  forall i, Forall Q l -> Forall P (updateAt i (fun _ => x') l).
Proof.
  intros PQ Px. induction l as [|x t IH]; intros i F; [destruct i; constructor|].
  inversion F as [|? ? Hx Ht]; subst.
  destruct i as [|i]; cbn [updateAt]; constructor; auto.
  eapply Forall_impl; [exact PQ | exact Ht].
Qed.

Lemma map_updateAt_same {A B : Type} (g : A -> B) (x' : A) (l : list A) :
  forall i x, nth_error l i = Some x -> g x' = g x ->
    map g (updateAt i (fun _ => x') l) = map g l.
Proof.
  induction l as [|y t IH]; intros i x E G; [destruct i; discriminate|].
  destruct i as [|i]; cbn [updateAt map].
  - cbn in E. injection E as ->. now rewrite G.
  - f_equal. exact (IH i x E G).
Qed.

Lemma addSubElementsLater_inv (pig : Pig) (img img' : ProgressiveImage)
    (page page' : Page) :
  addSubElementsLater pig img page = Ok (img', page') ->
  index img' = index img
  /\ style img' = style img
  /\ existsOnPage img' = existsOnPage img
  /\ containerChildren page' = containerChildren page
  /\ timeouts page' = timeouts page
  /\ (length (imageElements page) <= length (imageElements page'))%nat.
Proof.
  unfold addSubElementsLater. destruct (negb (existsOnPage img)).
  - intros [= <- <-]. repeat split. lia.
  - unfold addAllSubElements.
    destruct (addImageAsSubElement pig Thumbnail _ _ _ img page) as [[i1 p1]|] eqn:A1;
      [|discriminate].
    cbn [bind fst snd]. intros A2.
    destruct (addImageAsSubElement_inv pig _ _ _ _ _ _ _ _ A1)
      as (_ & _ & X1 & _ & I1 & S1 & C1 & T1 & L1).
    destruct (addImageAsSubElement_inv pig _ _ _ _ _ _ _ _ A2)
      as (_ & _ & X2 & _ & I2 & S2 & C2 & T2 & L2).
    repeat split; try congruence. lia.
Qed.

(** X25: what runs between the passes keeps the images and the page in
    agreement.  The deferred callback of any image of the grid returns,
    touches neither the container nor the timers, and leaves the grid
    consistent with the page; so does the [onload] handler of any [Image]
    element.  With the pass itself this makes the agreement an invariant of
    the grid. *)
Theorem callbacks_keep_grid (pig : Pig) (imgs : list ProgressiveImage) (page : Page)
    (i : nat) (img : ProgressiveImage) :
  GridConsistent imgs page ->
  nth_error imgs i = Some img ->
  (exists img' page',
     addSubElementsLater pig img page = Ok (img', page')
     /\ GridConsistent (updateAt i (fun _ => img') imgs) page'
     /\ containerChildren page' = containerChildren page
     /\ timeouts page' = timeouts page
     /\ (existsOnPage img = true -> thumbnail img' <> None /\ fullImage img' <> None))
  /\ (forall r, exists page',
        imageLoaded pig r page = Ok page' /\ GridConsistent imgs page').
Proof.
  intros [Gi Gn Gc] E. split.
  - assert (Consistent img page) as HC.
    { rewrite Forall_forall in Gi. apply Gi. eapply nth_error_In, E. }
    destruct (addSubElementsLater_ok pig img page HC) as (img' & page' & A & HC' & S).
    destruct (addSubElementsLater_inv pig _ _ _ _ A) as (I & _ & _ & C & T & L).
    exists img', page'. split; [exact A|]. split; [|auto].
    constructor.
    + apply (Forall_updateAt _ (fun b => Consistent b page)); [|exact HC'|exact Gi].
      intros b Hb. apply (Consistent_frame b page page' Hb); [|now rewrite C|exact L].
      rewrite C. exact Gc.
    + rewrite (map_updateAt_same index img' imgs i img E I). exact Gn.
    + rewrite C. exact Gc.
  - intros r. eexists. split; [reflexivity|].
    constructor; cbn [containerChildren set_imageElements]; try assumption.
    eapply Forall_impl; [|exact Gi]. intros b Hb.
    apply (Consistent_frame b page _ Hb); cbn [containerChildren imageElements
                                                 set_imageElements];
      [exact Gc | reflexivity | rewrite length_updateAt; lia].
Qed.

Lemma callbacks_keep_grid_witness :
  exists img' page',
    addSubElementsLater scenarioPig freshImage emptyPage = Ok (img', page')
    /\ containerChildren page' = containerChildren emptyPage.
Proof.
  assert (GridConsistent [freshImage] emptyPage) as G.
  { constructor; [constructor; [exact freshImage_consistent | constructor]
                 | repeat constructor; intros []
                 | constructor]. }
  destruct (callbacks_keep_grid scenarioPig [freshImage] emptyPage 0 freshImage G eq_refl)
    as ((img' & page' & E & _ & C & _) & _).
  exists img', page'. split; [exact E | exact C].
Defined.

(** ** The offset of the container *)

Lemma visibilityCall_ext (lower lower' upper upper' : Q) (st : Style) :
  lower' == lower -> upper' == upper ->
  visibilityCall lower' upper' st = visibilityCall lower upper st.
Proof.
  intros L U. unfold visibilityCall.
  assert (Qltb (translateY st + inject_Z (height st)) lower'
          = Qltb (translateY st + inject_Z (height st)) lower) as ->.
  { apply Bool.eq_true_iff_eq. rewrite !Qltb_true, L. reflexivity. }
  assert (Qgtb (translateY st) upper' = Qgtb (translateY st) upper) as ->.
  { apply Bool.eq_true_iff_eq. rewrite !Qgtb_true, U. reflexivity. }
  reflexivity.
Qed.

Lemma visitImages_ext (lower lower' upper upper' : Q) (imgs : list ProgressiveImage) :
  lower' == lower -> upper' == upper ->
  visitImages lower' upper' imgs = visitImages lower upper imgs.
Proof.
  intros L U. induction imgs as [|img t IH]; [reflexivity|]. cbn [visitImages].
  rewrite IH. destruct (style img) as [st|]; [|reflexivity].
  now rewrite (visibilityCall_ext lower lower' upper upper' st L U).
Qed.

(** X26: a pass depends on the scroll offset only relative to the container.
    [_getOffsetTop] is subtracted from [latestYOffset] in both bounds, so two
    states with the same images, settings, direction and scroller height in
    which the scroll offset minus the container's distance from the top of
    the page agree make the same calls and set the same container height. *)
Theorem doLayout_relative_to_container (host host' : Host) (pig pig' : Pig) :
  images pig' = images pig ->
  totalHeight pig' = totalHeight pig ->
  settings pig' = settings pig ->
  scrollDirection pig' = scrollDirection pig ->
  scrollerHeight host' == scrollerHeight host ->
  latestYOffset pig' - _getOffsetTop host' == latestYOffset pig - _getOffsetTop host ->
  _doLayout host' pig' = _doLayout host pig.
Proof.
  intros Hi Ht Hs Hd Hh Ho. unfold _doLayout. rewrite Hi, Ht.
  rewrite (visitImages_ext (minTranslateYPlusHeight host pig)
             (minTranslateYPlusHeight host' pig')
             (maxTranslateY host pig) (maxTranslateY host' pig')); [reflexivity| |].
  - unfold minTranslateYPlusHeight, bufferTop. rewrite Hs, Hd, Ho. reflexivity.
  - unfold maxTranslateY, bufferBottom. rewrite Hs, Hd, Ho, Hh. reflexivity.
Qed.

Lemma doLayout_relative_to_container_witness :
  let laid := fst (_computeLayout scenarioHost scenarioPig) in
  _doLayout (nestedHost 50) (set_scroll laid 0 150 down)
  = _doLayout scenarioHost (set_scroll laid 0 100 down).
Proof.
  apply doLayout_relative_to_container; try reflexivity; vm_compute; reflexivity.
Defined.

(** ** [OptimizedResize.disable] and [reEnable] *)

(** X27: [reEnable] after [disable] attaches one more resize listener.
    Both methods bind [_resize] anew: [disable] removes nothing, [reEnable]
    adds the new function, so with listeners that were created before, the
    list grows by one and the grid itself is untouched. *)
Theorem reEnable_after_disable_adds_listener (st : Pig * Page) :
  Forall (fun g => (g < nextFunction (snd st))%nat) (resizeListeners (snd st)) ->
  let st' := OptimizedResize_reEnable (OptimizedResize_disable st) in
  fst st' = fst st
  /\ resizeListeners (snd st') = resizeListeners (snd st) ++ [S (nextFunction (snd st))]
  /\ scrollListeners (snd st') = scrollListeners (snd st).
Proof.
  intros H. cbv zeta. unfold OptimizedResize_reEnable, OptimizedResize_disable, newFunction.
  cbn [fst snd set_resizeListeners set_nextFunction resizeListeners nextFunction
       scrollListeners].
  split; [reflexivity|]. split; [|reflexivity].
  rewrite removeEventListener_fresh by exact H.
  apply addEventListener_fresh.
  eapply Forall_impl; [|exact H]. intros g Hg. cbv beta in Hg |- *. lia.
Qed.

Lemma reEnable_after_disable_adds_listener_witness :
  let st := enable scenarioHost (scenarioPig, emptyPage) in
  resizeListeners (snd (OptimizedResize_reEnable (OptimizedResize_disable st)))
  = resizeListeners (snd st) ++ [S (nextFunction (snd st))].
Proof.
  cbv zeta.
  apply (reEnable_after_disable_adds_listener (enable scenarioHost (scenarioPig, emptyPage))).
  vm_compute. repeat constructor.
Defined.

(** ** The event loop with the passes made on the page *)

Lemma removeSubElement_page (pig : Pig) (name : SubElementName)
    (img img' : ProgressiveImage) (page page' : Page) :
  removeSubElement pig name img page = Ok (img', page') ->
  exists made, page' = set_imageElements page made.
Proof.
  unfold removeSubElement. destruct (getSubElement name img) as [r|].
  - destruct (getElement pig img) as [i1|]; [|discriminate]. cbn [bind].
    destruct (element i1) as [fig|]; [|discriminate].
    destruct (removeChild r (children fig)); [|discriminate].
    intros [= <- <-]. eexists. reflexivity.
  - intros [= <- <-]. exists (imageElements page). destruct page; reflexivity.
Qed.

Lemma hide_page (pig : Pig) (img img' : ProgressiveImage) (page page' : Page) :
  hide pig img page = Ok (img', page') ->
  exists made nodes,
    page' = set_containerChildren (set_imageElements page made) nodes.
Proof.
  unfold hide.
  destruct (getElement pig img) as [i1|]; [|discriminate]. cbn [bind].
  unfold removeAllSubElements.
  destruct (removeSubElement pig Thumbnail i1 page) as [[ia pa]|] eqn:Ra; [|discriminate].
  cbn [bind fst snd].
  destruct (removeSubElement pig FullImage ia pa) as [[ib pb]|] eqn:Rb; [|discriminate].
  cbn [bind fst snd].
  destruct (removeSubElement_page _ _ _ _ _ _ Ra) as (ma & ->).
  destruct (removeSubElement_page _ _ _ _ _ _ Rb) as (mb & ->).
  destruct (existsOnPage ib).
  - destruct (getElement pig ib) as [ic|]; [|discriminate]. cbn [bind].
    destruct (removeChild _ _) as [nodes|]; [|discriminate]. cbn [bind fst snd].
    intros [= <- <-]. exists mb, nodes. reflexivity.
  - cbn [bind fst snd]. intros [= <- <-]. exists mb, (containerChildren page).
    destruct page; reflexivity.
Qed.

(** What a pass leaves alone on the page, and the timers it sets. *)
Lemma showImages_frame (pig : Pig) (lower upper : Q) (imgs : list ProgressiveImage) :
  forall page imgs' page',
    showImages pig lower upper imgs page = Ok (imgs', page') ->
    scrollListeners page' = scrollListeners page
    /\ resizeListeners page' = resizeListeners page
    /\ nextFunction page' = nextFunction page
    /\ frameRequests page' = frameRequests page
    /\ passes page' = passes page
    /\ timeouts page' = timeouts page ++ loadTimers lower upper imgs.
Proof.
  induction imgs as [|a rest IH]; intros page imgs' page' E.
  - cbn in E. injection E as <- <-. unfold loadTimers. cbn. rewrite app_nil_r.
    repeat split.
  - cbn [showImages] in E. unfold loadTimers, inWindow. cbn [filter].
    destruct (style a) as [st|] eqn:S; [|discriminate].
    destruct (visibilityCall lower upper st).
    + destruct (load pig a page) as [[a1 p1]|] eqn:L; [|discriminate].
      cbn [bind fst snd] in E.
      destruct (showImages pig lower upper rest p1) as [[r1 p2]|] eqn:R; [|discriminate].
      cbn [bind fst snd] in E. injection E as <- <-.
      destruct (IH _ _ _ R) as (A & B & C & D & P & T).
      destruct (load_inv pig _ _ _ _ L) as (_ & _ & _ & _ & _ & _ & ->).
      rewrite A, B, C, D, P, T. cbn [map]. unfold loadTimers, inWindow.
      cbn [setTimeout set_timeouts set_containerChildren scrollListeners resizeListeners
           nextFunction frameRequests passes timeouts].
      rewrite <- app_assoc. repeat split.
    + destruct (hide pig a page) as [[a1 p1]|] eqn:H; [|discriminate].
      cbn [bind fst snd] in E.
      destruct (showImages pig lower upper rest p1) as [[r1 p2]|] eqn:R; [|discriminate].
      cbn [bind fst snd] in E. injection E as <- <-.
      destruct (IH _ _ _ R) as (A & B & C & D & P & T).
      destruct (hide_inv pig _ _ _ _ H) as (_ & _ & _ & _ & _ & _ & Ht & _).
      destruct (hide_page pig _ _ _ _ H) as (made & nodes & Hp).
      rewrite A, B, C, D, P, T, Ht. rewrite Hp. repeat split.
Qed.

Lemma Consistent_set_style (img : ProgressiveImage) (page : Page) (s s' : Style) :
  Consistent (set_style img s) page -> Consistent (set_style img s') page.
Proof.
  intros [Hs Hnd Hon Hdist Hsub Hcn Hmade].
  constructor; try assumption. discriminate.
Qed.

(** The agreement of the images with the page does not depend on the
    styles the layout gives them. *)
Lemma GridConsistent_relaid (imgs styled : list ProgressiveImage) (page : Page) :
  Forall2 (fun a b => exists s, b = set_style a s) imgs styled ->
  GridConsistent styled page ->
  forall relaid,
    Forall2 (fun a b => exists s, b = set_style a s) imgs relaid ->
    GridConsistent relaid page.
Proof.
  intros R [Gi Gn Gc] relaid R'.
  assert (Forall (fun img => Consistent img page) relaid
          /\ map index relaid = map index styled) as (Hi & Hm).
  { revert relaid R'. induction R as [|a b ta tb (s & ->) _ IH]; intros relaid R'.
    - inversion R'; subst. split; [constructor | reflexivity].
    - inversion R' as [|? c ? tc (s' & ->) Rt]; subst.
      inversion Gi as [|? ? Ca Ct]; subst. inversion Gn as [|? ? _ Nt]; subst.
      destruct (IH Ct Nt tc Rt) as (Hi & Hm).
      split; [constructor; [exact (Consistent_set_style a page s s' Ca) | exact Hi]|].
      cbn [map]. now rewrite Hm. }
  constructor; [exact Hi | rewrite Hm; exact Gn | exact Gc].
Qed.

Lemma restyled_self (imgs : list ProgressiveImage) :
  Forall (fun img => style img <> None) imgs ->
  Forall2 (fun a b => exists s, b = set_style a s) imgs imgs.
Proof.
  induction 1 as [|a t Hs _ IH]; constructor; [|exact IH].
  destruct (style a) as [s|] eqn:E; [|congruence].
  exists s. destruct a. cbn in E. subst. reflexivity.
Qed.

Lemma GridConsistent_styles (imgs : list ProgressiveImage) (page : Page) :
  GridConsistent imgs page -> Forall (fun img => style img <> None) imgs.
Proof.
  intros [Gi _ _]. eapply Forall_impl; [|exact Gi].
  intros img HC. exact (has_style _ _ HC).
Qed.

Lemma GridConsistent_computeLayout (host : Host) (pig : Pig) (page : Page) :
  GridConsistent (images pig) page ->
  GridConsistent (images (fst (_computeLayout host pig))) page.
Proof.
  intros G.
  apply (GridConsistent_relaid (images pig) (images pig) page).
  - apply restyled_self. exact (GridConsistent_styles _ _ G).
  - exact G.
  - apply computeLayout_restyles.
Qed.

(** Only the nodes of the page matter to the agreement. *)
Lemma GridConsistent_page (imgs : list ProgressiveImage) (page page' : Page) :
  GridConsistent imgs page ->
  containerChildren page' = containerChildren page ->
  imageElements page' = imageElements page ->
  GridConsistent imgs page'.
Proof.
  intros [Gi Gn Gc] C I. constructor; [|exact Gn|rewrite C; exact Gc].
  eapply Forall_impl; [|exact Gi]. intros img HC.
  apply (Consistent_frame img page page' HC).
  - rewrite C. exact Gc.
  - now rewrite C.
  - rewrite I. apply Nat.le_refl.
Qed.

Lemma scrollHandler_nodes (host : Host) (st : Pig * Page) :
  containerChildren (snd (scrollHandler host st)) = containerChildren (snd st)
  /\ imageElements (snd (scrollHandler host st)) = imageElements (snd st).
Proof.
  unfold scrollHandler. cbv zeta. destruct (negb _); split; reflexivity.
Qed.

(** A pass on a grid that agrees with the page. *)
Lemma doLayoutOnPage_ok (host : Host) (pig : Pig) (page : Page) :
  GridConsistent (images pig) page ->
  exists imgs' page',
    doLayoutOnPage host pig page = Ok (set_images pig imgs', page')
    /\ GridConsistent imgs' page'
    /\ map index imgs' = map index (images pig)
    /\ map style imgs' = map style (images pig)
    /\ scrollListeners page' = scrollListeners page
    /\ resizeListeners page' = resizeListeners page
    /\ nextFunction page' = nextFunction page
    /\ frameRequests page' = frameRequests page
    /\ passes page' = passes page
    /\ timeouts page'
       = timeouts page ++ loadTimers (minTranslateYPlusHeight host pig)
                                     (maxTranslateY host pig) (images pig)
    /\ exists pass, _doLayout host pig = Some pass
                    /\ containerHeight pass = totalHeight pig.
Proof.
  intros G. pose proof (GridConsistent_styles _ _ G) as Hs. destruct G as [Gi Gn Gc].
  destruct (showImages_ok pig (minTranslateYPlusHeight host pig) (maxTranslateY host pig)
              (images pig) page Gc Gi Gn)
    as (imgs' & page' & E & Ci & Nc & Ii & Si & _).
  destruct (showImages_frame pig _ _ _ _ _ _ E) as (A & B & C & D & P & T).
  exists imgs', page'. unfold doLayoutOnPage. rewrite E. cbn [bind fst snd].
  split; [reflexivity|].
  split; [constructor; [exact Ci | rewrite Ii; exact Gn | exact Nc]|].
  repeat (split; [assumption|]).
  unfold _doLayout. rewrite (visitImages_calls _ _ _ Hs).
  eexists. split; reflexivity.
Qed.


(** The resize callback on a grid that agrees with the page. *)
Lemma resizeCallbackOnPage_ok (host : Host) (st : Pig * Page) :
  GridConsistent (images (fst st)) (snd st) ->
  let pig := set_lastWindowWidth (fst st)
               (if scrollerIsWindow host then innerWidth host else offsetWidth host) in
  let laid := fst (_computeLayout host pig) in
  exists imgs' page',
    resizeCallbackOnPage host st = Ok (set_images laid imgs', page')
    /\ GridConsistent imgs' page'
    /\ map index imgs' = map index (images laid)
    /\ map style imgs' = map style (images laid)
    /\ scrollListeners page' = scrollListeners (snd st)
    /\ resizeListeners page' = resizeListeners (snd st)
    /\ nextFunction page' = nextFunction (snd st)
    /\ frameRequests page' = frameRequests (snd st)
    /\ timeouts page'
       = timeouts (snd st) ++ snd (_computeLayout host pig)
         ++ loadTimers (minTranslateYPlusHeight host laid) (maxTranslateY host laid)
                       (images laid)
    /\ exists pass, passes page' = passes (snd st) ++ [Some pass]
                    /\ containerHeight pass = totalHeight laid.
Proof.
  intros G pig laid.
  assert (GridConsistent (images laid)
            (set_timeouts (snd st) (timeouts (snd st) ++ snd (_computeLayout host pig))))
    as G1.
  { apply (GridConsistent_page _ (snd st)); [|reflexivity|reflexivity].
    apply (GridConsistent_computeLayout host pig (snd st)).
    replace (images pig) with (images (fst st)) by (destruct st as [[] ?]; reflexivity).
    exact G. }
  destruct (doLayoutOnPage_ok host laid _ G1)
    as (imgs' & page' & E & G' & Ii & Si & A & B & C & D & P & T & pass & Ed & Eh).
  exists imgs', (set_passes page' (passes page' ++ [_doLayout host laid])).
  unfold resizeCallbackOnPage. cbv zeta. fold pig. fold laid. rewrite E.
  cbn [bind fst snd]. split; [reflexivity|].
  split; [apply (GridConsistent_page _ page' _ G'); reflexivity|].
  cbn [set_passes scrollListeners resizeListeners nextFunction frameRequests timeouts
       passes].
  rewrite A, B, C, D, P, T, Ed.
  cbn [set_timeouts scrollListeners resizeListeners nextFunction frameRequests timeouts
       passes].
  rewrite <- app_assoc.
  repeat (split; [assumption || reflexivity|]).
  exists pass. split; [reflexivity | exact Eh].
Qed.



Lemma animationFrameOnPage_scroll (host : Host) (st : Pig * Page) :
  frameRequests (snd st) = (if inRAF (fst st) then [ScrollFrame] else []) ->
  GridConsistent (images (fst st)) (snd st) ->
  exists st',
    animationFrameOnPage host st = Ok st'
    /\ inRAF (fst st') = false
    /\ frameRequests (snd st') = []
    /\ GridConsistent (images (fst st')) (snd st')
    /\ map index (images (fst st')) = map index (images (fst st))
    /\ map style (images (fst st')) = map style (images (fst st))
    /\ exists done,
         passes (snd st') = passes (snd st) ++ done
         /\ Forall (fun p => p <> None) done
         /\ (length done <= 1)%nat.
Proof.
  intros Q G. unfold animationFrameOnPage. rewrite Q.
  destruct (inRAF (fst st)) eqn:E.
  - cbn [runFrameCallbacksOnPage runFrameCallbackOnPage]. unfold scrollFrameOnPage.
    cbn [fst snd].
    assert (GridConsistent (images (fst st)) (set_frameRequests (snd st) [])) as G0
      by (apply (GridConsistent_page _ _ _ G); reflexivity).
    destruct (doLayoutOnPage_ok host (fst st) _ G0)
      as (imgs' & page' & Ed & G' & Ii & Si & _ & _ & _ & D & P & _ & pass & Ep & _).
    rewrite Ed. cbn [bind fst snd]. eexists. split; [reflexivity|].
    cbn [fst snd set_passes frameRequests passes].
    replace (images (set_inRAF (set_images (fst st) imgs') false)) with imgs'
      by (destruct (fst st); reflexivity).
    split; [destruct (fst st); reflexivity|].
    split; [exact D|].
    split; [apply (GridConsistent_page _ _ _ G'); reflexivity|].
    split; [exact Ii|]. split; [exact Si|].
    exists [Some pass]. rewrite P, Ep. cbn [set_frameRequests passes].
    split; [reflexivity|]. split; [repeat constructor; discriminate | apply Nat.le_refl].
  - cbn [runFrameCallbacksOnPage]. eexists. split; [reflexivity|].
    cbn [fst snd set_frameRequests frameRequests passes].
    split; [exact E|]. split; [reflexivity|].
    split; [apply (GridConsistent_page _ _ _ G); reflexivity|].
    split; [reflexivity|]. split; [reflexivity|].
    exists []. rewrite app_nil_r. split; [reflexivity|]. split; [constructor|].
    apply Nat.le_0_l.
Qed.

Lemma runScrollEventsOnPage_guard (events : list ScrollEvent) :
  forall st,
    frameRequests (snd st) = (if inRAF (fst st) then [ScrollFrame] else []) ->
    GridConsistent (images (fst st)) (snd st) ->
    exists st',
      runScrollEventsOnPage events st = Ok st'
      /\ frameRequests (snd st') = (if inRAF (fst st') then [ScrollFrame] else [])
      /\ GridConsistent (images (fst st')) (snd st')
      /\ map index (images (fst st')) = map index (images (fst st))
      /\ map style (images (fst st')) = map style (images (fst st))
      /\ exists done,
           passes (snd st') = passes (snd st) ++ done
           /\ Forall (fun p => p <> None) done
           /\ (length done <= paints events)%nat.
Proof.
  induction events as [|e es IH]; intros st Q G.
  - exists st. split; [reflexivity|]. split; [exact Q|]. split; [exact G|].
    split; [reflexivity|]. split; [reflexivity|].
    exists []. rewrite app_nil_r. split; [reflexivity|]. split; [constructor|].
    apply Nat.le_0_l.
  - cbn [runScrollEventsOnPage]. destruct e as [host|host]; cbn [runScrollEventOnPage bind].
    + destruct (scrollHandler_guard host st Q) as (Ei & Ef & Ep).
      destruct (scrollHandler_nodes host st) as (Nc & Ne).
      destruct (IH (scrollHandler host st))
        as (st' & E & Q' & G' & Ii & Si & done & Hp & Hd & Hl).
      * now rewrite Ei, Ef.
      * rewrite scrollHandler_images. apply (GridConsistent_page _ _ _ G Nc Ne).
      * exists st'. split; [exact E|]. split; [exact Q'|]. split; [exact G'|].
        rewrite scrollHandler_images in Ii, Si.
        split; [exact Ii|]. split; [exact Si|].
        exists done. rewrite Hp, Ep. repeat split; assumption.
    + destruct (animationFrameOnPage_scroll host st Q G)
        as (st1 & E1 & Ei & Ef & G1 & I1 & S1 & d1 & Hp1 & Hd1 & Hl1).
      rewrite E1. cbn [bind].
      destruct (IH st1) as (st' & E & Q' & G' & Ii & Si & d2 & Hp2 & Hd2 & Hl2).
      * now rewrite Ei, Ef.
      * exact G1.
      * exists st'. split; [exact E|]. split; [exact Q'|]. split; [exact G'|].
        split; [now rewrite Ii|]. split; [now rewrite Si|].
        exists (d1 ++ d2). rewrite Hp2, Hp1, <- app_assoc.
        split; [reflexivity|]. split; [now apply Forall_app|].
        rewrite length_app. unfold paints in *. cbn [filter length]. lia.
Qed.

(** X12: at most one pass is pending, at any time.  From a state where the
    pending frame request agrees with [inRAF] and the images and the page
    agree, scroll notifications and animation frames in any order run without
    an exception (timers and [onload] handlers are not among these events).
    Afterwards the list of frame requests is empty or holds the one scroll
    callback, as [inRAF] says; the images (whose figures the passes have
    attached and detached) have kept their indices and styles and agree with
    the page again; and there have been at most as many passes as frames. *)
Theorem scroll_guard_invariant (events : list ScrollEvent) (st : Pig * Page) :
  frameRequests (snd st) = (if inRAF (fst st) then [ScrollFrame] else []) ->
  GridConsistent (images (fst st)) (snd st) ->
  exists st',
    runScrollEventsOnPage events st = Ok st'
    /\ frameRequests (snd st') = (if inRAF (fst st') then [ScrollFrame] else [])
    /\ (length (frameRequests (snd st')) <= 1)%nat
    /\ GridConsistent (images (fst st')) (snd st')
    /\ map index (images (fst st')) = map index (images (fst st))
    /\ map style (images (fst st')) = map style (images (fst st))
    /\ exists done,
         passes (snd st') = passes (snd st) ++ done
         /\ Forall (fun p => p <> None) done
         /\ (length done <= paints events)%nat.
Proof.
  intros Q G.
  destruct (runScrollEventsOnPage_guard events st Q G)
    as (st' & E & Q' & G' & Ii & Si & Hd).
  exists st'. split; [exact E|]. split; [exact Q'|].
  split; [rewrite Q'; destruct (inRAF (fst st')); simpl; lia|].
  repeat (split; [assumption|]). exact Hd.
Qed.

Lemma scroll_guard_invariant_witness :
  exists st',
    runScrollEventsOnPage
      [Notify (scrolledHost 100); Notify (scrolledHost 200);
       Paint (scrolledHost 200); Paint (scrolledHost 200);
       Notify (scrolledHost 50)]
      (fst (_computeLayout scenarioHost scenarioPig), emptyPage) = Ok st'
    /\ (length (frameRequests (snd st')) <= 1)%nat.
Proof.
  destruct (scroll_guard_invariant
              [Notify (scrolledHost 100); Notify (scrolledHost 200);
               Paint (scrolledHost 200); Paint (scrolledHost 200);
               Notify (scrolledHost 50)]
              (fst (_computeLayout scenarioHost scenarioPig), emptyPage) eq_refl
              (proj1 (newGrid_consistent scenarioHost _ defaultSettings emptyPage
                        eq_refl)))
    as (st' & E & _ & L & _).
  exists st'. split; [exact E | exact L].
Defined.

Lemma callResizeCallbacks_ok (host : Host) (callbacks : list nat) :
  forall st,
    GridConsistent (images (fst st)) (snd st) ->
    exists st',
      callResizeCallbacks host callbacks st = Ok st'
      /\ GridConsistent (images (fst st')) (snd st')
      /\ _optimizedResize (fst st') = _optimizedResize (fst st)
      /\ frameRequests (snd st') = frameRequests (snd st)
      /\ resizeListeners (snd st') = resizeListeners (snd st)
      /\ map index (images (fst st')) = map index (images (fst st))
      /\ exists done,
           passes (snd st') = passes (snd st) ++ done
           /\ length done = length callbacks
           /\ Forall (fun p => p <> None) done.
Proof.
  induction callbacks as [|c cs IH]; intros st G.
  - exists st. repeat (split; [assumption || reflexivity|]).
    exists []. rewrite app_nil_r. repeat split. constructor.
  - cbn [callResizeCallbacks].
    destruct (resizeCallbackOnPage_ok host st G)
      as (imgs' & page' & E & G' & Ii & _ & _ & B & _ & D & _ & pass & P & _).
    rewrite E. cbn [bind].
    set (pig := set_lastWindowWidth (fst st) _) in *.
    set (laid := fst (_computeLayout host pig)) in *.
    destruct (IH (set_images laid imgs', page'))
      as (st' & E' & G'' & R' & D' & B' & I' & done & P' & L' & F').
    { cbn [fst snd]. replace (images (set_images laid imgs')) with imgs'
        by (destruct laid; reflexivity). exact G'. }
    cbn [fst snd] in R', D', B', I', P'.
    replace (images (set_images laid imgs')) with imgs' in I'
      by (destruct laid; reflexivity).
    exists st'. split; [exact E'|]. split; [exact G''|].
    split.
    { rewrite R'. transitivity (_optimizedResize laid); [destruct laid; reflexivity|].
      transitivity (_optimizedResize pig);
        [exact (proj1 (computeLayout_frame host pig)) | destruct st as [[] ?]; reflexivity]. }
    split; [now rewrite D'|]. split; [now rewrite B'|].
    split.
    { rewrite I', Ii.
      pose proof (computeLayout_restyles host pig) as R. fold laid in R.
      replace (images pig) with (images (fst st)) in R
        by (destruct st as [[] ?]; reflexivity).
      clear - R. induction R as [|a b ta tb (s & ->) _ IHR]; [reflexivity|].
      cbn [map]. rewrite IHR. reflexivity. }
    exists (Some pass :: done). rewrite P', P, <- app_assoc. cbn [app length].
    split; [reflexivity|]. split; [now rewrite L'|].
    constructor; [discriminate | exact F'].
Qed.

(** X14: a burst of resize events costs one frame.  With a resize listener
    attached, no frame running and the images and the page in agreement, any
    number N >= 1 of 'resize' events leaves the state of a single event:
    [_running] set and one frame callback requested.  That frame returns
    without an exception; it has called every registered callback once, each
    a [_computeLayout] and a pass made on the page; [_running] is reset, the
    callbacks are kept, and the images and the page agree again. *)
Theorem resize_burst_one_frame (host : Host) (n : nat) (st : Pig * Page) :
  resizeListeners (snd st) <> [] ->
  _running (_optimizedResize (fst st)) = false ->
  frameRequests (snd st) = [] ->
  GridConsistent (images (fst st)) (snd st) ->
  let st1 := Nat.iter (S n) resizeEvent st in
  st1 = (set_optimizedResize (fst st)
           {| _callbacks := _callbacks (_optimizedResize (fst st)); _running := true |},
         requestAnimationFrame ResizeFrame (snd st))
  /\ frameRequests (snd st1) = [ResizeFrame]
  /\ exists st2,
       animationFrameOnPage host st1 = Ok st2
       /\ frameRequests (snd st2) = []
       /\ _running (_optimizedResize (fst st2)) = false
       /\ _callbacks (_optimizedResize (fst st2)) = _callbacks (_optimizedResize (fst st))
       /\ GridConsistent (images (fst st2)) (snd st2)
       /\ exists done,
            passes (snd st2) = passes (snd st) ++ done
            /\ length done = length (_callbacks (_optimizedResize (fst st)))
            /\ Forall (fun p => p <> None) done.
Proof.
  intros N R Q G st1.
  assert (st1 = (set_optimizedResize (fst st)
                   {| _callbacks := _callbacks (_optimizedResize (fst st));
                      _running := true |},
                 requestAnimationFrame ResizeFrame (snd st))) as E.
  { unfold st1. induction n as [|k IH].
    - now apply resizeEvent_first.
    - change (Nat.iter (S (S k)) resizeEvent st)
        with (resizeEvent (Nat.iter (S k) resizeEvent st)).
      rewrite IH. now apply resizeEvent_running. }
  clearbody st1. subst st1.
  split; [reflexivity|].
  split; [cbn; now rewrite Q|].
  unfold animationFrameOnPage.
  cbn [fst snd requestAnimationFrame set_frameRequests frameRequests].
  rewrite Q. cbn [app runFrameCallbacksOnPage runFrameCallbackOnPage].
  unfold runCallbacksOnPage.
  cbn [fst snd].
  replace (_optimizedResize (set_optimizedResize (fst st)
             {| _callbacks := _callbacks (_optimizedResize (fst st)); _running := true |}))
    with {| _callbacks := _callbacks (_optimizedResize (fst st)); _running := true |}
    by (destruct (fst st); reflexivity).
  cbn [_callbacks].
  match goal with
  | |- context [callResizeCallbacks host ?l ?s] =>
      destruct (callResizeCallbacks_ok host l s) as (st2 & E & G2 & A & B & _ & _ & done & D & L & F)
  end.
  { cbn [fst snd].
    replace (images (set_optimizedResize (fst st) _)) with (images (fst st))
      by (destruct (fst st); reflexivity).
    apply (GridConsistent_page _ _ _ G); reflexivity. }
  rewrite E. cbn [bind fst snd]. eexists. split; [reflexivity|].
  cbn [fst snd set_frameRequests frameRequests passes] in A, B, D.
  replace (_optimizedResize (set_optimizedResize (fst st)
             {| _callbacks := _callbacks (_optimizedResize (fst st)); _running := true |}))
    with {| _callbacks := _callbacks (_optimizedResize (fst st)); _running := true |} in A
    by (destruct (fst st); reflexivity).
  cbn [fst snd]. rewrite A. cbn [_callbacks].
  replace (images (set_optimizedResize (fst st2) _)) with (images (fst st2))
    by (destruct (fst st2); reflexivity).
  split; [exact B|].
  split; [destruct (fst st2); reflexivity|].
  split; [destruct (fst st2); reflexivity|].
  split; [exact G2|].
  exists done. repeat split; assumption.
Qed.

Lemma scrollHandler_requests (host : Host) (st : Pig * Page) :
  frameRequests (snd (scrollHandler host st))
  = if inRAF (fst st) then frameRequests (snd st)
    else frameRequests (snd st) ++ [ScrollFrame].
Proof.
  unfold scrollHandler. cbv zeta. cbn [set_scroll inRAF].
  destruct (inRAF (fst st)); reflexivity.
Qed.

(** [enable] on a grid whose images, once laid out, agree with the page. *)
Lemma enableOnPage_effect (host : Host) (st : Pig * Page)
    (styled : list ProgressiveImage) :
  Forall2 (fun a b => exists s, b = set_style a s) (images (fst st)) styled ->
  GridConsistent styled (snd st) ->
  let n := nextFunction (snd st) in
  let r := _optimizedResize (fst st) in
  exists st',
    enableOnPage host st = Ok st'
    /\ GridConsistent (images (fst st')) (snd st')
    /\ onScroll (fst st') = Some n
    /\ scrollListeners (snd st') = addEventListener n (scrollListeners (snd st))
    /\ _callbacks (_optimizedResize (fst st')) = _callbacks r ++ [S n]
    /\ _running (_optimizedResize (fst st')) = _running r
    /\ resizeListeners (snd st')
       = match _callbacks r with
         | [] => addEventListener (S (S n)) (resizeListeners (snd st))
         | _ :: _ => resizeListeners (snd st)
         end
    /\ inRAF (fst st') = true
    /\ frameRequests (snd st')
       = (if inRAF (fst st) then frameRequests (snd st)
          else frameRequests (snd st) ++ [ScrollFrame])
    /\ exists pass, passes (snd st') = passes (snd st) ++ [Some pass]
                    /\ containerHeight pass = totalHeight (fst st').
Proof.
  intros R G n r. unfold enableOnPage. cbv zeta.
  match goal with
  | |- context [scrollHandler host ?a] =>
      pose proof (scrollHandler_inRAF host a) as Hi;
      pose proof (scrollHandler_images host a) as Him;
      pose proof (scrollHandler_requests host a) as Hq;
      destruct (scrollHandler_nodes host a) as (Nc & Ne);
      destruct (scrollHandler_frame host a) as (Sr & So & _ & Ss & Sl & Sn & _ & Sp);
      generalize dependent (scrollHandler host a)
  end.
  intros sh Hi Him Hq Nc Ne Sr So Ss Sl Sn Sp.
  cbn [fst snd newFunction set_nextFunction set_scrollListeners scrollListeners
       resizeListeners nextFunction passes frameRequests containerChildren
       imageElements] in Him, Hq, Nc, Ne, Sr, So, Ss, Sl, Sn, Sp.
  replace (images (set_onScroll (fst st) (nextFunction (snd st))))
    with (images (fst st)) in Him by (destruct (fst st); reflexivity).
  replace (inRAF (set_onScroll (fst st) (nextFunction (snd st))))
    with (inRAF (fst st)) in Hq by (destruct (fst st); reflexivity).
  replace (_optimizedResize (set_onScroll (fst st) (nextFunction (snd st))))
    with (_optimizedResize (fst st)) in Sr by (destruct (fst st); reflexivity).
  replace (onScroll (set_onScroll (fst st) (nextFunction (snd st))))
    with (Some (nextFunction (snd st))) in So by (destruct (fst st); reflexivity).
  pose proof (computeLayout_restyles host (fst sh)) as Rl. rewrite Him in Rl.
  destruct (computeLayout_frame host (fst sh)) as (Fr & Fi & _ & _ & _ & _ & _ & Fo).
  generalize dependent (_computeLayout host (fst sh)). intros laid Rl Fr Fi Fo.
  assert (GridConsistent (images (fst laid))
            (set_timeouts (snd sh) (timeouts (snd sh) ++ snd laid))) as G1.
  { apply (GridConsistent_page _ (snd st)); [|exact Nc|exact Ne].
    exact (GridConsistent_relaid _ _ _ R G _ Rl). }
  destruct (doLayoutOnPage_ok host (fst laid) _ G1)
    as (imgs' & page' & E & G' & Ii & Si & A & B & C & D & P & T & pass & Ed & Eh).
  cbn [set_timeouts scrollListeners resizeListeners nextFunction frameRequests passes]
    in A, B, C, D, P.
  rewrite E, Ed. cbn [bind fst snd]. eexists. split; [reflexivity|].
  unfold OptimizedResize_add, newFunction.
  cbn [fst snd set_passes set_nextFunction nextFunction passes resizeListeners].
  replace (_optimizedResize (set_images (fst laid) imgs'))
    with (_optimizedResize (fst laid)) by (destruct (fst laid); reflexivity).
  rewrite Fr, Sr. fold r.
  assert (forall x, images (set_optimizedResize (set_images (fst laid) imgs') x) = imgs')
    as Ex by (intros x; destruct (fst laid); reflexivity).
  assert (forall x, onScroll (set_optimizedResize (set_images (fst laid) imgs') x)
                    = onScroll (fst laid))
    as Eo by (intros x; destruct (fst laid); reflexivity).
  assert (forall x, inRAF (set_optimizedResize (set_images (fst laid) imgs') x)
                    = inRAF (fst laid))
    as Er by (intros x; destruct (fst laid); reflexivity).
  assert (forall x, totalHeight (set_optimizedResize (set_images (fst laid) imgs') x)
                    = totalHeight (fst laid))
    as Et by (intros x; destruct (fst laid); reflexivity).
  assert (forall x, _optimizedResize (set_optimizedResize (set_images (fst laid) imgs') x)
                    = x)
    as Eq by (intros x; destruct (fst laid); reflexivity).
  rewrite Ex, Eo, Er, Et, Eq, Fo, So, Fi, Hi. cbn [_callbacks _running].
  rewrite C, Sn.
  split.
  { destruct (_callbacks r); apply (GridConsistent_page _ page' _ G'); reflexivity. }
  split; [reflexivity|].
  split; [destruct (_callbacks r); cbn [snd scrollListeners set_resizeListeners
                                         set_nextFunction set_passes];
          rewrite A; exact Ss|].
  split; [reflexivity|]. split; [reflexivity|].
  split; [destruct (_callbacks r); cbn [snd resizeListeners set_resizeListeners
                                         set_nextFunction set_passes];
          rewrite B, Sl; reflexivity|].
  split; [reflexivity|].
  split; [destruct (_callbacks r); cbn [snd frameRequests set_resizeListeners
                                         set_nextFunction set_passes];
          rewrite D; exact Hq|].
  exists pass.
  split; [destruct (_callbacks r); cbn [snd passes set_resizeListeners
                                         set_nextFunction set_passes];
          rewrite P, Sp; reflexivity|].
  exact Eh.
Qed.

(** X15: [enable] completes its set-up on a page whose container exists and
    agrees with the images.  When the images, once given styles, agree with
    the page (as the images of a new grid do with an empty container),
    [enable] returns without an exception: its one pass, made on the page
    after [_computeLayout] has given every image a style, sets the container
    height to the [totalHeight] just computed and leaves the images and the
    page in agreement; the resize callback is then registered behind the
    callbacks already there, and a new resize listener is attached only when
    there was no callback. *)
Theorem enable_completes (host : Host) (st : Pig * Page)
    (styled : list ProgressiveImage) :
  Forall2 (fun a b => exists s, b = set_style a s) (images (fst st)) styled ->
  GridConsistent styled (snd st) ->
  exists st',
    enableOnPage host st = Ok st'
    /\ GridConsistent (images (fst st')) (snd st')
    /\ (exists pass, passes (snd st') = passes (snd st) ++ [Some pass]
          /\ containerHeight pass = totalHeight (fst st'))
    /\ length (_callbacks (_optimizedResize (fst st')))
       = S (length (_callbacks (_optimizedResize (fst st))))
    /\ (_callbacks (_optimizedResize (fst st)) <> [] ->
        resizeListeners (snd st') = resizeListeners (snd st))
    /\ inRAF (fst st') = true.
Proof.
  intros R G.
  destruct (enableOnPage_effect host st styled R G)
    as (st' & E & G' & _ & _ & Hc & _ & Hl & Hi & _ & Hp).
  exists st'. split; [exact E|]. split; [exact G'|]. split; [exact Hp|].
  split; [rewrite Hc, length_app; simpl; lia|].
  split; [|exact Hi].
  intros N. rewrite Hl. destruct (_callbacks (_optimizedResize (fst st))); congruence.
Qed.

Lemma enable_completes_witness :
  exists st',
    enableOnPage scenarioHost (scenarioPig, emptyPage) = Ok st'
    /\ GridConsistent (images (fst st')) (snd st')
    /\ inRAF (fst st') = true.
Proof.
  destruct (enable_completes scenarioHost (scenarioPig, emptyPage)
              (images (fst (_computeLayout scenarioHost scenarioPig)))
              (computeLayout_restyles scenarioHost scenarioPig)
              (proj1 (newGrid_consistent scenarioHost _ defaultSettings emptyPage
                        eq_refl)))
    as (st' & E & G & _ & _ & _ & Hi).
  exists st'. split; [exact E|]. split; [exact G | exact Hi].
Defined.

Lemma resize_burst_one_frame_witness :
  exists st0 st2,
    (st <- enableOnPage scenarioHost (scenarioPig, emptyPage) ;;
     animationFrameOnPage scenarioHost st) = Ok st0
    /\ animationFrameOnPage scenarioHost (Nat.iter 3 resizeEvent st0) = Ok st2
    /\ frameRequests (snd st2) = []
    /\ _running (_optimizedResize (fst st2)) = false.
Proof.
  destruct (enableOnPage_effect scenarioHost (scenarioPig, emptyPage)
              (images (fst (_computeLayout scenarioHost scenarioPig)))
              (computeLayout_restyles scenarioHost scenarioPig)
              (proj1 (newGrid_consistent scenarioHost _ defaultSettings emptyPage
                        eq_refl)))
    as (sa & Ea & Ga & _ & _ & _ & _ & _ & Hi & Hq & _).
  assert (frameRequests (snd sa) = (if inRAF (fst sa) then [ScrollFrame] else [])) as Qa
    by (rewrite Hi, Hq; reflexivity).
  destruct (animationFrameOnPage_scroll scenarioHost sa Qa Ga)
    as (st0 & E0 & _ & F0 & G0 & _).
  set (start := returned (st <- enableOnPage scenarioHost (scenarioPig, emptyPage) ;;
                          animationFrameOnPage scenarioHost st)
                         (scenarioPig, emptyPage)).
  assert (st0 = start) as Es
    by (unfold start; rewrite Ea; cbn [bind]; rewrite E0; reflexivity).
  assert (resizeListeners (snd start) <> []) as N by (vm_compute; discriminate).
  assert (_running (_optimizedResize (fst start)) = false) as R
    by (vm_compute; reflexivity).
  rewrite <- Es in N, R.
  destruct (resize_burst_one_frame scenarioHost 2 st0 N R F0 G0)
    as (_ & _ & st2 & E2 & H3 & H4 & _).
  exists st0, st2. rewrite Ea. cbn [bind].
  split; [exact E0|]. split; [exact E2|]. split; [exact H3 | exact H4].
Defined.
